(** * merger.py: stitching a grid of tile images back into one image

    A shallow embedding of [src/merger.py].  The core of the program is
    [group_images] (sort the tile paths and cut them into row groups),
    [pad_image] (pad one tile to the target size of its row) and [merge]
    (reconcile the sizes, pad, stack horizontally then vertically), plus the
    name derivation done in [main]; around it, the command line:
    [check_image_file], [check_for_files], [parse_args] and the loop of
    [main].

    Python raises exceptions; here every fallible step returns a [result].
    Python integers are [Z]; list indexing follows Python (negative indices
    count from the end, anything else out of range raises [IndexError]).
    Strings are the [string]s of the standard library, a character standing
    for a code point below 256; the natural sort is modelled as it is on
    ASCII names. *)

From Stdlib Require Import ZArith Lia Bool Ascii String List Sorted.
From stdpp Require Import base tactics option list strings.
Import ListNotations.

Open Scope string_scope.
Open Scope list_scope.
Open Scope Z_scope.

(** ** Exceptions and the error monad *)

(** Where a [ValueError] comes from: [int()] on a bad literal, [Image.new]
    refusing a negative size (reached through [ImageOps.expand]), and numpy's
    concatenation behind [np.hstack] and [np.vstack]. *)
Inductive raiser := by_int | by_new | by_hstack | by_vstack.

Inductive exn :=
| IndexError
| ValueError (r : raiser)
| OSError.

Inductive result (A : Type) :=
| Ok (a : A)
| Raise (e : exn).
Arguments Ok {A} a.
Arguments Raise {A} e.

#[global] Instance result_ret : MRet result := fun A a => Ok a.
#[global] Instance result_bind : MBind result := fun A B k m =>
  match m with
  | Ok a => k a
  | Raise e => Raise e
  end.

Definition raises {A} (m : result A) : Prop :=
  match m with Ok _ => False | Raise _ => True end.

(** [for x in l: state = step(state, x)] with exceptions. *)
Fixpoint foldM {A S} (step : S -> A -> result S) (l : list A) (s : S) : result S :=
  match l with
  | [] => Ok s
  | x :: l' => s' ← step s x; foldM step l' s'
  end.

(** A list comprehension [[f(x) for x in l]] with exceptions. *)
Fixpoint mapM {A B} (f : A -> result B) (l : list A) : result (list B) :=
  match l with
  | [] => Ok []
  | x :: l' => y ← f x; ys ← mapM f l'; Ok (y :: ys)
  end.

(** [enumerate(l)], counting from [i]. *)
Fixpoint enumerate_from {A} (i : nat) (l : list A) : list (nat * A) :=
  match l with
  | [] => []
  | x :: l' => (i, x) :: enumerate_from (S i) l'
  end.
Definition enumerate {A} (l : list A) : list (nat * A) := enumerate_from 0 l.

(** ** Python lists indexed by an integer *)

(** The position an index denotes in a list of length [n]. *)
Definition py_index (n : nat) (i : Z) : result nat :=
  if (0 <=? i) && (i <? Z.of_nat n) then Ok (Z.to_nat i)
  else if (- Z.of_nat n <=? i) && (i <? 0) then Ok (Z.to_nat (Z.of_nat n + i))
  else Raise IndexError.

(** [l[i]] *)
Definition getitem {A} (l : list A) (i : Z) : result A :=
  k ← py_index (length l) i;
  match l !! k with
  | Some x => Ok x
  | None => Raise IndexError
  end.

(** [l[i] = x] *)
Definition setitem {A} (l : list A) (i : Z) (x : A) : result (list A) :=
  k ← py_index (length l) i;
  Ok (<[k := x]> l).

(** ** Python strings *)

Module Str.

Fixpoint drop (n : nat) (s : string) : string :=
  match n, s with
  | O, _ => s
  | S n', String _ s' => drop n' s'
  | S _, EmptyString => EmptyString
  end.

(** [s.endswith(suffix)] *)
Definition endswith (s suffix : string) : bool :=
  (String.length suffix <=? String.length s)%nat
  && String.eqb (drop (String.length s - String.length suffix) s) suffix.

(** [s.replace(old, new)] for a non-empty [old]: occurrences are found from
    the left and do not overlap.  [skip] counts the characters of the
    occurrence just replaced that are still to be passed over. *)
Fixpoint replace_from (old new : string) (skip : nat) (s : string) : string :=
  match s with
  | EmptyString => EmptyString
  | String c s' =>
      match skip with
      | S k => replace_from old new k s'
      | O =>
          if String.prefix old s
          then new +:+ replace_from old new (String.length old - 1) s'
          else String c (replace_from old new 0 s')
      end
  end.

(** With an empty [old], Python puts [new] before every character and at
    the end. *)
Fixpoint intersperse (new s : string) : string :=
  match s with
  | EmptyString => new
  | String c s' => new +:+ String c (intersperse new s')
  end.

Definition replace (s old new : string) : string :=
  match old with
  | EmptyString => intersperse new s
  | _ => replace_from old new 0 s
  end.

(** [s.split(sep)] for a one-character separator: never an empty list. *)
Fixpoint split (sep : ascii) (s : string) : list string :=
  match s with
  | EmptyString => [EmptyString]
  | String c s' =>
      if Ascii.eqb c sep then EmptyString :: split sep s'
      else match split sep s' with
           | w :: ws => String c w :: ws
           | [] => [String c EmptyString]
           end
  end.

Definition is_digit (c : ascii) : bool :=
  let n := nat_of_ascii c in (48 <=? n)%nat && (n <=? 57)%nat.

Definition digit_val (c : ascii) : Z := Z.of_nat (nat_of_ascii c) - 48.

(** The white space [int()] skips around a literal: tab, LF, VT, FF, CR
    and the space, and above ASCII the next-line and the no-break space
    (0x85, 0xa0).  The separators 0x1c-0x1f are not skipped: [int()] raises
    on them. *)
Definition is_space (c : ascii) : bool :=
  let n := nat_of_ascii c in
  ((9 <=? n)%nat && (n <=? 13)%nat) || (n =? 32)%nat
  || (n =? 133)%nat || (n =? 160)%nat.

Fixpoint lstrip (s : string) : string :=
  match s with
  | String c s' => if is_space c then lstrip s' else s
  | EmptyString => EmptyString
  end.

Fixpoint rev_onto (s acc : string) : string :=
  match s with
  | EmptyString => acc
  | String c s' => rev_onto s' (String c acc)
  end.
Definition rev (s : string) : string := rev_onto s EmptyString.

Definition strip (s : string) : string := rev (lstrip (rev (lstrip s))).

(** The digits of a decimal literal; single underscores may separate
    digits.  [prev] tells whether the previous character was a digit. *)
Fixpoint digits (s : string) (acc : Z) (prev : bool) : option Z :=
  match s with
  | EmptyString => if prev then Some acc else None
  | String c s' =>
      if is_digit c then digits s' (10 * acc + digit_val c) true
      else if Ascii.eqb c "_" && prev then digits s' acc false
      else None
  end.

(** [int(s)]: surrounding white space, an optional sign, decimal digits. *)
Definition int (s : string) : result Z :=
  let body := strip s in
  let signed :=
    match body with
    | String "-" s' => option_map Z.opp (digits s' 0 false)
    | String "+" s' => digits s' 0 false
    | _ => digits body 0 false
    end in
  match signed with
  | Some z => Ok z
  | None => Raise (ValueError by_int)
  end.

(** Every character passes the test. *)
Fixpoint all (f : ascii -> bool) (s : string) : bool :=
  match s with
  | EmptyString => true
  | String c s' => f c && all f s'
  end.

Definition is_alpha (c : ascii) : bool :=
  let n := nat_of_ascii c in
  ((65 <=? n)%nat && (n <=? 90)%nat) || ((97 <=? n)%nat && (n <=? 122)%nat).

(** [old] occurs in [s] at one of the first [n] positions. *)
Fixpoint occurs_before (n : nat) (old s : string) : bool :=
  match n, s with
  | S n', String _ s' => String.prefix old s || occurs_before n' old s'
  | _, _ => false
  end.

(** [os.path.basename(p)] on POSIX: what follows the last slash. *)
Definition basename (p : string) : string :=
  List.last (split "/" p) EmptyString.

End Str.

(** ** natsort: [natsorted] with the default algorithm

    The key of a string is the sequence of its maximal digit runs, read as
    unsigned integers, and of the text between them; a key always starts with
    a text chunk (empty when the string starts with a digit).  Keys compare
    as Python tuples and the sort is stable.  This is natsort on ASCII
    names: on other names it first decomposes accented letters and takes
    further characters for digits. *)
Module Natsort.

Inductive chunk :=
| Text (s : string)
| Num (n : Z).

(** [cur] is the chunk being read, most recent character first;
    [innum] tells whether it is a digit run. *)
Fixpoint chunks (s : string) (cur : string) (innum : bool) : list chunk :=
  let close :=
    if innum then
      [Num (default 0 (Str.digits (Str.rev cur) 0 false))]
    else match cur with
         | EmptyString => []
         | _ => [Text (Str.rev cur)]
         end in
  match s with
  | EmptyString => close
  | String c s' =>
      if Bool.eqb (Str.is_digit c) innum then chunks s' (String c cur) innum
      else close ++ chunks s' (String c EmptyString) (Str.is_digit c)
  end.

Definition key (s : string) : list chunk :=
  match s with
  | EmptyString => []
  | String c _ =>
      if Str.is_digit c then Text EmptyString :: chunks s EmptyString true
      else chunks s EmptyString false
  end.

Definition chunk_compare (a b : chunk) : comparison :=
  match a, b with
  | Text s, Text t => String.compare s t
  | Num m, Num n => Z.compare m n
  | Text _, Num _ => Gt (* not reached: keys alternate, text first *)
  | Num _, Text _ => Lt
  end.

Fixpoint key_compare (k1 k2 : list chunk) : comparison :=
  match k1, k2 with
  | [], [] => Eq
  | [], _ :: _ => Lt
  | _ :: _, [] => Gt
  | a :: k1', b :: k2' =>
      match chunk_compare a b with
      | Eq => key_compare k1' k2'
      | c => c
      end
  end.

Definition leb (s t : string) : bool :=
  match key_compare (key s) (key t) with
  | Gt => false
  | _ => true
  end.

(** Stable insertion: [x] goes before the first element it does not
    exceed, so it stays in front of the equal elements that followed it. *)
Fixpoint insert (x : string) (l : list string) : list string :=
  match l with
  | [] => [x]
  | y :: l' => if leb x y then x :: l else y :: insert x l'
  end.

Definition natsorted (l : list string) : list string :=
  fold_right insert [] l.

End Natsort.

(** ** [group_images] *)

(** The row coordinate as [group_images] reads it from a path: drop every
    [.ext], split at the underscores, take the last but one field. *)
Definition path_row (image image_ext : string) : result Z :=
  let image_name_no_ext := Str.replace image ("." +:+ image_ext) "" in
  coord_y ← getitem (Str.split "_" image_name_no_ext) (-2);
  Str.int coord_y.

(** The loop state: [last_y], [group_index], [grouped_images]. *)
Record grouping := Grouping {
  last_y : Z;
  group_index : nat;
  grouped_images : list (list string)
}.

Definition group_step (image_ext : string) (st : grouping) (image : string)
  : result grouping :=
  if Str.endswith image image_ext then
    y ← path_row image image_ext;
    if y =? last_y st then
      match grouped_images st !! group_index st with
      | Some g =>
          Ok (Grouping (last_y st) (group_index st)
                (<[group_index st := g ++ [image]]> (grouped_images st)))
      | None => Raise IndexError
      end
    else
      Ok (Grouping y (S (group_index st)) (grouped_images st ++ [[image]]))
  else Ok st.

Definition group_images (images : list string) (image_ext : string)
  : result (list (list string)) :=
  let all_images := Natsort.natsorted images in
  st ← foldM (group_step image_ext) all_images (Grouping 0 0 [[]]);
  Ok (grouped_images st).

(** ** Regular expressions, as far as [main] uses them

    The pattern of [main] is a sequence of single characters and of [+]
    repetitions of a character class.  Matching is greedy with backtracking,
    as in Python's [re]. *)
Module Re.

Inductive cls :=
| Chr (c : ascii)   (* a literal character *)
| Digit             (* [0-9] *)
| Dot.              (* . : anything but a newline *)

Inductive item :=
| One (k : cls)
| Plus (k : cls).

Definition accepts (k : cls) (c : ascii) : bool :=
  match k with
  | Chr a => Ascii.eqb a c
  | Digit => Str.is_digit c
  | Dot => negb (Ascii.eqb c "010")
  end.

(** [k+] followed by the rest of the pattern, whose matcher is [rest]:
    take as many characters as possible, give back one at a time. *)
Fixpoint plus (k : cls) (rest : string -> option nat) (s : string) : option nat :=
  match s with
  | String c s' =>
      if accepts k c then
        match plus k rest s' with
        | Some n => Some (S n)
        | None => S <$> rest s'
        end
      else None
  | EmptyString => None
  end.

(** The length of the match of [p] at the start of the string, if any. *)
Fixpoint match_here (p : list item) : string -> option nat :=
  match p with
  | [] => fun _ => Some O
  | One k :: p' => fun s =>
      match s with
      | String c s' => if accepts k c then S <$> match_here p' s' else None
      | EmptyString => None
      end
  | Plus k :: p' => plus k (match_here p')
  end.

Fixpoint take (n : nat) (s : string) : string :=
  match n, s with
  | S n', String c s' => String c (take n' s')
  | _, _ => EmptyString
  end.

(** [re.findall(p, s)] for a pattern without groups that matches no empty
    string: the matches from left to right, not overlapping. *)
Fixpoint findall_from (p : list item) (skip : nat) (s : string) : list string :=
  match s with
  | EmptyString => []
  | String _ s' =>
      match skip with
      | S k => findall_from p k s'
      | O =>
          match match_here p s with
          | Some n => take n s :: findall_from p (n - 1) s'
          | None => findall_from p O s'
          end
      end
  end.

Definition findall (p : list item) (s : string) : list string :=
  findall_from p O s.

Fixpoint literal (s : string) : list item :=
  match s with
  | EmptyString => []
  | String c s' => One (Chr c) :: literal s'
  end.

End Re.

(** ** The name of the output file, from [main]

    [f"_[0-9]+_[0-9]+.{image_ext}"]: the extension is spliced into the
    pattern; it is one of the extensions of [check_image_file], letters
    only, so it stands for itself. *)
Definition tile_suffix_pattern (image_ext : string) : list Re.item :=
  [Re.One (Re.Chr "_"); Re.Plus Re.Digit; Re.One (Re.Chr "_"); Re.Plus Re.Digit;
   Re.One Re.Dot] ++ Re.literal image_ext.

Definition check_image_file (image : string) : bool :=
  existsb (Str.endswith image) [".jpg"; ".jpeg"; ".tif"; ".bmp"; ".png"; ".gif"].

(** The last argument of the [os.path.join] passed to [full_image.save]. *)
Definition merged_name (all_images : list string) : result string :=
  first ← getitem all_images 0;
  image_ext ← getitem (Str.split "." first) (-1);
  suffix ← getitem (Re.findall (tile_suffix_pattern image_ext) first) (-1);
  let image_name := Str.replace (Str.basename first) suffix "" in
  Ok (image_name +:+ "_merged." +:+ image_ext).

(** The next character of [t], if any, is not one of the class [k]. *)
Definition stops (k : Re.cls) (t : string) : Prop :=
  match t with
  | String a _ => Re.accepts k a = false
  | EmptyString => True
  end.

(** The trailing [_<row>_<col>.<ext>] of a tile name. *)
Definition tile_suffix (r c ext : string) : string :=
  "_" +:+ r +:+ "_" +:+ c +:+ "." +:+ ext.

(** ** Images and arrays *)

Section Raster.

(** One pixel, whatever the mode; all tiles of a set have the same mode. *)
Context {pixel : Type}.

(** A numpy array of shape [(rows, cols)] of pixels. *)
Record ndarray := NDArray {
  rows : Z;
  cols : Z;
  cells : list (list pixel)
}.

(** A PIL image.  An image made in memory has no file name and no format;
    both are empty here. *)
Record Image := MkImage {
  filename : string;
  format : string;
  width : Z;
  height : Z;
  pixels : list (list pixel)
}.

(** The buffer has [height] lines of [width] pixels. *)
Definition wf_image (image : Image) : Prop :=
  0 <= width image /\ 0 <= height image /\
  length (pixels image) = Z.to_nat (height image) /\
  Forall (fun line => length line = Z.to_nat (width image)) (pixels image).

Definition wf_array (a : ndarray) : Prop :=
  0 <= cols a /\ 0 <= rows a /\
  length (cells a) = Z.to_nat (rows a) /\
  Forall (fun line => length line = Z.to_nat (cols a)) (cells a).

(** [np.asarray(image)] and [Image.fromarray(a)] *)
Definition asarray (image : Image) : ndarray :=
  NDArray (height image) (width image) (pixels image).

Definition fromarray (a : ndarray) : Image :=
  MkImage "" "" (cols a) (rows a) (cells a).

(** What [fill="black"] denotes for an image: black in the mode of the
    image and, for an image with a palette, the index black has in that
    palette, which differs from one tile to the next. *)
Context (black : Image -> pixel).

(** The files: what a path decodes to, its format (["PNG"], ["JPEG"], ...)
    and its pixels. *)
Definition filesystem := string -> option (string * ndarray).

(** [Image.open(path)], together with the decoding of the pixels.  PIL
    reads the size and the format when it opens a file and the pixels when
    they are first used, in [pad_image]: the [OSError] of a file whose
    header can be read and whose data cannot comes from there.  Here a file
    is an image with its pixels or it is none, and a statement about
    [OSError] does not say which of the two moments it comes from. *)
Definition Image_open (fs : filesystem) (path : string) : result Image :=
  match fs path with
  | Some (fmt, a) => Ok (MkImage path fmt (cols a) (rows a) (cells a))
  | None => Raise OSError
  end.

(** The pixel at column [x] of line [y], if there is one. *)
Definition getpixel (image : Image) (x y : Z) : option pixel :=
  if (0 <=? x) && (x <? width image) && (0 <=? y) && (y <? height image)
  then pixels image !! Z.to_nat y ≫= fun line => line !! Z.to_nat x
  else None.

(** [ImageOps.expand(image, border, fill="black")]:
    a new image of the enlarged size, filled with what black is for
    [image], onto which [image] is pasted at [(pad_left, pad_top)]; what
    falls outside is clipped. *)
Definition expand (image : Image) (border : Z * Z * Z * Z) : result Image :=
  let '(pad_left, pad_top, pad_right, pad_bottom) := border in
  let new_width := pad_left + width image + pad_right in
  let new_height := pad_top + height image + pad_bottom in
  if (new_width <? 0) || (new_height <? 0) then Raise (ValueError by_new)
  else
    Ok (MkImage "" "" new_width new_height
          (map (fun y =>
                  map (fun x => default (black image)
                                        (getpixel image (x - pad_left) (y - pad_top)))
                      (seqZ 0 new_width))
               (seqZ 0 new_height))).

(** [image.crop((x, y, x + w, y + h))] for a box inside the image, the
    inverse the padding is tested against; where the box leaves the image
    the cut is filled as a border is. *)
Definition crop (image : Image) (x y w h : Z) : Image :=
  MkImage "" "" w h
    (map (fun j => map (fun i => default (black image) (getpixel image (x + i) (y + j)))
                       (seqZ 0 w))
         (seqZ 0 h)).

(** The lines of arrays put side by side, and their total width. *)
Definition side_by_side (n : nat) (arrays : list ndarray) : list (list pixel) :=
  foldr (fun b acc => zip_with app (cells b) acc) (replicate n []) arrays.
Definition total_cols (arrays : list ndarray) : Z :=
  foldr (fun b n => cols b + n) 0 arrays.
Definition total_rows (arrays : list ndarray) : Z :=
  foldr (fun b n => rows b + n) 0 arrays.

(** [np.hstack(arrays)]: side by side; the numbers of rows must agree. *)
Definition hstack (arrays : list ndarray) : result ndarray :=
  match arrays with
  | [] => Raise (ValueError by_hstack)
  | a :: others =>
      if forallb (fun b => rows b =? rows a) others then
        Ok (NDArray (rows a) (total_cols arrays)
              (side_by_side (Z.to_nat (rows a)) arrays))
      else Raise (ValueError by_hstack)
  end.

(** [np.vstack(arrays)]: one above the other; the numbers of columns must
    agree. *)
Definition vstack (arrays : list ndarray) : result ndarray :=
  match arrays with
  | [] => Raise (ValueError by_vstack)
  | a :: others =>
      if forallb (fun b => cols b =? cols a) others then
        Ok (NDArray (total_rows arrays) (cols a) (concat (map cells arrays)))
      else Raise (ValueError by_vstack)
  end.

(** ** [pad_image] and [merge] *)

(** The row coordinate as [pad_image] and [merge] read it from an open
    image (both have the same two lines). *)
Definition image_row (image : Image) : result Z :=
  let image_name_no_ext :=
    Str.replace (Str.basename (filename image)) ("." +:+ format image) "" in
  coord_y ← getitem (Str.split "_" image_name_no_ext) (-2);
  Str.int coord_y.

(** [(pad_left, pad_top, pad_right, pad_bottom)] *)
Definition padding (image_width image_height target_width target_height : Z)
  : Z * Z * Z * Z :=
  let padding_height := target_height - image_height in
  let padding_width := target_width - image_width in
  let pad_top := padding_height `div` 2 in
  let pad_bottom := padding_height - pad_top in
  let pad_left := padding_width `div` 2 in
  let pad_right := padding_width - pad_left in
  (pad_left, pad_top, pad_right, pad_bottom).

Definition pad_image (image : Image) (max_heights max_widths : list Z)
  : result Image :=
  let image_height := height image in
  let image_width := width image in
  coord_y ← image_row image;
  target_height ← getitem max_heights coord_y;
  target_width ← getitem max_widths coord_y;
  expand image (padding image_width image_height target_width target_height).

(** The body of the inner loop of the first pass. *)
Definition tally (i : nat) (tables : list Z * list Z) (image : Image)
  : result (list Z * list Z) :=
  let '(max_heights, max_widths) := tables in
  let image_height := height image in
  let image_width := width image in
  coord_y ← image_row image;
  h ← getitem max_heights coord_y;
  max_heights ← setitem max_heights coord_y (Z.max h image_height);
  w ← getitem max_widths (Z.of_nat i);
  max_widths ← setitem max_widths (Z.of_nat i) (Z.max w image_width);
  Ok (max_heights, max_widths).

(** The first pass over the groups: [(max_heights, max_widths)]. *)
Definition reconcile (fs : filesystem) (grouped_images : list (list string))
  : result (list Z * list Z) :=
  let max_heights := replicate (length grouped_images) 0 in
  let max_widths := replicate (length grouped_images) 0 in
  foldM (fun tables '(i, group) =>
           images ← mapM (Image_open fs) group;
           foldM (tally i) images tables)
        (enumerate grouped_images) (max_heights, max_widths).

(** The body of the second pass: one row strip. *)
Definition strip_of (fs : filesystem) (max_heights max_widths : list Z)
  (group : list string) : result Image :=
  images ← mapM (Image_open fs) group;
  padded_images ← mapM (fun image => pad_image image max_heights max_widths) images;
  horizontal_part ← hstack (map asarray padded_images);
  Ok (fromarray horizontal_part).

Definition merge (fs : filesystem) (grouped_images : list (list string))
  : result Image :=
  '(max_heights, max_widths) ← reconcile fs grouped_images;
  horizontal_parts ← mapM (strip_of fs max_heights max_widths) grouped_images;
  full_image ← vstack (map asarray horizontal_parts);
  Ok (fromarray full_image).

(** ** Vocabulary of the statements *)

(** The largest of [v] and the numbers of [l]; a table cell starts at 0. *)
Definition above (v : Z) (l : list Z) : Z := foldr Z.max v l.
Definition max_of (l : list Z) : Z := above 0 l.

(** The table position the row coordinate of an image denotes, in tables
    of length [n]. *)
Definition slot (n : nat) (image : Image) : option nat :=
  match image_row image ≫= py_index n with
  | Ok k => Some k
  | Raise _ => None
  end.

(** Every tile with the index of its group, in the order of the loops. *)
Definition tagged_from (i : nat) (images : list (list Image)) : list (nat * Image) :=
  concat (map (fun '(i, g) => map (pair i) g) (enumerate_from i images)).
Definition tagged (images : list (list Image)) : list (nat * Image) :=
  tagged_from 0 images.

(** All the tiles of all the groups, opened. *)
Definition open_all (fs : filesystem) (grouped_images : list (list string))
  : result (list (list Image)) :=
  mapM (mapM (Image_open fs)) grouped_images.

(** The heights of the tiles whose row coordinate denotes position [k],
    and the widths of the tiles of group [k]. *)
Definition heights_at (n : nat) (tiles : list (nat * Image)) (k : nat) : list Z :=
  map (fun it => height it.2) (filter (fun it => slot n it.2 = Some k) tiles).
Definition widths_at (tiles : list (nat * Image)) (k : nat) : list Z :=
  map (fun it => width it.2) (filter (fun it => it.1 = k) tiles).

(** The two loops of the first pass seen as one: a tile and its group index. *)
Definition tally_tagged (tables : list Z * list Z) (it : nat * Image)
  : result (list Z * list Z) :=
  tally it.1 tables it.2.

(** The tables of a tile set, cell by cell: heights by the position of the
    row coordinate, widths by the index of the group. *)
Definition tables_of (images : list (list Image)) : list Z * list Z :=
  let n := length images in
  (map (fun k => max_of (heights_at n (tagged images) k)) (seq 0 n),
   map (fun k => max_of (widths_at (tagged images) k)) (seq 0 n)).

(** Rows contiguous from 0: the row coordinate of every tile is the index
    of its group. *)
Definition aligned (images : list (list Image)) : Prop :=
  forall i t, (i, t) ∈ tagged images -> image_row t = Ok (Z.of_nat i).

End Raster.

(** ** The grouping as the specification words it

    The row of the previous tile is tracked, starting at 0; a tile of that
    row joins the current row group, any other tile closes the current group,
    starts a new one and becomes the tracked row. *)
Record row_groups := RowGroups {
  tracked : Z;
  closed : list (list string);
  current : list string
}.

Definition track (st : row_groups) (tile : string * Z) : row_groups :=
  let '(image, row) := tile in
  if row =? tracked st then RowGroups (tracked st) (closed st) (current st ++ [image])
  else RowGroups row (closed st ++ [current st]) [image].

Definition groups_of (st : row_groups) : list (list string) :=
  closed st ++ [current st].

Definition partition_rows (tiles : list (string * Z)) : list (list string) :=
  groups_of (fold_left track tiles (RowGroups 0 [] [])).

(** The loop state of the code and the state of the specification agree. *)
Definition same_groups (st : grouping) (sp : row_groups) : Prop :=
  last_y st = tracked sp
  /\ group_index st = length (closed sp)
  /\ grouped_images st = closed sp ++ [current sp].

(** A path with its row coordinate. *)
Definition with_row (image_ext image : string) : result (string * Z) :=
  y ← path_row image image_ext; Ok (image, y).

(** ** Sample tile sets

    Pixels are grey levels, black is 0 for every image; [solid w h v] is a
    [w] by [h] array of [v]. *)
Definition dark : @Image Z -> Z := fun _ => 0.

Definition solid (w h : Z) (v : Z) : @ndarray Z :=
  NDArray h w (replicate (Z.to_nat h) (replicate (Z.to_nat w) v)).

Fixpoint files (l : list (string * @ndarray Z)) : @filesystem Z :=
  fun path =>
    match l with
    | [] => None
    | (name, a) :: l' =>
        if String.eqb path name then Some ("PNG", a) else files l' path
    end.

Definition six_tiles : list string :=
  ["im_1_2.png"; "im_0_1.png"; "im_1_0.png"; "im_0_0.png"; "im_1_1.png"; "im_0_2.png"].

(** Two rows of two tiles of uneven sizes. *)
Definition uneven_fs : @filesystem Z :=
  files [("t_0_0.png", solid 2 2 1); ("t_0_1.png", solid 3 1 2);
         ("t_1_0.png", solid 1 2 3); ("t_1_1.png", solid 3 1 4)].
Definition uneven_groups : list (list string) :=
  [["t_0_0.png"; "t_0_1.png"]; ["t_1_0.png"; "t_1_1.png"]].

(** A row of two tiles above a row of one. *)
Definition ragged_fs : @filesystem Z :=
  files [("t_0_0.png", solid 2 2 1); ("t_0_1.png", solid 2 2 2);
         ("t_1_0.png", solid 2 2 3)].
Definition ragged_groups : list (list string) :=
  [["t_0_0.png"; "t_0_1.png"]; ["t_1_0.png"]].

(** Row 0 comes back after row 1: the third group holds a tile of row 0. *)
Definition stray_fs : @filesystem Z :=
  files [("a_0_0.png", solid 20 5 1); ("a_1_0.png", solid 20 3 2);
         ("b_0_0.png", solid 10 7 3)].
Definition stray_groups : list (list string) :=
  [["a_0_0.png"]; ["a_1_0.png"]; ["b_0_0.png"]].

(** A single tile, of row 1. *)
Definition late_fs : @filesystem Z := files [("im_1_0.png", solid 3 2 9)].

(** Two rows of two tiles, all 2 by 2. *)
Definition even_fs : @filesystem Z :=
  files [("t_0_0.png", solid 2 2 1); ("t_0_1.png", solid 2 2 2);
         ("t_1_0.png", solid 2 2 3); ("t_1_1.png", solid 2 2 4)].
Definition even_groups : list (list string) :=
  [["t_0_0.png"; "t_0_1.png"]; ["t_1_0.png"; "t_1_1.png"]].

(** A tile 10 wide and 2 high. *)
Definition wide_tile : @Image Z :=
  MkImage "t_0_0.png" "PNG" 10 2 (replicate 2 (replicate 10 7)).

(** The first tile of the uneven set, opened. *)
Definition uneven_tile : @Image Z :=
  MkImage "t_0_0.png" "PNG" 2 2 (replicate 2 (replicate 2 1)).

(** The tile of the third group of the stray set, opened. *)
Definition stray_tile : @Image Z :=
  MkImage "b_0_0.png" "PNG" 10 7 (replicate 7 (replicate 10 3)).

Definition opened (fs : @filesystem Z) (groups : list (list string))
  : list (list (@Image Z)) :=
  match open_all fs groups with
  | Ok images => images
  | Raise _ => []
  end.

Definition uneven_images : list (list (@Image Z)) :=
  Eval vm_compute in opened uneven_fs uneven_groups.
Definition stray_images : list (list (@Image Z)) :=
  Eval vm_compute in opened stray_fs stray_groups.

Definition ragged_parts : list (@Image Z) :=
  Eval vm_compute in
    match mapM (strip_of dark ragged_fs [2; 2] [2; 2]) ragged_groups with
    | Ok parts => parts
    | Raise _ => []
    end.

(** ** What the row groups keep true

    [row] reads the row coordinate of a path. *)
Section GroupInvariant.

Variable row : string -> result Z.

(** Consecutive groups never share a row. *)
Fixpoint rows_change (groups : list (list string)) : Prop :=
  match groups with
  | g :: (g' :: _) as rest =>
      (forall p p', p ∈ g -> p' ∈ g' -> row p <> row p') /\ rows_change rest
  | _ => True
  end.

(** What the state of the partition keeps true, whatever came before. *)
Record grouped_well (st : row_groups) : Prop := GroupedWell {
  gw_current : forall p, p ∈ current st -> row p = Ok (tracked st);
  gw_closed : Forall (fun g => exists y, forall p, p ∈ g -> row p = Ok y) (closed st);
  gw_first : match closed st with
             | [] => tracked st = 0
             | g :: _ => forall p, p ∈ g -> row p = Ok 0
             end;
  gw_nonempty : match closed st with
                | [] => True
                | _ :: later => Forall (fun g => g <> []) later /\ current st <> []
                end;
  gw_change : rows_change (groups_of st)
}.

End GroupInvariant.

(** A name whose row coordinate is missing ([IndexError]) or is no number
    (the [ValueError] of [int]). *)
Definition bad_name (e : exn) : Prop := e = IndexError \/ e = ValueError by_int.

(** ** The command line: [check_for_files], [parse_args] and [main]

    The directories are a function that tells what is at a path: no
    directory, a directory with the names [os.listdir] answers, or a
    directory that cannot be read, on which [os.listdir] raises as it does
    where there is no directory.  [parse_args] gets the path already made
    absolute; the messages are not modelled.

    Writing is left to the system: [os.makedirs(path, exist_ok=True)] and
    [full_image.save(path)] do what they are asked, or raise (a path that
    is a file, a directory that cannot be written, a mode the format does
    not store).  Which of the two is what the functions [makedirs] and
    [save] answer, in [parse_args] and in [main]; the listings are those
    the program started with. *)
Inductive folder :=
| Listed (names : list string)
| Unreadable.

Definition directories := string -> option folder.

Definition listdir (dirs : directories) (path : string) : result (list string) :=
  match dirs path with
  | Some (Listed names) => Ok names
  | _ => Raise OSError
  end.

Definition isdir (dirs : directories) (path : string) : bool :=
  match dirs path with
  | Some _ => true
  | None => false
  end.

(** [os.path.join(a, b)] on POSIX. *)
Definition path_join (a b : string) : string :=
  if String.prefix "/" b then b
  else if String.eqb a "" || Str.endswith a "/" then a +:+ b
  else a +:+ "/" +:+ b.

(** One character of class [k], then the rest of the pattern. *)
Definition one (k : Re.cls) (rest : string -> option nat) (s : string) : option nat :=
  match s with
  | String c s' => if Re.accepts k c then S <$> rest s' else None
  | EmptyString => None
  end.

(** [[a-zA-Z]+] at the end of a pattern: the whole run of letters. *)
Fixpoint letters (s : string) : option nat :=
  match s with
  | String c s' =>
      if Str.is_alpha c then Some (S (default O (letters s'))) else None
  | EmptyString => None
  end.

(** ["_[0-9]+_[0-9]+.[a-zA-Z]+"]: the length of the match at the start of
    the string, if any. *)
Definition tile_file_pattern : string -> option nat :=
  one (Re.Chr "_")
      (Re.plus Re.Digit
         (one (Re.Chr "_") (Re.plus Re.Digit (one Re.Dot letters)))).

(** [re.findall(...)] is not empty: the pattern matches somewhere. *)
Fixpoint found (m : string -> option nat) (s : string) : bool :=
  match s with
  | String _ s' =>
      match m s with
      | Some _ => true
      | None => found m s'
      end
  | EmptyString => false
  end.

Definition check_for_files (dirs : directories) (path : string) : result (list string) :=
  names ← listdir dirs path;
  Ok (List.filter (found tile_file_pattern) names).

(** How a call ends: it returns, it ends the program with [exit(status)],
    or it raises. *)
Inductive outcome (A : Type) :=
| Returns (a : A)
| Exits (status : Z)
| Fails (e : exn).
Arguments Returns {A} a.
Arguments Exits {A} status.
Arguments Fails {A} e.

(** A list as a condition. *)
Definition truthy {A} (l : list A) : bool :=
  match l with
  | [] => false
  | _ :: _ => true
  end.

(** A list comprehension [[x for x in l if f(x)]] with exceptions. *)
Fixpoint filterM {A} (f : A -> result bool) (l : list A) : result (list A) :=
  match l with
  | [] => Ok []
  | x :: l' =>
      keep ← f x; kept ← filterM f l'; Ok (if keep : bool then x :: kept else kept)
  end.

(** The two conditions of the list comprehension of [parse_args]; the
    second is evaluated only when the first holds. *)
Definition tiled_dir (dirs : directories) (path : string) : result bool :=
  if isdir dirs path then
    found_files ← check_for_files dirs path; Ok (truthy found_files)
  else Ok false.

(** A directory that can be read and holds a file named like a tile. *)
Definition has_tiles (dirs : directories) (path : string) : bool :=
  match dirs path with
  | Some (Listed names) => existsb (found tile_file_pattern) names
  | _ => false
  end.

Definition parse_args (dirs : directories) (makedirs : string -> result unit)
    (path out : string) : outcome (list string * string) :=
  match
    (found_files ← check_for_files dirs path;
     if isdir dirs path && negb (truthy found_files) then
       names ← listdir dirs path;
       kept ← filterM (fun split_dir => tiled_dir dirs (path_join path split_dir))
                      names;
       Ok (map (path_join path) kept)
     else if isdir dirs path && truthy found_files then Ok [path]
     else Ok [])
  with
  | Raise e => Fails e
  | Ok split_dirs =>
      if negb (truthy split_dirs) then Exits 1
      else match makedirs out with
           | Ok _ => Returns (split_dirs, out)
           | Raise e => Fails e
           end
  end.

Section Main.

Context {pixel : Type} (black : @Image pixel -> pixel).
Context (makedirs : string -> result unit).
Context (save : string -> @Image pixel -> result unit).

(** The body of the loop of [main]: the path saved to and the image. *)
Definition merge_dir (fs : @filesystem pixel) (dirs : directories)
    (out_path split_dir : string) : result (string * @Image pixel) :=
  names ← listdir dirs split_dir;
  let all_images :=
    map (path_join split_dir) (List.filter check_image_file names) in
  first ← getitem all_images 0;
  image_ext ← getitem (Str.split "." first) (-1);
  name ← merged_name all_images;
  grouped_images ← group_images all_images image_ext;
  full_image ← merge black fs grouped_images;
  _ ← save (path_join out_path name) full_image;
  Ok (path_join out_path name, full_image).

(** The loop of [main]: what was saved, and the exception that stopped the
    loop, if any. *)
Fixpoint merge_dirs (fs : @filesystem pixel) (dirs : directories) (out_path : string)
    (split_dirs : list string) : list (string * @Image pixel) * option exn :=
  match split_dirs with
  | [] => ([], None)
  | split_dir :: rest =>
      match merge_dir fs dirs out_path split_dir with
      | Ok saved =>
          let '(more, e) := merge_dirs fs dirs out_path rest in
          (saved :: more, e)
      | Raise e => ([], Some e)
      end
  end.

Definition main (fs : @filesystem pixel) (dirs : directories) (path out : string)
  : list (string * @Image pixel) * outcome unit :=
  match parse_args dirs makedirs path out with
  | Returns (split_dirs, out_path) =>
      let '(saved, e) := merge_dirs fs dirs out_path split_dirs in
      (saved, match e with
              | None => Returns tt
              | Some e => Fails e
              end)
  | Exits status => ([], Exits status)
  | Fails e => ([], Fails e)
  end.

End Main.

(** Sample directories: what [os.listdir] answers, directory by directory. *)
Fixpoint listing (l : list (string * list string)) : directories :=
  fun path =>
    match l with
    | [] => None
    | (dir, names) :: l' =>
        if String.eqb path dir then Some (Listed names) else listing l' path
    end.

(** A system that writes whatever it is asked to. *)
Definition makes_all : string -> result unit := fun _ => Ok tt.
Definition saves_all : string -> @Image Z -> result unit := fun _ _ => Ok tt.

(** A directory with a file named like a tile that is no image. *)
Definition notes_dirs : directories :=
  listing [("/notes", ["notes_1_2.txt"; "readme"])].

(** The even tile set in the current directory, with a stranger. *)
Definition even_dirs : directories :=
  listing [("", ["t_1_1.png"; "t_0_1.png"; "readme.txt"; "t_0_0.png"; "t_1_0.png"])].

(** Two tile sets side by side in one directory. *)
Definition scans_dirs : directories :=
  listing [("/scans", ["a"; "b"; "index.html"]);
           ("/scans/a", ["a_0_0.png"; "a_0_1.png"]);
           ("/scans/b", ["b_0_0.jpg"])].

(** The cells of the six tiles and of the even tile set, row then column,
    in the order the paths are given. *)
Definition six_cells : list (string * string) :=
  [("1", "2"); ("0", "1"); ("1", "0"); ("0", "0"); ("1", "1"); ("0", "2")].
Definition even_cells : list (string * string) :=
  [("1", "1"); ("0", "1"); ("0", "0"); ("1", "0")].

(** Rows that start at [y] or one above and never skip a number: each row
    is the one before or the next. *)
Fixpoint climbs (y : Z) (rows_seen : list Z) : Prop :=
  match rows_seen with
  | [] => True
  | y' :: later => (y' = y \/ y' = y + 1) /\ climbs y' later
  end.

(** * Properties *)

(** ** The error monad and Python lists *)

Lemma bind_Ok {A B} (m : result A) (k : A -> result B) (b : B) :
  m ≫= k = Ok b <-> exists a, m = Ok a /\ k a = Ok b.
Proof.
  destruct m as [a|e]; simpl; split.
  - intros H. exists a. auto.
  - intros (a' & Ha & Hk). injection Ha as ->. exact Hk.
  - discriminate.
  - intros (a' & Ha & _). discriminate.
Qed.

Lemma foldM_app {A S} (step : S -> A -> result S) (l1 l2 : list A) (s : S) :
  foldM step (l1 ++ l2) s = foldM step l1 s ≫= foldM step l2.
Proof.
  revert s. induction l1 as [|x l1 IH]; intros s; simpl; [reflexivity|].
  destruct (step s x) as [s'|e]; simpl; [apply IH | reflexivity].
Qed.

Lemma mapM_Ok_length {A B} (f : A -> result B) (l : list A) (l' : list B) :
  mapM f l = Ok l' -> length l' = length l.
Proof.
  revert l'. induction l as [|x l IH]; intros l'; simpl.
  - intros [= <-]. reflexivity.
  - destruct (f x) as [y|]; simpl; [|discriminate].
    destruct (mapM f l) as [ys|]; simpl; [|discriminate].
    intros [= <-]. simpl. f_equal. apply IH. reflexivity.
Qed.

Lemma mapM_Ok_lookup {A B} (f : A -> result B) (l : list A) (l' : list B) i x :
  mapM f l = Ok l' -> l !! i = Some x -> exists y, l' !! i = Some y /\ f x = Ok y.
Proof.
  revert l' i. induction l as [|a l IH]; intros l' i; simpl.
  - intros _ Hx. rewrite lookup_nil in Hx. discriminate.
  - destruct (f a) as [y|] eqn:Hfa; simpl; [|discriminate].
    destruct (mapM f l) as [ys|] eqn:Hl; simpl; [|discriminate].
    intros [= <-]. destruct i as [|i]; simpl.
    + intros [= ->]. exists y. auto.
    + intros Hx. apply (IH ys i); auto.
Qed.

Lemma py_index_nat (n i : nat) : (i < n)%nat -> py_index n (Z.of_nat i) = Ok i.
Proof.
  intros Hi. unfold py_index.
  replace (0 <=? Z.of_nat i) with true by (symmetry; apply Z.leb_le; lia).
  replace (Z.of_nat i <? Z.of_nat n) with true by (symmetry; apply Z.ltb_lt; lia).
  simpl. rewrite Nat2Z.id. reflexivity.
Qed.

Lemma py_index_lt (n : nat) (i : Z) (k : nat) : py_index n i = Ok k -> (k < n)%nat.
Proof.
  unfold py_index.
  destruct ((0 <=? i) && (i <? Z.of_nat n)) eqn:H1.
  - apply andb_true_iff in H1 as [H0 H1].
    apply Z.leb_le in H0. apply Z.ltb_lt in H1. intros [= <-]. lia.
  - destruct ((- Z.of_nat n <=? i) && (i <? 0)) eqn:H2; [|discriminate].
    apply andb_true_iff in H2 as [H2 H3].
    apply Z.leb_le in H2. apply Z.ltb_lt in H3. intros [= <-]. lia.
Qed.

Lemma getitem_slot {A} (l : list A) (i : Z) (k : nat) (x : A) :
  py_index (length l) i = Ok k -> l !! k = Some x -> getitem l i = Ok x.
Proof. intros Hk Hx. unfold getitem. rewrite Hk. simpl. rewrite Hx. reflexivity. Qed.

Lemma setitem_slot {A} (l : list A) (i : Z) (k : nat) (x : A) :
  py_index (length l) i = Ok k -> setitem l i x = Ok (<[k := x]> l).
Proof. intros Hk. unfold setitem. rewrite Hk. reflexivity. Qed.

Lemma getitem_nat {A} (l : list A) (i : nat) (x : A) :
  l !! i = Some x -> getitem l (Z.of_nat i) = Ok x.
Proof.
  intros Hx. apply getitem_slot with i; [|exact Hx].
  apply py_index_nat. apply lookup_lt_Some in Hx. exact Hx.
Qed.

Lemma above_max (v h : Z) (l : list Z) :
  above (Z.max v h) l = Z.max h (above v l).
Proof.
  unfold above. induction l as [|a l IH]; simpl; [lia|]. rewrite IH. lia.
Qed.

Lemma above_le (v : Z) (l : list Z) : v <= above v l.
Proof. unfold above. induction l as [|a l IH]; simpl; lia. Qed.

(** ** Dimension reconciliation: the first pass of [merge] *)

Section Reconcile.

Context {pixel : Type}.
Implicit Types (image t : @Image pixel) (images : list (list (@Image pixel))).
Implicit Types (fs : @filesystem pixel) (tiles : list (nat * @Image pixel)).

Lemma slot_Some n t k :
  slot n t = Some k <-> exists c, image_row t = Ok c /\ py_index n c = Ok k.
Proof.
  unfold slot. destruct (image_row t) as [c|e]; simpl.
  - destruct (py_index n c) as [k'|e] eqn:Hk; split.
    + intros [= ->]. exists c. auto.
    + intros (c' & [= <-] & Hk'). congruence.
    + discriminate.
    + intros (c' & [= <-] & Hk'). congruence.
  - split; [discriminate|]. intros (c & Hc & _). discriminate.
Qed.

Lemma slot_lt n t k : slot n t = Some k -> (k < n)%nat.
Proof. intros (c & _ & Hk)%slot_Some. eapply py_index_lt, Hk. Qed.

(** One tile: the height goes to the position of the row coordinate, the
    width to the index of the group. *)
Lemma tally_slot i t (max_heights max_widths : list Z) n k :
  length max_heights = n -> length max_widths = n -> (i < n)%nat ->
  slot n t = Some k ->
  tally i (max_heights, max_widths) t =
    Ok (<[k := Z.max (default 0 (max_heights !! k)) (height t)]> max_heights,
        <[i := Z.max (default 0 (max_widths !! i)) (width t)]> max_widths).
Proof.
  intros Hh Hw Hi (c & Hc & Hk)%slot_Some.
  pose proof (py_index_lt _ _ _ Hk) as Hkn.
  destruct (lookup_lt_is_Some_2 max_heights k) as [h Hhk]; [lia|].
  destruct (lookup_lt_is_Some_2 max_widths i) as [w Hwi]; [lia|].
  unfold tally. rewrite Hc. simpl.
  rewrite (getitem_slot max_heights c k h) by (rewrite ?Hh; assumption). simpl.
  rewrite (setitem_slot max_heights c k) by (rewrite Hh; assumption). simpl.
  rewrite (getitem_nat max_widths i w) by assumption. simpl.
  unfold setitem. rewrite py_index_nat by lia. simpl.
  rewrite Hhk, Hwi. reflexivity.
Qed.

Lemma heights_at_cons n it tiles k :
  heights_at n (it :: tiles) k =
    if decide (slot n it.2 = Some k) then height it.2 :: heights_at n tiles k
    else heights_at n tiles k.
Proof.
  unfold heights_at. rewrite filter_cons. destruct (decide _); reflexivity.
Qed.

Lemma widths_at_cons it tiles k :
  widths_at (it :: tiles) k =
    if decide (it.1 = k) then width it.2 :: widths_at tiles k
    else widths_at tiles k.
Proof.
  unfold widths_at. rewrite filter_cons. destruct (decide _); reflexivity.
Qed.

(** The tables after any run of tiles, cell by cell. *)
Lemma tally_run n tiles : forall (max_heights max_widths : list Z),
  length max_heights = n -> length max_widths = n ->
  Forall (fun it => (it.1 < n)%nat /\ is_Some (slot n it.2)) tiles ->
  exists mh mw,
    foldM tally_tagged tiles (max_heights, max_widths) = Ok (mh, mw)
    /\ length mh = n /\ length mw = n
    /\ (forall k, mh !! k = (fun v => above v (heights_at n tiles k)) <$> max_heights !! k)
    /\ (forall k, mw !! k = (fun v => above v (widths_at tiles k)) <$> max_widths !! k).
Proof.
  induction tiles as [|[i t] tiles IH]; intros mh0 mw0 Hh Hw Hall.
  - exists mh0, mw0. simpl. repeat split; try assumption.
    + intros k. destruct (mh0 !! k); reflexivity.
    + intros k. destruct (mw0 !! k); reflexivity.
  - apply Forall_cons in Hall as [[Hi [k0 Hk0]] Hall]. simpl in Hi.
    pose proof (slot_lt _ _ _ Hk0) as Hk0n.
    simpl in Hk0.
    change (foldM tally_tagged ((i, t) :: tiles) (mh0, mw0))
      with (tally i (mh0, mw0) t ≫= foldM tally_tagged tiles).
    rewrite (tally_slot i t mh0 mw0 n k0) by assumption. cbn [mbind result_bind].
    destruct (IH (<[k0 := Z.max (default 0 (mh0 !! k0)) (height t)]> mh0)
                 (<[i := Z.max (default 0 (mw0 !! i)) (width t)]> mw0))
      as (mh & mw & Hrun & Hlh & Hlw & Hmh & Hmw);
      [rewrite length_insert; assumption | rewrite length_insert; assumption
      | assumption |].
    exists mh, mw. split; [exact Hrun|]. split; [exact Hlh|]. split; [exact Hlw|].
    split; intros k.
    + rewrite Hmh, heights_at_cons. simpl.
      destruct (decide (k0 = k)) as [<-|Hne].
      * rewrite list_lookup_insert_eq by lia.
        destruct (lookup_lt_is_Some_2 mh0 k0) as [v Hv]; [lia|].
        rewrite Hv. simpl. rewrite decide_True by assumption.
        f_equal. rewrite above_max. reflexivity.
      * rewrite list_lookup_insert_ne by assumption.
        rewrite decide_False by congruence. reflexivity.
    + rewrite Hmw, widths_at_cons. simpl.
      destruct (decide (i = k)) as [<-|Hne].
      * rewrite list_lookup_insert_eq by lia.
        destruct (lookup_lt_is_Some_2 mw0 i) as [v Hv]; [lia|].
        rewrite Hv. simpl. f_equal. rewrite above_max. reflexivity.
      * rewrite list_lookup_insert_ne by assumption. reflexivity.
Qed.

Lemma tagged_from_cons i (g : list (@Image pixel)) images :
  tagged_from i (g :: images) = map (pair i) g ++ tagged_from (S i) images.
Proof. reflexivity. Qed.

Lemma tagged_from_bound i images j t :
  (j, t) ∈ tagged_from i images -> (i <= j < i + length images)%nat.
Proof.
  revert i. induction images as [|g images IH]; intros i.
  - intros H. inversion H.
  - rewrite tagged_from_cons. intros [H|H]%elem_of_app.
    + apply list_elem_of_fmap in H as (t' & [= -> ->] & _). simpl. lia.
    + apply IH in H. simpl. lia.
Qed.

(** With every file readable, the two nested loops are one pass over the
    tagged tiles. *)
Lemma reconcile_loop fs : forall (groups : list (list string)) images i tables,
  open_all fs groups = Ok images ->
  foldM (fun tables '(i, group) =>
           images ← mapM (Image_open fs) group;
           foldM (tally i) images tables)
        (enumerate_from i groups) tables
  = foldM tally_tagged (tagged_from i images) tables.
Proof.
  unfold open_all.
  induction groups as [|g groups IH]; intros images i tables; simpl.
  - intros [= <-]. reflexivity.
  - destruct (mapM (Image_open fs) g) as [ts|] eqn:Hg; simpl; [|discriminate].
    destruct (mapM (mapM (Image_open fs)) groups) as [rest|] eqn:Hr; simpl;
      [|discriminate].
    intros [= <-]. rewrite tagged_from_cons, foldM_app.
    assert (Hin : forall tb, foldM (tally i) ts tb
                             = foldM tally_tagged (map (pair i) ts) tb).
    { clear. induction ts as [|t ts IHts]; intros tb; [reflexivity|].
      change (tally i tb t ≫= foldM (tally i) ts
              = tally i tb t ≫= foldM tally_tagged (map (pair i) ts)).
      destruct (tally i tb t); simpl; [apply IHts | reflexivity]. }
    rewrite <- Hin.
    destruct (foldM (tally i) ts tables) as [tb|]; simpl; [|reflexivity].
    apply IH. reflexivity.
Qed.

Lemma reconcile_pass fs (groups : list (list string)) images :
  open_all fs groups = Ok images ->
  reconcile fs groups =
    foldM tally_tagged (tagged images)
      (replicate (length groups) 0, replicate (length groups) 0).
Proof. intros H. unfold reconcile, enumerate. apply reconcile_loop, H. Qed.

Lemma open_all_length fs (groups : list (list string)) images :
  open_all fs groups = Ok images -> length images = length groups.
Proof. apply mapM_Ok_length. Qed.

Lemma reconcile_tables fs (groups : list (list string)) images :
  open_all fs groups = Ok images ->
  (forall it, it ∈ tagged images -> is_Some (slot (length images) it.2)) ->
  reconcile fs groups = Ok (tables_of images).
Proof.
  intros Hopen Hslots.
  pose proof (open_all_length _ _ _ Hopen) as Hlen.
  rewrite (reconcile_pass _ _ _ Hopen), <- Hlen.
  set (n := length images).
  destruct (tally_run n (tagged images) (replicate n 0) (replicate n 0))
    as (mh & mw & Hrun & Hlh & Hlw & Hmh & Hmw).
  { apply length_replicate. }
  { apply length_replicate. }
  { apply Forall_forall. intros [i t] Hit. split.
    - apply tagged_from_bound in Hit. simpl. unfold n. lia.
    - apply (Hslots _ Hit). }
  rewrite Hrun. unfold tables_of. fold n. f_equal. f_equal.
  - apply list_eq. intros k. rewrite Hmh, list_lookup_fmap.
    destruct (decide (k < n)%nat) as [Hk|Hk].
    + rewrite lookup_replicate_2, lookup_seq_lt by lia. reflexivity.
    + rewrite (proj1 (lookup_replicate_None n 0 k)), lookup_seq_ge by lia.
      reflexivity.
  - apply list_eq. intros k. rewrite Hmw, list_lookup_fmap.
    destruct (decide (k < n)%nat) as [Hk|Hk].
    + rewrite lookup_replicate_2, lookup_seq_lt by lia. reflexivity.
    + rewrite (proj1 (lookup_replicate_None n 0 k)), lookup_seq_ge by lia.
      reflexivity.
Qed.

End Reconcile.

(** ** [ImageOps.expand], [crop] and [pad_image] *)

Section Padding.

Context {pixel : Type} (black : @Image pixel -> pixel).
Implicit Types (image out : @Image pixel).

Lemma lookup_tabulate {A} (g : Z -> A) (n y : Z) :
  0 <= y < n -> map g (seqZ 0 n) !! Z.to_nat y = Some (g y).
Proof.
  intros Hy. change (map g (seqZ 0 n)) with (g <$> seqZ 0 n).
  rewrite list_lookup_fmap, lookup_seqZ_lt by lia.
  simpl. f_equal. f_equal. lia.
Qed.

Lemma tabulate_eq {A} (g : Z -> A) (n : Z) (l : list A) :
  length l = Z.to_nat n ->
  (forall i x, l !! i = Some x -> g (Z.of_nat i) = x) ->
  map g (seqZ 0 n) = l.
Proof.
  intros Hlen Hg. apply list_eq. intros i.
  change (map g (seqZ 0 n)) with (g <$> seqZ 0 n). rewrite list_lookup_fmap.
  destruct (l !! i) as [x|] eqn:Hx.
  - pose proof (lookup_lt_Some _ _ _ Hx).
    rewrite lookup_seqZ_lt by lia. simpl. f_equal. apply Hg. exact Hx.
  - apply lookup_ge_None in Hx. rewrite lookup_seqZ_ge by lia. reflexivity.
Qed.

Lemma getpixel_inside image x y :
  0 <= x < width image -> 0 <= y < height image ->
  getpixel image x y = pixels image !! Z.to_nat y ≫= fun line => line !! Z.to_nat x.
Proof.
  intros Hx Hy. unfold getpixel.
  replace (0 <=? x) with true by (symmetry; apply Z.leb_le; lia).
  replace (x <? width image) with true by (symmetry; apply Z.ltb_lt; lia).
  replace (0 <=? y) with true by (symmetry; apply Z.leb_le; lia).
  replace (y <? height image) with true by (symmetry; apply Z.ltb_lt; lia).
  reflexivity.
Qed.

Lemma getpixel_outside image x y :
  x < 0 \/ width image <= x \/ y < 0 \/ height image <= y ->
  getpixel image x y = None.
Proof.
  intros H. unfold getpixel.
  destruct (0 <=? x) eqn:H1; [|reflexivity].
  destruct (x <? width image) eqn:H2; [|reflexivity].
  destruct (0 <=? y) eqn:H3; [|reflexivity].
  destruct (y <? height image) eqn:H4; [|reflexivity].
  apply Z.leb_le in H1, H3. apply Z.ltb_lt in H2, H4. lia.
Qed.

(** Reading a well-formed buffer pixel by pixel gives the buffer back. *)
Lemma pixels_tabulate image (d : pixel) :
  wf_image image ->
  map (fun y => map (fun x => default d (getpixel image x y))
                    (seqZ 0 (width image)))
      (seqZ 0 (height image))
  = pixels image.
Proof.
  intros (Hw & Hh & Hlen & Hlines).
  apply tabulate_eq; [exact Hlen|]. intros j line Hj.
  pose proof (lookup_lt_Some _ _ _ Hj) as Hjlt.
  assert (Hline : length line = Z.to_nat (width image)).
  { rewrite Forall_forall in Hlines. apply Hlines.
    apply list_elem_of_lookup. eauto. }
  apply tabulate_eq; [exact Hline|]. intros i p Hi.
  pose proof (lookup_lt_Some _ _ _ Hi) as Hilt.
  rewrite getpixel_inside by lia.
  rewrite !Nat2Z.id, Hj. simpl. rewrite Hi. reflexivity.
Qed.

Lemma expand_Ok image pad_left pad_top pad_right pad_bottom :
  0 <= pad_left + width image + pad_right ->
  0 <= pad_top + height image + pad_bottom ->
  expand black image (pad_left, pad_top, pad_right, pad_bottom) =
    Ok (MkImage "" "" (pad_left + width image + pad_right)
          (pad_top + height image + pad_bottom)
          (map (fun y =>
                  map (fun x => default (black image)
                                        (getpixel image (x - pad_left) (y - pad_top)))
                      (seqZ 0 (pad_left + width image + pad_right)))
               (seqZ 0 (pad_top + height image + pad_bottom)))).
Proof.
  intros Hw Hh. unfold expand.
  replace (pad_left + width image + pad_right <? 0) with false
    by (symmetry; apply Z.ltb_ge; lia).
  replace (pad_top + height image + pad_bottom <? 0) with false
    by (symmetry; apply Z.ltb_ge; lia).
  reflexivity.
Qed.

Lemma expand_Ok_inv image pad_left pad_top pad_right pad_bottom out :
  expand black image (pad_left, pad_top, pad_right, pad_bottom) = Ok out ->
  0 <= pad_left + width image + pad_right /\
  0 <= pad_top + height image + pad_bottom.
Proof.
  unfold expand.
  destruct (pad_left + width image + pad_right <? 0) eqn:H1; [discriminate|].
  destruct (pad_top + height image + pad_bottom <? 0) eqn:H2; [discriminate|].
  apply Z.ltb_ge in H1, H2. intros _. lia.
Qed.

(** What [expand] returns: its size, and every one of its pixels. *)
Lemma expand_spec image pad_left pad_top pad_right pad_bottom out :
  expand black image (pad_left, pad_top, pad_right, pad_bottom) = Ok out ->
  width out = pad_left + width image + pad_right
  /\ height out = pad_top + height image + pad_bottom
  /\ wf_image out
  /\ forall x y, 0 <= x < width out -> 0 <= y < height out ->
       getpixel out x y =
         Some (default (black image) (getpixel image (x - pad_left) (y - pad_top))).
Proof.
  intros H. destruct (expand_Ok_inv _ _ _ _ _ _ H) as [Hw Hh].
  rewrite expand_Ok in H by assumption. injection H as <-.
  split; [reflexivity|]. split; [reflexivity|]. split.
  - unfold wf_image. simpl. split; [exact Hw|]. split; [exact Hh|]. split.
    + rewrite length_map, length_seqZ. reflexivity.
    + apply Forall_forall. intros line Hline.
      apply list_elem_of_fmap in Hline as (y & -> & _).
      rewrite length_map, length_seqZ. reflexivity.
  - intros x y Hx Hy. simpl in Hx, Hy.
    rewrite getpixel_inside by (simpl; lia). simpl.
    rewrite lookup_tabulate by lia. simpl.
    rewrite lookup_tabulate by lia. reflexivity.
Qed.

(** A zero border gives the same buffer back. *)
Lemma expand_zero image :
  wf_image image ->
  expand black image (0, 0, 0, 0) = Ok (fromarray (asarray image)).
Proof.
  intros Hwf. pose proof Hwf as (Hw & Hh & _).
  rewrite expand_Ok by lia. unfold fromarray, asarray. simpl.
  replace (0 + width image + 0) with (width image) by lia.
  replace (0 + height image + 0) with (height image) by lia.
  f_equal. f_equal. etransitivity; [|apply (pixels_tabulate image (black image) Hwf)].
  apply map_ext. intros y. apply map_ext. intros x.
  rewrite !Z.sub_0_r. reflexivity.
Qed.

(** Cropping out the pasted area undoes a border that is not negative. *)
Lemma crop_expand image pad_left pad_top pad_right pad_bottom out :
  wf_image image ->
  0 <= pad_left -> 0 <= pad_top -> 0 <= pad_right -> 0 <= pad_bottom ->
  expand black image (pad_left, pad_top, pad_right, pad_bottom) = Ok out ->
  crop black out pad_left pad_top (width image) (height image)
  = fromarray (asarray image).
Proof.
  intros Hwf Hl Ht Hr Hb Hout. pose proof Hwf as (Hw & Hh & Hlen & _).
  destruct (expand_spec _ _ _ _ _ _ Hout) as (Hwo & Hho & _ & Hpix).
  unfold crop, fromarray, asarray. simpl. f_equal.
  etransitivity; [|apply (pixels_tabulate image (black image) Hwf)].
  apply map_ext_in. intros j Hj. apply map_ext_in. intros i Hi.
  apply list_elem_of_In, elem_of_seqZ in Hj, Hi.
  rewrite Hpix by lia. simpl.
  replace (pad_left + i - pad_left) with i by lia.
  replace (pad_top + j - pad_top) with j by lia. reflexivity.
Qed.

Lemma padding_sum w h tw th pad_left pad_top pad_right pad_bottom :
  padding w h tw th = (pad_left, pad_top, pad_right, pad_bottom) ->
  pad_left + w + pad_right = tw /\ pad_top + h + pad_bottom = th.
Proof. unfold padding. intros [= <- <- <- <-]. lia. Qed.

Lemma padding_nonneg w h tw th pad_left pad_top pad_right pad_bottom :
  padding w h tw th = (pad_left, pad_top, pad_right, pad_bottom) ->
  w <= tw -> h <= th ->
  0 <= pad_left /\ 0 <= pad_top /\ 0 <= pad_right /\ 0 <= pad_bottom.
Proof.
  unfold padding. intros [= <- <- <- <-] Hw Hh.
  pose proof (Z.div_pos (tw - w) 2).
  pose proof (Z.div_pos (th - h) 2).
  pose proof (Z.mul_div_le (tw - w) 2).
  pose proof (Z.mul_div_le (th - h) 2).
  lia.
Qed.

(** [pad_image] once the three look-ups are known. *)
Lemma pad_image_lookup image (max_heights max_widths : list Z) coord_y th tw :
  image_row image = Ok coord_y ->
  getitem max_heights coord_y = Ok th ->
  getitem max_widths coord_y = Ok tw ->
  pad_image black image max_heights max_widths =
    expand black image (padding (width image) (height image) tw th).
Proof.
  intros Hc Hh Hw. unfold pad_image. rewrite Hc. simpl.
  rewrite Hh. simpl. rewrite Hw. reflexivity.
Qed.

Lemma pad_image_Ok_inv image (max_heights max_widths : list Z) out :
  pad_image black image max_heights max_widths = Ok out ->
  exists coord_y th tw,
    image_row image = Ok coord_y
    /\ getitem max_heights coord_y = Ok th
    /\ getitem max_widths coord_y = Ok tw
    /\ expand black image (padding (width image) (height image) tw th) = Ok out.
Proof.
  unfold pad_image. intros H.
  apply bind_Ok in H as (c & Hc & H).
  apply bind_Ok in H as (th & Hth & H).
  apply bind_Ok in H as (tw & Htw & H).
  exists c, th, tw. auto.
Qed.

End Padding.

Section PadImage.

Context {pixel : Type} (black : @Image pixel -> pixel).
Implicit Types (image out : @Image pixel).

Lemma getpixel_wf image x y :
  wf_image image -> 0 <= x < width image -> 0 <= y < height image ->
  exists p, getpixel image x y = Some p.
Proof.
  intros (Hw & Hh & Hlen & Hlines) Hx Hy.
  rewrite getpixel_inside by assumption.
  destruct (lookup_lt_is_Some_2 (pixels image) (Z.to_nat y)) as [line Hline];
    [lia|].
  rewrite Hline. simpl. apply lookup_lt_is_Some_2.
  rewrite Forall_forall in Hlines. rewrite (Hlines line); [lia|].
  apply list_elem_of_lookup. eauto.
Qed.

(** C2: [pad_image] passes to [ImageOps.expand] the border
    [pad_top = padding_height // 2], [pad_bottom = padding_height - pad_top],
    [pad_left = padding_width // 2], [pad_right = padding_width - pad_left];
    the odd pixel of a remainder is on the bottom and on the right; whatever
    lies outside the pasted tile is black (what black is for the tile); a
    tile of width 10 padded to width 13 gets 1 pixel on the left and 2 on
    the right. *)
Theorem pad_image_split image (max_heights max_widths : list Z) coord_y
    target_height target_width :
  image_row image = Ok coord_y ->
  getitem max_heights coord_y = Ok target_height ->
  getitem max_widths coord_y = Ok target_width ->
  let padding_height := target_height - height image in
  let padding_width := target_width - width image in
  let pad_top := padding_height `div` 2 in
  let pad_bottom := padding_height - pad_top in
  let pad_left := padding_width `div` 2 in
  let pad_right := padding_width - pad_left in
  pad_image black image max_heights max_widths
    = expand black image (pad_left, pad_top, pad_right, pad_bottom)
  /\ pad_bottom = pad_top + padding_height `mod` 2
  /\ pad_right = pad_left + padding_width `mod` 2
  /\ (0 <= target_height -> 0 <= target_width ->
      exists out,
        pad_image black image max_heights max_widths = Ok out
        /\ forall x y, 0 <= x < width out -> 0 <= y < height out ->
             x < pad_left \/ pad_left + width image <= x \/
             y < pad_top \/ pad_top + height image <= y ->
             getpixel out x y = Some (black image))
  /\ (width image = 10 -> target_width = 13 -> pad_left = 1 /\ pad_right = 2).
Proof.
  intros Hc Hth Htw ph pw pad_top pad_bottom pad_left pad_right.
  assert (Hpad : pad_image black image max_heights max_widths
                 = expand black image (pad_left, pad_top, pad_right, pad_bottom)).
  { apply (pad_image_lookup black image _ _ coord_y); assumption. }
  split; [exact Hpad|].
  split. { subst pad_bottom pad_top. pose proof (Z.div_mod ph 2). lia. }
  split. { subst pad_right pad_left. pose proof (Z.div_mod pw 2). lia. }
  split.
  - intros Hh Hw. rewrite Hpad.
    assert (Hsw : pad_left + width image + pad_right = target_width)
      by (subst pad_right pw; lia).
    assert (Hsh : pad_top + height image + pad_bottom = target_height)
      by (subst pad_bottom ph; lia).
    rewrite expand_Ok by lia. eexists. split; [reflexivity|].
    intros x y Hx Hy Hout.
    edestruct (expand_spec black image pad_left pad_top pad_right pad_bottom)
      as (_ & _ & _ & Hpix); [apply expand_Ok; lia|].
    rewrite Hpix by assumption.
    rewrite getpixel_outside by lia. reflexivity.
  - intros Hw10 Hw13. subst pad_right pad_left pw. rewrite Hw10, Hw13.
    split; reflexivity.
Qed.

(** C3: with targets not smaller than the tile, cropping the padded tile at
    [(pad_left, pad_top)] to the tile's own size gives the tile's pixel
    buffer back, and every pixel within the original bounds is the one of
    the tile. *)
Theorem pad_image_crop image (max_heights max_widths : list Z) coord_y
    target_height target_width :
  wf_image image ->
  image_row image = Ok coord_y ->
  getitem max_heights coord_y = Ok target_height ->
  getitem max_widths coord_y = Ok target_width ->
  height image <= target_height ->
  width image <= target_width ->
  let pad_top := (target_height - height image) `div` 2 in
  let pad_left := (target_width - width image) `div` 2 in
  exists out,
    pad_image black image max_heights max_widths = Ok out
    /\ pixels (crop black out pad_left pad_top (width image) (height image))
       = pixels image
    /\ forall x y, 0 <= x < width image -> 0 <= y < height image ->
         getpixel out (pad_left + x) (pad_top + y) = getpixel image x y.
Proof.
  intros Hwf Hc Hth Htw Hh Hw pad_top pad_left.
  pose proof Hwf as (Hw0 & Hh0 & _).
  rewrite (pad_image_lookup black image _ _ coord_y target_height target_width)
    by assumption.
  destruct (padding (width image) (height image) target_width target_height)
    as [[[pl pt] pr] pb] eqn:Hp.
  destruct (padding_nonneg _ _ _ _ _ _ _ _ Hp Hw Hh) as (Hl & Ht & Hr & Hb).
  destruct (padding_sum _ _ _ _ _ _ _ _ Hp) as [Hsw Hsh].
  assert (pl = pad_left /\ pt = pad_top) as [-> ->].
  { unfold padding in Hp. injection Hp as <- <- _ _. auto. }
  rewrite expand_Ok by lia. eexists. split; [reflexivity|].
  set (out := MkImage _ _ _ _ _).
  assert (Hout : expand black image (pad_left, pad_top, pr, pb) = Ok out)
    by (apply expand_Ok; lia).
  split.
  - rewrite (crop_expand black image pad_left pad_top pr pb out) by assumption.
    reflexivity.
  - intros x y Hx Hy.
    destruct (expand_spec _ _ _ _ _ _ _ Hout) as (Hwo & Hho & _ & Hpix).
    rewrite Hpix by lia.
    replace (pad_left + x - pad_left) with x by lia.
    replace (pad_top + y - pad_top) with y by lia.
    destruct (getpixel_wf image x y Hwf Hx Hy) as [p ->]. reflexivity.
Qed.

End PadImage.

(** ** Tile sets whose rows are contiguous from 0 *)

Section Aligned.

Context {pixel : Type}.
Implicit Types (image t : @Image pixel) (images : list (list (@Image pixel))).
Implicit Types (fs : @filesystem pixel).

Lemma filter_ext_elem {A} (P Q : A -> Prop)
    `{!forall x, Decision (P x)} `{!forall x, Decision (Q x)} (l : list A) :
  (forall x, x ∈ l -> P x <-> Q x) -> filter P l = filter Q l.
Proof.
  induction l as [|x l IH]; intros Hext; [reflexivity|].
  rewrite !filter_cons, IH by (intros y Hy; apply Hext; right; exact Hy).
  destruct (decide (P x)) as [HP|HP], (decide (Q x)) as [HQ|HQ];
    try reflexivity; exfalso.
  - apply HQ, (Hext x); [left|exact HP].
  - apply HP, (Hext x); [left|exact HQ].
Qed.

Lemma filter_tag i k (g : list (@Image pixel)) :
  filter (fun it : nat * Image => it.1 = k) (map (pair i) g)
  = if decide (i = k) then map (pair i) g else [].
Proof.
  induction g as [|t g IH]; simpl.
  - destruct (decide (i = k)); reflexivity.
  - rewrite filter_cons, IH. simpl.
    destruct (decide (i = k)); reflexivity.
Qed.

(** The tiles tagged [k] are the tiles of group [k]. *)
Lemma tagged_from_filter images : forall i k,
  filter (fun it : nat * Image => it.1 = k) (tagged_from i images)
  = if decide (i <= k)%nat
    then map (pair k) (default [] (images !! (k - i)%nat))
    else [].
Proof.
  induction images as [|g images IH]; intros i k.
  - destruct (decide (i <= k)%nat); reflexivity.
  - rewrite tagged_from_cons, filter_app, filter_tag, IH.
    destruct (decide (i = k)) as [->|Hne].
    + rewrite decide_False, decide_True by lia.
      rewrite Nat.sub_diag, app_nil_r. reflexivity.
    + destruct (decide (S i <= k)%nat) as [Hle|Hgt].
      * rewrite decide_True by lia.
        replace (k - i)%nat with (S (k - S i)) by lia. reflexivity.
      * rewrite decide_False by lia. reflexivity.
Qed.

Lemma tagged_elem images i t :
  (i, t) ∈ tagged images <-> exists g, images !! i = Some g /\ t ∈ g.
Proof.
  split.
  - intros H.
    assert (Hf : (i, t) ∈ filter (fun it : nat * Image => it.1 = i) (tagged images))
      by (apply list_elem_of_filter; auto).
    unfold tagged in Hf. rewrite tagged_from_filter, decide_True in Hf by lia.
    rewrite Nat.sub_0_r in Hf.
    destruct (images !! i) as [g|]; simpl in Hf; [|inversion Hf].
    exists g. split; [reflexivity|].
    apply list_elem_of_fmap in Hf as (t' & [= ->] & Ht). exact Ht.
  - intros (g & Hg & Ht).
    assert (Hf : (i, t) ∈ filter (fun it : nat * Image => it.1 = i) (tagged images)).
    { unfold tagged. rewrite tagged_from_filter, decide_True by lia.
      rewrite Nat.sub_0_r, Hg. simpl.
      apply list_elem_of_fmap. exists t. auto. }
    apply list_elem_of_filter in Hf as [_ Hf]. exact Hf.
Qed.

Lemma widths_at_group images k :
  widths_at (tagged images) k = map width (default [] (images !! k)).
Proof.
  unfold widths_at, tagged.
  rewrite tagged_from_filter, decide_True by lia.
  rewrite Nat.sub_0_r, map_map. reflexivity.
Qed.

Lemma aligned_slot images i t :
  aligned images -> (i, t) ∈ tagged images -> slot (length images) t = Some i.
Proof.
  intros Hal Hit. apply slot_Some. exists (Z.of_nat i).
  split; [apply Hal; exact Hit|].
  apply py_index_nat. apply tagged_from_bound in Hit. lia.
Qed.

Lemma heights_at_group images k :
  aligned images ->
  heights_at (length images) (tagged images) k
  = map height (default [] (images !! k)).
Proof.
  intros Hal. unfold heights_at.
  rewrite (filter_ext_elem _ (fun it : nat * Image => it.1 = k)).
  - unfold tagged. rewrite tagged_from_filter, decide_True by lia.
    rewrite Nat.sub_0_r, map_map. reflexivity.
  - intros [i t] Hit. simpl.
    rewrite (aligned_slot images i t Hal Hit). split; congruence.
Qed.

(** With rows contiguous from 0, cell [i] of either table is about the
    tiles of group [i]. *)
Lemma aligned_tables images :
  aligned images ->
  tables_of images
  = (map (fun g => max_of (map height g)) images,
     map (fun g => max_of (map width g)) images).
Proof.
  intros Hal. unfold tables_of. f_equal.
  - apply list_eq. intros k.
    change (map ?f ?l) with (f <$> l) at 1 3. rewrite !list_lookup_fmap.
    destruct (images !! k) as [g|] eqn:Hg.
    + rewrite lookup_seq_lt by (apply lookup_lt_Some in Hg; exact Hg).
      simpl. rewrite heights_at_group, Hg by assumption. reflexivity.
    + rewrite lookup_seq_ge by (apply lookup_ge_None in Hg; exact Hg).
      reflexivity.
  - apply list_eq. intros k.
    change (map ?f ?l) with (f <$> l) at 1 3. rewrite !list_lookup_fmap.
    destruct (images !! k) as [g|] eqn:Hg.
    + rewrite lookup_seq_lt by (apply lookup_lt_Some in Hg; exact Hg).
      simpl. rewrite widths_at_group, Hg. reflexivity.
    + rewrite lookup_seq_ge by (apply lookup_ge_None in Hg; exact Hg).
      reflexivity.
Qed.

Lemma reconcile_aligned fs (groups : list (list string)) images :
  open_all fs groups = Ok images ->
  aligned images ->
  reconcile fs groups
  = Ok (map (fun g => max_of (map height g)) images,
        map (fun g => max_of (map width g)) images).
Proof.
  intros Hopen Hal. rewrite <- aligned_tables by assumption.
  apply reconcile_tables; [exact Hopen|].
  intros [i t] Hit. simpl. rewrite (aligned_slot images i t Hal Hit). eauto.
Qed.

End Aligned.

(** ** Stacking *)

Section Stacking.

Context {pixel : Type} (black : @Image pixel -> pixel).
Implicit Types (a b : @ndarray pixel) (arrays : list (@ndarray pixel)).
Implicit Types (image t : @Image pixel).

Lemma wf_fromarray a : wf_array a -> wf_image (fromarray a).
Proof. intros H. exact H. Qed.

Lemma forallb_same {A} (f : A -> Z) (v : Z) (l : list A) :
  Forall (fun x => f x = v) l -> forallb (fun x => f x =? v) l = true.
Proof.
  induction 1 as [|x l Hx _ IH]; simpl; [reflexivity|].
  rewrite IH, andb_true_r. apply Z.eqb_eq, Hx.
Qed.

Lemma forallb_same_inv {A} (f : A -> Z) (v : Z) (l : list A) :
  forallb (fun x => f x =? v) l = true -> Forall (fun x => f x = v) l.
Proof.
  induction l as [|x l IH]; simpl; [constructor|].
  intros [Hx Hl]%andb_true_iff. constructor; [apply Z.eqb_eq, Hx | apply IH, Hl].
Qed.

Lemma total_cols_same arrays c :
  Forall (fun b => cols b = c) arrays ->
  total_cols arrays = Z.of_nat (length arrays) * c.
Proof.
  unfold total_cols. induction 1 as [|b l Hb _ IH]; simpl length; simpl foldr; [lia|].
  rewrite IH, Hb. lia.
Qed.

Lemma total_rows_same arrays r :
  Forall (fun b => rows b = r) arrays ->
  total_rows arrays = Z.of_nat (length arrays) * r.
Proof.
  unfold total_rows. induction 1 as [|b l Hb _ IH]; simpl length; simpl foldr; [lia|].
  rewrite IH, Hb. lia.
Qed.

Lemma total_cols_nonneg arrays :
  Forall wf_array arrays -> 0 <= total_cols arrays.
Proof.
  unfold total_cols. induction 1 as [|b l (Hc & _) _ IH]; simpl; lia.
Qed.

Lemma total_rows_nonneg arrays :
  Forall wf_array arrays -> 0 <= total_rows arrays.
Proof.
  unfold total_rows. induction 1 as [|b l (_ & Hr & _) _ IH]; simpl; lia.
Qed.

(** Arrays of [n] rows side by side: [n] lines as long as all the widths
    together. *)
Lemma side_by_side_wf n arrays :
  Forall wf_array arrays ->
  Forall (fun b => Z.to_nat (rows b) = n) arrays ->
  length (side_by_side n arrays) = n
  /\ Forall (fun line => length line = Z.to_nat (total_cols arrays))
            (side_by_side n arrays).
Proof.
  unfold side_by_side, total_cols.
  induction arrays as [|b arrays IH]; intros Hwf Hrows; simpl.
  - split; [apply length_replicate|].
    apply Forall_forall. intros line Hline.
    apply elem_of_replicate in Hline as [-> _]. reflexivity.
  - apply Forall_cons in Hwf as [(Hc & Hr & Hlen & Hlines) Hwf].
    apply Forall_cons in Hrows as [Hb Hrows].
    destruct (IH Hwf Hrows) as [IHlen IHlines].
    pose proof (total_cols_nonneg arrays Hwf) as Hnn. unfold total_cols in Hnn.
    split.
    + rewrite length_zip_with. lia.
    + apply Forall_lookup. intros i line Hi.
      apply lookup_zip_with_Some in Hi as (l1 & l2 & -> & H1 & H2).
      rewrite length_app.
      rewrite (Forall_lookup_1 _ _ _ _ Hlines H1).
      rewrite (Forall_lookup_1 _ _ _ _ IHlines H2). lia.
Qed.

Lemma hstack_same arrays r :
  arrays <> [] ->
  Forall (fun b => rows b = r) arrays ->
  hstack arrays = Ok (NDArray r (total_cols arrays)
                        (side_by_side (Z.to_nat r) arrays)).
Proof.
  intros Hne Hrows. destruct arrays as [|a others]; [congruence|].
  apply Forall_cons in Hrows as [Ha Hrows]. unfold hstack.
  rewrite forallb_same by (rewrite Ha; exact Hrows).
  rewrite Ha. reflexivity.
Qed.

Lemma hstack_wf arrays r :
  arrays <> [] ->
  Forall wf_array arrays ->
  Forall (fun b => rows b = r) arrays ->
  wf_array (NDArray r (total_cols arrays) (side_by_side (Z.to_nat r) arrays)).
Proof.
  intros Hne Hwf Hrows.
  destruct (side_by_side_wf (Z.to_nat r) arrays Hwf) as [Hlen Hlines].
  { eapply Forall_impl; [exact Hrows|]. intros b ->. reflexivity. }
  unfold wf_array. simpl. split; [apply total_cols_nonneg, Hwf|]. split.
  - destruct arrays as [|a others]; [congruence|].
    apply Forall_cons in Hrows as [<- _].
    apply Forall_cons in Hwf as [(_ & Hr & _) _]. exact Hr.
  - split; assumption.
Qed.

Lemma vstack_same arrays c :
  arrays <> [] ->
  Forall (fun b => cols b = c) arrays ->
  vstack arrays = Ok (NDArray (total_rows arrays) c (concat (map cells arrays))).
Proof.
  intros Hne Hcols. destruct arrays as [|a others]; [congruence|].
  apply Forall_cons in Hcols as [Ha Hcols]. unfold vstack.
  rewrite forallb_same by (rewrite Ha; exact Hcols).
  rewrite Ha. reflexivity.
Qed.

Lemma vstack_Ok_inv arrays full :
  vstack arrays = Ok full ->
  arrays <> [] /\ Forall (fun b => cols b = cols full) arrays.
Proof.
  unfold vstack. destruct arrays as [|a others]; [discriminate|].
  destruct (forallb _ others) eqn:Hall; [|discriminate].
  intros [= <-]. simpl. split; [discriminate|].
  constructor; [reflexivity|]. apply forallb_same_inv, Hall.
Qed.

(** Strips of different widths do not stack. *)
Lemma vstack_mismatch arrays a b :
  a ∈ arrays -> b ∈ arrays -> cols a <> cols b ->
  vstack arrays = Raise (ValueError by_vstack).
Proof.
  intros Ha Hb Hne. destruct (vstack arrays) as [full|e] eqn:Hv.
  - apply vstack_Ok_inv in Hv as [_ Hall]. rewrite Forall_forall in Hall.
    rewrite (Hall a Ha), (Hall b Hb) in Hne. congruence.
  - unfold vstack in Hv. destruct arrays as [|a0 others]; [inversion Ha|].
    destruct (forallb _ others); congruence.
Qed.

Lemma concat_wf arrays c :
  Forall wf_array arrays ->
  Forall (fun b => cols b = c) arrays ->
  length (concat (map cells arrays)) = Z.to_nat (total_rows arrays)
  /\ Forall (fun line => length line = Z.to_nat c) (concat (map cells arrays)).
Proof.
  unfold total_rows.
  induction arrays as [|b arrays IH]; intros Hwf Hcols; simpl.
  - split; [reflexivity|constructor].
  - apply Forall_cons in Hwf as [(Hc & Hr & Hlen & Hlines) Hwf].
    apply Forall_cons in Hcols as [Hb Hcols].
    destruct (IH Hwf Hcols) as [IHlen IHlines].
    pose proof (total_rows_nonneg arrays Hwf) as Hnn. unfold total_rows in Hnn.
    split.
    + rewrite length_app, Hlen, IHlen. lia.
    + apply Forall_app. split; [|exact IHlines]. rewrite <- Hb. exact Hlines.
Qed.

Lemma vstack_wf arrays c :
  Forall wf_array arrays ->
  Forall (fun b => cols b = c) arrays ->
  0 <= c ->
  wf_array (NDArray (total_rows arrays) c (concat (map cells arrays))).
Proof.
  intros Hwf Hcols Hc. destruct (concat_wf arrays c Hwf Hcols) as [Hlen Hlines].
  unfold wf_array. simpl. split; [exact Hc|].
  split; [apply total_rows_nonneg, Hwf|]. split; assumption.
Qed.

End Stacking.

(** ** The second pass of [merge] *)

Section Strips.

Context {pixel : Type} (black : @Image pixel -> pixel).
Implicit Types (image t out : @Image pixel) (images : list (list (@Image pixel))).
Implicit Types (fs : @filesystem pixel).

Lemma mapM_lookup_Ok {A B} (f : A -> result B) (l : list A) :
  forall (Q : nat -> A -> B -> Prop),
  (forall i x, l !! i = Some x -> exists y, f x = Ok y /\ Q i x y) ->
  exists l', mapM f l = Ok l' /\ length l' = length l
             /\ forall i x y, l !! i = Some x -> l' !! i = Some y -> Q i x y.
Proof.
  induction l as [|a l IH]; intros Q HQ.
  - exists []. split; [reflexivity|]. split; [reflexivity|].
    intros i x y Hx. rewrite lookup_nil in Hx. discriminate.
  - destruct (HQ O a eq_refl) as (b & Hb & Qb).
    destruct (IH (fun i => Q (S i))) as (l' & Hl' & Hlen & HQ').
    { intros i x Hx. apply (HQ (S i) x Hx). }
    exists (b :: l'). simpl. rewrite Hb. simpl. rewrite Hl'. simpl.
    split; [reflexivity|]. split; [f_equal; exact Hlen|].
    intros [|i] x y; simpl.
    + intros [= <-] [= <-]. exact Qb.
    + apply HQ'.
Qed.

Lemma mapM_Ok_lookup_r {A B} (f : A -> result B) (l : list A) (l' : list B) i y :
  mapM f l = Ok l' -> l' !! i = Some y -> exists x, l !! i = Some x /\ f x = Ok y.
Proof.
  intros Hm Hy. pose proof (mapM_Ok_length _ _ _ Hm) as Hlen.
  destruct (lookup_lt_is_Some_2 l i) as [x Hx].
  { rewrite <- Hlen. eapply lookup_lt_Some, Hy. }
  destruct (mapM_Ok_lookup _ _ _ _ _ Hm Hx) as (y' & Hy' & Hf).
  exists x. split; [exact Hx|]. congruence.
Qed.

(** A tile padded to targets that are not smaller than it. *)
Lemma pad_image_target t (max_heights max_widths : list Z) i th tw :
  image_row t = Ok (Z.of_nat i) ->
  max_heights !! i = Some th -> max_widths !! i = Some tw ->
  0 <= th -> 0 <= tw ->
  exists out,
    pad_image black t max_heights max_widths = Ok out
    /\ height out = th /\ width out = tw /\ wf_image out.
Proof.
  intros Hrow Hth Htw Hh Hw.
  rewrite (pad_image_lookup black t _ _ (Z.of_nat i) th tw);
    [|exact Hrow|apply getitem_nat, Hth|apply getitem_nat, Htw].
  destruct (padding (width t) (height t) tw th) as [[[pl pt] pr] pb] eqn:Hp.
  destruct (padding_sum _ _ _ _ _ _ _ _ Hp) as [Hsw Hsh].
  rewrite expand_Ok by lia. eexists. split; [reflexivity|].
  edestruct (expand_spec black t pl pt pr pb) as (Hwo & Hho & Hwf & _);
    [apply expand_Ok; lia|].
  split; [simpl; lia|]. split; [simpl; lia|]. exact Hwf.
Qed.

(** A tile that already has the target size comes back as it is. *)
Lemma pad_image_same t (max_heights max_widths : list Z) i :
  wf_image t ->
  image_row t = Ok (Z.of_nat i) ->
  max_heights !! i = Some (height t) -> max_widths !! i = Some (width t) ->
  pad_image black t max_heights max_widths = Ok (fromarray (asarray t)).
Proof.
  intros Hwf Hrow Hth Htw.
  rewrite (pad_image_lookup black t _ _ (Z.of_nat i) (height t) (width t));
    [|exact Hrow|apply getitem_nat, Hth|apply getitem_nat, Htw].
  replace (padding (width t) (height t) (width t) (height t))
    with (0, 0, 0, 0) by (unfold padding; rewrite !Z.sub_diag; reflexivity).
  apply expand_zero, Hwf.
Qed.

(** The strip of one group whose tiles all carry the group's index. *)
Lemma strip_of_group fs (max_heights max_widths : list Z) (group : list string)
    (ts : list (@Image pixel)) i th tw :
  mapM (Image_open fs) group = Ok ts ->
  ts <> [] ->
  Forall (fun t => image_row t = Ok (Z.of_nat i)) ts ->
  max_heights !! i = Some th -> max_widths !! i = Some tw ->
  0 <= th -> 0 <= tw ->
  exists part,
    strip_of black fs max_heights max_widths group = Ok part
    /\ height part = th
    /\ width part = Z.of_nat (length ts) * tw
    /\ wf_image part.
Proof.
  intros Hopen Hne Hrows Hth Htw Hh Hw.
  destruct (mapM_lookup_Ok
              (fun image => pad_image black image max_heights max_widths) ts
              (fun _ _ out => height out = th /\ width out = tw /\ wf_image out))
    as (padded & Hpad & Hlen & Hpadded).
  { intros k t Hk.
    apply (pad_image_target t _ _ i); try assumption.
    apply (Forall_lookup_1 _ _ _ _ Hrows Hk). }
  assert (Hall : Forall (fun out => height out = th /\ width out = tw /\ wf_image out)
                        padded).
  { apply Forall_lookup. intros k out Hk.
    destruct (lookup_lt_is_Some_2 ts k) as [t Ht].
    { rewrite <- Hlen. eapply lookup_lt_Some, Hk. }
    apply (Hpadded k t out Ht Hk). }
  unfold strip_of. rewrite Hopen. simpl. rewrite Hpad. simpl.
  assert (Hrows' : Forall (fun b => rows b = th) (map asarray padded)).
  { apply Forall_fmap. eapply Forall_impl; [exact Hall|].
    intros out (Ho & _). exact Ho. }
  assert (Hcols' : Forall (fun b => cols b = tw) (map asarray padded)).
  { apply Forall_fmap. eapply Forall_impl; [exact Hall|].
    intros out (_ & Ho & _). exact Ho. }
  assert (Hwf' : Forall wf_array (map asarray padded)).
  { apply Forall_fmap. eapply Forall_impl; [exact Hall|].
    intros out (_ & _ & Ho). exact Ho. }
  assert (Hne' : map asarray padded <> []).
  { destruct padded; [|discriminate]. destruct ts; [congruence|discriminate]. }
  rewrite (hstack_same _ th Hne' Hrows'). simpl.
  eexists. split; [reflexivity|]. split; [reflexivity|]. split.
  - simpl. rewrite (total_cols_same _ tw Hcols'), length_map, Hlen. reflexivity.
  - apply wf_fromarray, hstack_wf; assumption.
Qed.

Lemma mapM_raises {A B} (f : A -> result B) (l : list A) (x : A) :
  x ∈ l -> raises (f x) -> raises (mapM f l).
Proof.
  intros Hin Hx. induction l as [|a l IH]; [inversion Hin|]. simpl.
  destruct (f a) as [b|] eqn:Hfa; simpl; [|exact I].
  apply elem_of_cons in Hin as [->|Hin]; [rewrite Hfa in Hx; destruct Hx|].
  specialize (IH Hin). destruct (mapM f l); simpl; [destruct IH|exact I].
Qed.

(** An empty group stops [merge], whatever the rest. *)
Lemma merge_empty_group fs (groups : list (list string)) :
  [] ∈ groups -> raises (merge black fs groups).
Proof.
  intros Hin. unfold merge.
  destruct (reconcile fs groups) as [[mh mw]|e]; simpl; [|exact I].
  assert (Hm : raises (mapM (strip_of black fs mh mw) groups))
    by (apply (mapM_raises _ _ [] Hin); exact I).
  destruct (mapM (strip_of black fs mh mw) groups); simpl; [destruct Hm|exact I].
Qed.

End Strips.

(** ** [merge] on a tile set whose rows are contiguous from 0 *)

Section Merge.

Context {pixel : Type} (black : @Image pixel -> pixel).
Implicit Types (image t out : @Image pixel) (images : list (list (@Image pixel))).
Implicit Types (fs : @filesystem pixel).

Lemma max_of_nonneg (l : list Z) : 0 <= max_of l.
Proof. apply above_le. Qed.

Lemma max_of_same (l : list Z) (v : Z) :
  l <> [] -> 0 <= v -> Forall (fun x => x = v) l -> max_of l = v.
Proof.
  intros Hne Hv Hall. destruct l as [|x l]; [congruence|].
  apply Forall_cons in Hall as [-> Hall].
  assert (Hle : above 0 l <= v).
  { clear Hne. induction Hall as [|y l Hy _ IH]; unfold above in *; simpl.
    - exact Hv.
    - rewrite Hy. apply Z.max_lub; [reflexivity|exact IH]. }
  unfold max_of. change (above 0 (v :: l)) with (Z.max v (above 0 l)). lia.
Qed.

(** Both passes succeed, and strip [i] is as high as the highest tile of
    group [i] and as wide as its tiles padded to the widest. *)
Lemma merge_strips fs (groups : list (list string)) images :
  open_all fs groups = Ok images ->
  aligned images ->
  Forall (fun ts => ts <> []) images ->
  let max_heights := map (fun g => max_of (map height g)) images in
  let max_widths := map (fun g => max_of (map width g)) images in
  reconcile fs groups = Ok (max_heights, max_widths)
  /\ exists parts,
       mapM (strip_of black fs max_heights max_widths) groups = Ok parts
       /\ length parts = length groups
       /\ forall i ts part, images !! i = Some ts -> parts !! i = Some part ->
            height part = max_of (map height ts)
            /\ width part = Z.of_nat (length ts) * max_of (map width ts)
            /\ wf_image part.
Proof.
  intros Hopen Hal Hne mh mw.
  split; [apply reconcile_aligned; assumption|].
  destruct (mapM_lookup_Ok (strip_of black fs mh mw) groups
              (fun i _ part => forall ts, images !! i = Some ts ->
                 height part = max_of (map height ts)
                 /\ width part = Z.of_nat (length ts) * max_of (map width ts)
                 /\ wf_image part))
    as (parts & Hparts & Hlen & HQ).
  { intros i g Hg.
    destruct (mapM_Ok_lookup _ _ _ _ _ Hopen Hg) as (ts & Hts & Hog).
    destruct (strip_of_group black fs mh mw g ts i
                (max_of (map height ts)) (max_of (map width ts)))
      as (part & Hpart & Hh & Hw & Hwf); try assumption.
    - apply (Forall_lookup_1 _ _ _ _ Hne Hts).
    - apply Forall_forall. intros t Ht. apply Hal, tagged_elem. eauto.
    - subst mh. change (map ?f ?l) with (f <$> l).
      rewrite list_lookup_fmap, Hts. reflexivity.
    - subst mw. change (map ?f ?l) with (f <$> l).
      rewrite list_lookup_fmap, Hts. reflexivity.
    - apply max_of_nonneg.
    - apply max_of_nonneg.
    - exists part. split; [exact Hpart|].
      intros ts' Hts'. rewrite Hts in Hts'. injection Hts' as <-. auto. }
  exists parts. split; [exact Hparts|]. split; [exact Hlen|].
  intros i ts part Hts Hpart.
  destruct (lookup_lt_is_Some_2 groups i) as [g Hg].
  { rewrite <- Hlen. eapply lookup_lt_Some, Hpart. }
  apply (HQ i g part Hg Hpart ts Hts).
Qed.

Lemma merge_unfold fs (groups : list (list string)) mh mw parts :
  reconcile fs groups = Ok (mh, mw) ->
  mapM (strip_of black fs mh mw) groups = Ok parts ->
  merge black fs groups = full_image ← vstack (map asarray parts); Ok (fromarray full_image).
Proof. intros Hr Hp. unfold merge. rewrite Hr. simpl. rewrite Hp. reflexivity. Qed.

(** Two rows whose padded strips differ in width: every tile is opened,
    measured and padded, and the vertical concatenation raises. *)
Lemma merge_inconsistent_grid fs (groups : list (list string)) images i j ts1 ts2 :
  open_all fs groups = Ok images ->
  aligned images ->
  Forall (fun ts => ts <> []) images ->
  images !! i = Some ts1 -> images !! j = Some ts2 ->
  Z.of_nat (length ts1) * max_of (map width ts1)
  <> Z.of_nat (length ts2) * max_of (map width ts2) ->
  merge black fs groups = Raise (ValueError by_vstack).
Proof.
  intros Hopen Hal Hne Hi Hj Hdiff.
  destruct (merge_strips fs groups images Hopen Hal Hne)
    as (Hrec & parts & Hparts & Hlen & Hpart).
  rewrite (merge_unfold fs groups _ _ parts Hrec Hparts).
  pose proof (open_all_length _ _ _ Hopen) as Hleni.
  destruct (lookup_lt_is_Some_2 parts i) as [p1 Hp1].
  { rewrite Hlen, <- Hleni. eapply lookup_lt_Some, Hi. }
  destruct (lookup_lt_is_Some_2 parts j) as [p2 Hp2].
  { rewrite Hlen, <- Hleni. eapply lookup_lt_Some, Hj. }
  destruct (Hpart i ts1 p1 Hi Hp1) as (_ & Hw1 & _).
  destruct (Hpart j ts2 p2 Hj Hp2) as (_ & Hw2 & _).
  rewrite (vstack_mismatch (map asarray parts) (asarray p1) (asarray p2));
    [reflexivity| | |simpl; congruence].
  - apply list_elem_of_fmap. exists p1. split; [reflexivity|].
    apply list_elem_of_lookup. eauto.
  - apply list_elem_of_fmap. exists p2. split; [reflexivity|].
    apply list_elem_of_lookup. eauto.
Qed.

(** C1: a grid of [R] rows (contiguous from 0) by [C] columns of tiles
    that are all [W] wide and [H] high merges into an image exactly
    [C * W] wide and [R * H] high, and [pad_image] gives every tile back
    with no pixel added. *)
Theorem merge_uniform_grid fs (groups : list (list string)) (R C : nat) (W H : Z) :
  (0 < R)%nat -> (0 < C)%nat ->
  length groups = R ->
  Forall (fun group => length group = C) groups ->
  (forall i group path, groups !! i = Some group -> path ∈ group ->
     exists t, Image_open fs path = Ok t /\ wf_image t
               /\ width t = W /\ height t = H
               /\ image_row t = Ok (Z.of_nat i)) ->
  exists full max_heights max_widths,
    merge black fs groups = Ok full
    /\ width full = Z.of_nat C * W
    /\ height full = Z.of_nat R * H
    /\ wf_image full
    /\ reconcile fs groups = Ok (max_heights, max_widths)
    /\ forall i group path t,
         groups !! i = Some group -> path ∈ group -> Image_open fs path = Ok t ->
         pad_image black t max_heights max_widths = Ok (fromarray (asarray t)).
Proof.
  intros HR HC Hlen Hcols Htiles.
  set (good := fun (i : nat) (t : @Image pixel) =>
                 wf_image t /\ width t = W /\ height t = H
                 /\ image_row t = Ok (Z.of_nat i)).
  destruct (mapM_lookup_Ok (mapM (Image_open fs)) groups
              (fun i group ts => length ts = C /\ Forall (good i) ts))
    as (images & Hopen & Hleni & Himages).
  { intros i group Hgroup.
    destruct (mapM_lookup_Ok (Image_open fs) group (fun _ _ t => good i t))
      as (ts & Hts & Hlts & Hgood).
    { intros k path Hpath. apply (Htiles i group path Hgroup).
      apply list_elem_of_lookup. eauto. }
    exists ts. split; [exact Hts|]. split.
    - rewrite Hlts. apply (Forall_lookup_1 _ _ _ _ Hcols Hgroup).
    - apply Forall_lookup. intros k t Hk.
      destruct (lookup_lt_is_Some_2 group k) as [path Hpath].
      { rewrite <- Hlts. eapply lookup_lt_Some, Hk. }
      apply (Hgood k path t Hpath Hk). }
  fold (open_all fs groups) in Hopen.
  assert (Hgroup_of : forall i ts, images !! i = Some ts ->
                        length ts = C /\ Forall (good i) ts).
  { intros i ts Hts. destruct (lookup_lt_is_Some_2 groups i) as [g Hg].
    { rewrite <- Hleni. eapply lookup_lt_Some, Hts. }
    apply (Himages i g ts Hg Hts). }
  assert (Hal : aligned images).
  { intros i t (ts & Hts & Ht)%tagged_elem.
    destruct (Hgroup_of i ts Hts) as [_ Hall]. rewrite Forall_forall in Hall.
    apply (Hall t Ht). }
  assert (Hne : Forall (fun ts => ts <> []) images).
  { apply Forall_lookup. intros i ts Hts.
    destruct (Hgroup_of i ts Hts) as [Hl _]. destruct ts; [simpl in Hl; lia|discriminate]. }
  assert (HW : 0 <= W /\ 0 <= H).
  { destruct (lookup_lt_is_Some_2 images O) as [ts Hts]; [lia|].
    destruct (Hgroup_of O ts Hts) as [Hl Hall].
    destruct ts as [|t ts]; [simpl in Hl; lia|].
    apply Forall_cons in Hall as [(Hwf & <- & <- & _) _].
    destruct Hwf as (? & ? & _). lia. }
  assert (Hmaxh : forall i ts, images !! i = Some ts -> max_of (map height ts) = H).
  { intros i ts Hts. destruct (Hgroup_of i ts Hts) as [Hl Hall].
    apply max_of_same; [destruct ts; [simpl in Hl; lia|discriminate]|lia|].
    apply Forall_fmap. eapply Forall_impl; [exact Hall|].
    intros t (_ & _ & Ht & _). exact Ht. }
  assert (Hmaxw : forall i ts, images !! i = Some ts -> max_of (map width ts) = W).
  { intros i ts Hts. destruct (Hgroup_of i ts Hts) as [Hl Hall].
    apply max_of_same; [destruct ts; [simpl in Hl; lia|discriminate]|lia|].
    apply Forall_fmap. eapply Forall_impl; [exact Hall|].
    intros t (_ & Ht & _). exact Ht. }
  destruct (merge_strips fs groups images Hopen Hal Hne)
    as (Hrec & parts & Hparts & Hlenp & Hpart).
  set (mh := map (fun g => max_of (map height g)) images) in *.
  set (mw := map (fun g => max_of (map width g)) images) in *.
  assert (Hall : Forall (fun part => height part = H
                                     /\ width part = Z.of_nat C * W
                                     /\ wf_image part) parts).
  { apply Forall_lookup. intros i part Hi.
    destruct (lookup_lt_is_Some_2 images i) as [ts Hts].
    { rewrite Hleni, <- Hlenp. eapply lookup_lt_Some, Hi. }
    destruct (Hpart i ts part Hts Hi) as (Hh & Hw & Hwf).
    destruct (Hgroup_of i ts Hts) as [Hl _].
    rewrite Hh, Hw, (Hmaxh i ts Hts), (Hmaxw i ts Hts), Hl. auto. }
  assert (Hne' : map asarray parts <> [])
    by (destruct parts; [simpl in Hlenp; lia|discriminate]).
  rewrite (merge_unfold fs groups mh mw parts Hrec Hparts).
  rewrite (vstack_same (map asarray parts) (Z.of_nat C * W) Hne').
  2:{ apply Forall_fmap. eapply Forall_impl; [exact Hall|].
      intros part (_ & Hw & _). exact Hw. }
  simpl. eexists _, mh, mw. split; [reflexivity|].
  split; [reflexivity|]. split.
  { simpl. rewrite (total_rows_same _ H), length_map, Hlenp, Hlen; [reflexivity|].
    apply Forall_fmap. eapply Forall_impl; [exact Hall|].
    intros part (Hh & _). exact Hh. }
  split.
  { apply wf_fromarray, vstack_wf; [| |lia].
    - apply Forall_fmap. eapply Forall_impl; [exact Hall|].
      intros part (_ & _ & Hwf). exact Hwf.
    - apply Forall_fmap. eapply Forall_impl; [exact Hall|].
      intros part (_ & Hw & _). exact Hw. }
  split; [exact Hrec|].
  intros i group path t Hgroup Hpath Ht.
  destruct (mapM_Ok_lookup _ _ _ _ _ Hopen Hgroup) as (ts & Hts & Hog).
  apply list_elem_of_lookup in Hpath as [k Hk].
  destruct (mapM_Ok_lookup _ _ _ _ _ Hog Hk) as (t' & Ht' & Hopen').
  assert (t' = t) as -> by congruence.
  destruct (Hgroup_of i ts Hts) as [_ Hgood]. 
  destruct (Forall_lookup_1 _ _ _ _ Hgood Ht') as (Hwf & Hw & Hh & Hrow).
  apply (pad_image_same black t mh mw i Hwf Hrow).
  - subst mh. change (map ?f ?l) with (f <$> l).
    rewrite list_lookup_fmap, Hts. simpl. rewrite (Hmaxh i ts Hts), Hh. reflexivity.
  - subst mw. change (map ?f ?l) with (f <$> l).
    rewrite list_lookup_fmap, Hts. simpl. rewrite (Hmaxw i ts Hts), Hw. reflexivity.
Qed.

End Merge.

(** ** The two tables, the padded size and the strips *)

Section Tables.

Context {pixel : Type} (black : @Image pixel -> pixel).
Implicit Types (image t out : @Image pixel) (images : list (list (@Image pixel))).
Implicit Types (fs : @filesystem pixel).

(** C4: the first pass of [merge] is one pass over all the tiles of all the
    groups; for each tile it raises the cell of the height table at the
    position of the row coordinate read from the file name, and the cell
    of the width table at the enumeration index of the group; in the end
    cell [k] of the height table is the largest height among the tiles
    whose row coordinate denotes [k], and cell [k] of the width table the
    largest width among the tiles of group [k]. *)
Theorem reconcile_keys fs (groups : list (list string)) images :
  open_all fs groups = Ok images ->
  Forall (fun it => is_Some (slot (length images) it.2)) (tagged images) ->
  let n := length groups in
  reconcile fs groups
    = foldM tally_tagged (tagged images) (replicate n 0, replicate n 0)
  /\ (forall i t k (max_heights max_widths : list Z),
        (i, t) ∈ tagged images -> slot n t = Some k ->
        length max_heights = n -> length max_widths = n ->
        tally i (max_heights, max_widths) t
        = Ok (<[k := Z.max (default 0 (max_heights !! k)) (height t)]> max_heights,
              <[i := Z.max (default 0 (max_widths !! i)) (width t)]> max_widths))
  /\ exists max_heights max_widths,
       reconcile fs groups = Ok (max_heights, max_widths)
       /\ length max_heights = n /\ length max_widths = n
       /\ (forall k, (k < n)%nat ->
             max_heights !! k = Some (max_of (heights_at n (tagged images) k)))
       /\ (forall k ts, images !! k = Some ts ->
             max_widths !! k = Some (max_of (map width ts))).
Proof.
  intros Hopen Hslots n.
  pose proof (open_all_length _ _ _ Hopen) as Hlen.
  split; [apply reconcile_pass, Hopen|]. split.
  - intros i t k mh mw Hit Hk Hlh Hlw.
    apply (tally_slot i t mh mw n k); try assumption.
    apply tagged_from_bound in Hit. unfold n. lia.
  - rewrite (reconcile_tables fs groups images Hopen)
      by (intros it Hit; rewrite Forall_forall in Hslots; apply Hslots, Hit).
    unfold tables_of. rewrite Hlen. fold n.
    eexists _, _. split; [reflexivity|].
    split; [rewrite length_map, length_seq; reflexivity|].
    split; [rewrite length_map, length_seq; reflexivity|]. split.
    + intros k Hk. change (map ?f ?l) with (f <$> l).
      rewrite list_lookup_fmap, lookup_seq_lt by exact Hk. reflexivity.
    + intros k ts Hts. change (map ?f ?l) with (f <$> l).
      pose proof (lookup_lt_Some _ _ _ Hts) as Hk.
      rewrite list_lookup_fmap, lookup_seq_lt by lia. simpl.
      rewrite widths_at_group, Hts. reflexivity.
Qed.

(** Whatever [pad_image] returns has the size read from the two tables at
    the row coordinate of the tile. *)
Lemma pad_image_size image (max_heights max_widths : list Z) out :
  pad_image black image max_heights max_widths = Ok out ->
  exists coord_y,
    image_row image = Ok coord_y
    /\ getitem max_heights coord_y = Ok (height out)
    /\ getitem max_widths coord_y = Ok (width out).
Proof.
  intros (c & th & tw & Hc & Hth & Htw & Hex)%pad_image_Ok_inv.
  destruct (padding (width image) (height image) tw th)
    as [[[pl pt] pr] pb] eqn:Hp.
  destruct (padding_sum _ _ _ _ _ _ _ _ Hp) as [Hsw Hsh].
  destruct (expand_spec _ _ _ _ _ _ _ Hex) as (Hwo & Hho & _).
  exists c. split; [exact Hc|].
  replace (height out) with th by lia. replace (width out) with tw by lia.
  auto.
Qed.

(** C8: nothing checks the widths of the row strips before the vertical
    concatenation.  When both passes have produced their strips and two of
    them differ in width, [merge] raises the [ValueError] of [np.vstack];
    and when [merge] does return an image, every strip is as wide as it. *)
Theorem merge_mismatch fs (groups : list (list string))
    (max_heights max_widths : list Z) (parts : list (@Image pixel)) :
  reconcile fs groups = Ok (max_heights, max_widths) ->
  mapM (strip_of black fs max_heights max_widths) groups = Ok parts ->
  ((exists a b, a ∈ parts /\ b ∈ parts /\ width a <> width b) ->
   merge black fs groups = Raise (ValueError by_vstack))
  /\ (forall full, merge black fs groups = Ok full ->
        Forall (fun part => width part = width full) parts).
Proof.
  intros Hrec Hparts.
  rewrite (merge_unfold black fs groups _ _ parts Hrec Hparts). split.
  - intros (a & b & Ha & Hb & Hne).
    rewrite (vstack_mismatch (map asarray parts) (asarray a) (asarray b));
      [reflexivity| | |exact Hne].
    + apply list_elem_of_fmap. eauto.
    + apply list_elem_of_fmap. eauto.
  - intros full Hfull. apply bind_Ok in Hfull as (arr & Harr & [= <-]).
    apply vstack_Ok_inv in Harr as [_ Hall].
    apply Forall_fmap in Hall. exact Hall.
Qed.

End Tables.

(** ** [group_images] against the grouping of the specification *)

Section Grouping.

Variable image_ext : string.

Lemma group_step_skip st image :
  Str.endswith image image_ext = false -> group_step image_ext st image = Ok st.
Proof. intros H. unfold group_step. rewrite H. reflexivity. Qed.

Lemma group_step_raise st image e :
  Str.endswith image image_ext = true ->
  path_row image image_ext = Raise e ->
  group_step image_ext st image = Raise e.
Proof. intros H Hr. unfold group_step. rewrite H, Hr. reflexivity. Qed.

Lemma group_step_track st sp image y :
  same_groups st sp ->
  Str.endswith image image_ext = true ->
  path_row image image_ext = Ok y ->
  exists st', group_step image_ext st image = Ok st'
              /\ same_groups st' (track sp (image, y)).
Proof.
  intros (Hy & Hi & Hg) Hends Hrow. unfold group_step, track.
  rewrite Hends, Hrow. simpl. rewrite Hy.
  destruct (y =? tracked sp).
  - rewrite Hg, Hi, list_lookup_middle by reflexivity.
    eexists. split; [reflexivity|]. unfold same_groups. simpl.
    split; [reflexivity|]. split; [reflexivity|].
    rewrite insert_app_r_alt, Nat.sub_diag by lia. reflexivity.
  - eexists. split; [reflexivity|]. unfold same_groups. simpl.
    split; [reflexivity|]. split.
    + rewrite length_app, Hi. simpl. lia.
    + rewrite Hg. reflexivity.
Qed.

Lemma group_fold (l : list string) : forall st sp,
  same_groups st sp ->
  (foldM (group_step image_ext) l st ≫= fun st' => Ok (grouped_images st'))
  = (mapM (with_row image_ext)
          (List.filter (fun image => Str.endswith image image_ext) l)
     ≫= fun tiles => Ok (groups_of (fold_left track tiles sp))).
Proof.
  induction l as [|image l IH]; intros st sp Hsame.
  - simpl. destruct Hsame as (_ & _ & ->). reflexivity.
  - cbn [foldM List.filter].
    destruct (Str.endswith image image_ext) eqn:Hends.
    + cbn [mapM]. destruct (path_row image image_ext) as [y|e] eqn:Hrow.
      * assert (Hw : with_row image_ext image = Ok (image, y))
          by (unfold with_row; rewrite Hrow; reflexivity).
        destruct (group_step_track st sp image y Hsame Hends Hrow)
          as (st' & Hst' & Hsame').
        rewrite Hst', Hw. cbn [mbind result_bind].
        rewrite (IH st' _ Hsame').
        destruct (mapM _ _); reflexivity.
      * assert (Hw : with_row image_ext image = Raise e)
          by (unfold with_row; rewrite Hrow; reflexivity).
        rewrite (group_step_raise st image e Hends Hrow), Hw. reflexivity.
    + rewrite (group_step_skip st image Hends). cbn [mbind result_bind].
      apply IH, Hsame.
Qed.

(** [group_images] is the partition of the specification applied to the
    sorted paths that end with the extension. *)
Lemma group_images_partition (images : list string) :
  group_images images image_ext
  = (mapM (with_row image_ext)
          (List.filter (fun image => Str.endswith image image_ext)
                       (Natsort.natsorted images))
     ≫= fun tiles => Ok (partition_rows tiles)).
Proof.
  unfold group_images, partition_rows. apply group_fold.
  unfold same_groups. simpl. auto.
Qed.

End Grouping.

Lemma natsort_insert_elem (x y : string) (l : list string) :
  y ∈ Natsort.insert x l <-> y = x \/ y ∈ l.
Proof.
  induction l as [|a l IH]; simpl.
  - rewrite list_elem_of_singleton. split; [auto|]. intros [H|H]; [exact H|inversion H].
  - destruct (Natsort.leb x a).
    + rewrite elem_of_cons. reflexivity.
    + rewrite !elem_of_cons, IH. tauto.
Qed.

Lemma natsorted_elem (y : string) (l : list string) :
  y ∈ Natsort.natsorted l <-> y ∈ l.
Proof.
  unfold Natsort.natsorted. induction l as [|a l IH]; simpl; [reflexivity|].
  rewrite natsort_insert_elem, elem_of_cons, IH. reflexivity.
Qed.

(** [natsorted] keeps every path, once each, and compares digit runs as
    numbers. *)
Lemma natsort_insert_perm (x : string) (l : list string) :
  Natsort.insert x l ≡ₚ x :: l.
Proof.
  induction l as [|a l IH]; simpl; [reflexivity|].
  destruct (Natsort.leb x a); [reflexivity|].
  rewrite IH. apply Permutation_swap.
Qed.

Lemma natsorted_perm (l : list string) : Natsort.natsorted l ≡ₚ l.
Proof.
  unfold Natsort.natsorted. induction l as [|a l IH]; simpl; [reflexivity|].
  rewrite natsort_insert_perm, IH. reflexivity.
Qed.

Lemma natsorted_numeric :
  Natsort.natsorted ["tile_2_10.png"; "tile_10_0.png"; "tile_2_9.png"; "tile_2_0.png"]
  = ["tile_2_0.png"; "tile_2_9.png"; "tile_2_10.png"; "tile_10_0.png"].
Proof. vm_compute. reflexivity. Qed.

Lemma filter_all {A} (f : A -> bool) (l : list A) :
  (forall x, x ∈ l -> f x = true) -> List.filter f l = l.
Proof.
  induction l as [|a l IH]; intros H; simpl; [reflexivity|].
  rewrite H by left. f_equal. apply IH. intros x Hx. apply H. right. exact Hx.
Qed.

(** C6: [group_images] sorts the paths in natural order and cuts the sorted
    sequence as the specification says: the row of the previous tile is
    tracked from 0, a tile of the tracked row is appended to the current row
    group, any other tile starts a new row group and becomes the tracked row
    (paths that do not end with the extension are passed over).  The six
    tiles [im_0_0.png] ... [im_1_2.png], in any order, give two row groups of
    three tiles, row 0 first. *)
Theorem group_images_rows :
  (forall images image_ext,
     group_images images image_ext
     = (mapM (with_row image_ext)
             (List.filter (fun image => Str.endswith image image_ext)
                          (Natsort.natsorted images))
        ≫= fun tiles => Ok (partition_rows tiles)))
  /\ (forall images image_ext,
        (forall image, image ∈ images -> Str.endswith image image_ext = true) ->
        group_images images image_ext
        = (mapM (with_row image_ext) (Natsort.natsorted images)
           ≫= fun tiles => Ok (partition_rows tiles)))
  /\ group_images six_tiles "png"
     = Ok [["im_0_0.png"; "im_0_1.png"; "im_0_2.png"];
           ["im_1_0.png"; "im_1_1.png"; "im_1_2.png"]]
  /\ group_images ["im_0_0.png"; "im_0_1.png"; "im_0_2.png";
                   "im_1_0.png"; "im_1_1.png"; "im_1_2.png"] "png"
     = Ok [["im_0_0.png"; "im_0_1.png"; "im_0_2.png"];
           ["im_1_0.png"; "im_1_1.png"; "im_1_2.png"]].
Proof.
  split; [exact (fun images ext => group_images_partition ext images)|].
  split; [|split; vm_compute; reflexivity].
  intros images ext Hall. rewrite group_images_partition.
  rewrite filter_all; [reflexivity|].
  intros x Hx. apply Hall, natsorted_elem, Hx.
Qed.

(** C9: for an empty collection of paths [group_images] returns exactly one
    row group, and that group is empty. *)
Theorem group_images_empty (image_ext : string) :
  group_images [] image_ext = Ok [[]].
Proof. reflexivity. Qed.

(** ** Look-ups in the tables *)

Lemma track_head_empty (tiles : list (string * Z)) : forall sp,
  Forall (fun tile => tile.2 <> 0) tiles ->
  (tracked sp = 0 /\ closed sp = [] /\ current sp = [])
  \/ (exists rest, closed sp = [] :: rest) ->
  exists rest, groups_of (fold_left track tiles sp) = [] :: rest.
Proof.
  induction tiles as [|[image y] tiles IH]; intros sp Hall Hsp.
  - simpl. unfold groups_of.
    destruct Hsp as [(_ & -> & ->)|(rest & ->)]; simpl; eauto.
  - apply Forall_cons in Hall as [Hy Hall]. simpl in Hy.
    simpl fold_left. apply IH; [exact Hall|]. right. unfold track.
    destruct (y =? tracked sp) eqn:Heq; simpl.
    + apply Z.eqb_eq in Heq.
      destruct Hsp as [(Ht & _)|Hsp]; [congruence|exact Hsp].
    + destruct Hsp as [(_ & -> & ->)|(rest & ->)]; simpl; eauto.
Qed.

(** When no tile is of row 0, the first row group stays empty. *)
Lemma group_images_first_empty (images : list string) (image_ext : string) groups :
  group_images images image_ext = Ok groups ->
  (forall image, image ∈ images -> Str.endswith image image_ext = true ->
     path_row image image_ext <> Ok 0) ->
  exists rest, groups = [] :: rest.
Proof.
  rewrite group_images_partition. intros H Hrows.
  apply bind_Ok in H as (tiles & Htiles & [= <-]).
  apply track_head_empty; [|left; auto].
  apply Forall_lookup. intros k [image y] Hk. simpl.
  destruct (mapM_Ok_lookup_r _ _ _ _ _ Htiles Hk) as (image' & Himage & Hrow).
  unfold with_row in Hrow. apply bind_Ok in Hrow as (y' & Hy' & [= -> ->]).
  assert (Hin : In image (List.filter (fun image => Str.endswith image image_ext)
                                      (Natsort.natsorted images))).
  { apply list_elem_of_In, list_elem_of_lookup. eauto. }
  apply filter_In in Hin as [Hin Hends].
  apply list_elem_of_In in Hin. apply (proj1 (natsorted_elem _ _)) in Hin.
  intros ->. apply (Hrows image Hin Hends Hy').
Qed.

Section Safety.

Context {pixel : Type} (black : @Image pixel -> pixel).
Implicit Types (image t out : @Image pixel) (images : list (list (@Image pixel))).
Implicit Types (fs : @filesystem pixel).

Lemma mapM_raise_only {A B} (f : A -> result B) (l : list A) (e : exn) :
  (forall x, x ∈ l -> (exists y, f x = Ok y) \/ f x = Raise e) ->
  (exists l', mapM f l = Ok l') \/ mapM f l = Raise e.
Proof.
  induction l as [|a l IH]; intros H; simpl; [eauto|].
  destruct (H a) as [[y ->]| ->]; [left| |right; reflexivity]. simpl.
  destruct IH as [[l' ->]| ->]; simpl; eauto.
  intros x Hx. apply H. right. exact Hx.
Qed.

Lemma vstack_raise_only (arrays : list (@ndarray pixel)) e :
  vstack arrays = Raise e -> e = ValueError by_vstack.
Proof.
  unfold vstack. destruct arrays as [|a others]; [congruence|].
  destruct (forallb _ others); congruence.
Qed.

(** With rows contiguous from 0 nothing in [merge] indexes out of range:
    the tables are computed, every tile is padded, and all that can still
    go wrong is a concatenation. *)
Lemma merge_aligned_safe fs (groups : list (list string)) images :
  open_all fs groups = Ok images ->
  aligned images ->
  (exists max_heights max_widths,
     reconcile fs groups = Ok (max_heights, max_widths)
     /\ forall i ts t, images !! i = Some ts -> t ∈ ts ->
          exists out, pad_image black t max_heights max_widths = Ok out)
  /\ (forall e, merge black fs groups = Raise e ->
        e = ValueError by_hstack \/ e = ValueError by_vstack).
Proof.
  intros Hopen Hal.
  pose proof (reconcile_aligned fs groups images Hopen Hal) as Hrec.
  set (mh := map (fun g => max_of (map height g)) images) in *.
  set (mw := map (fun g => max_of (map width g)) images) in *.
  assert (Hmh : forall i ts, images !! i = Some ts ->
                  mh !! i = Some (max_of (map height ts))).
  { intros i ts Hts. subst mh. change (map ?f ?l) with (f <$> l) at 1.
    rewrite list_lookup_fmap, Hts. reflexivity. }
  assert (Hmw : forall i ts, images !! i = Some ts ->
                  mw !! i = Some (max_of (map width ts))).
  { intros i ts Hts. subst mw. change (map ?f ?l) with (f <$> l) at 1.
    rewrite list_lookup_fmap, Hts. reflexivity. }
  split.
  - exists mh, mw. split; [exact Hrec|]. intros i ts t Hts Ht.
    destruct (pad_image_target black t mh mw i
                (max_of (map height ts)) (max_of (map width ts)))
      as (out & Hout & _); eauto using max_of_nonneg.
    apply Hal, tagged_elem. eauto.
  - intros e He. unfold merge in He. rewrite Hrec in He. simpl in He.
    destruct (mapM_raise_only (strip_of black fs mh mw) groups
                (ValueError by_hstack)) as [[parts Hparts]|Hparts].
    + intros g Hg. apply list_elem_of_lookup in Hg as [i Hg].
      destruct (mapM_Ok_lookup _ _ _ _ _ Hopen Hg) as (ts & Hts & Hog).
      destruct ts as [|t ts].
      * right. apply mapM_Ok_length in Hog. destruct g; [|discriminate].
        reflexivity.
      * left.
        destruct (strip_of_group black fs mh mw g (t :: ts) i
                    (max_of (map height (t :: ts))) (max_of (map width (t :: ts))))
          as (part & Hpart & _); eauto using max_of_nonneg.
        apply Forall_forall. intros t' Ht'. apply Hal, tagged_elem. eauto.
    + rewrite Hparts in He. simpl in He.
      destruct (vstack (map asarray parts)) as [full|e'] eqn:Hv; simpl in He;
        [discriminate|].
      injection He as <-. right. eapply vstack_raise_only, Hv.
    + rewrite Hparts in He. simpl in He. injection He as <-. left. reflexivity.
Qed.

(** With an empty first group, [merge] raises what the first pass raises,
    or else the [ValueError] of [np.hstack] on no array at all. *)
Lemma merge_first_empty fs (rest : list (list string)) :
  merge black fs ([] :: rest)
  = reconcile fs ([] :: rest) ≫= fun _ => Raise (ValueError by_hstack).
Proof.
  unfold merge. destruct (reconcile fs ([] :: rest)) as [[mh mw]|e]; reflexivity.
Qed.

(** C10, as the code has it: [pad_image] reads both targets at the row
    coordinate parsed from the file name; when every tile's row coordinate
    is the index of its group, no look-up of [merge] or [pad_image] is out
    of range and [merge] never raises [IndexError]; and when no tile is of
    row 0, the first row group is empty and [merge] raises before it
    returns anything: in its first pass, or else, every look-up being in
    range, in the horizontal concatenation of the empty group. *)
Theorem row_lookup_safety :
  (forall image (max_heights max_widths : list Z) out,
     pad_image black image max_heights max_widths = Ok out ->
     exists coord_y,
       image_row image = Ok coord_y
       /\ getitem max_heights coord_y = Ok (height out)
       /\ getitem max_widths coord_y = Ok (width out))
  /\ (forall fs (groups : list (list string)) images,
        open_all fs groups = Ok images ->
        aligned images ->
        (exists max_heights max_widths,
           reconcile fs groups = Ok (max_heights, max_widths)
           /\ forall i ts t, images !! i = Some ts -> t ∈ ts ->
                exists out, pad_image black t max_heights max_widths = Ok out)
        /\ merge black fs groups <> Raise IndexError)
  /\ (forall fs (paths : list string) image_ext groups,
        group_images paths image_ext = Ok groups ->
        (forall path, path ∈ paths -> Str.endswith path image_ext = true ->
           path_row path image_ext <> Ok 0) ->
        (exists rest, groups = [] :: rest)
        /\ merge black fs groups
           = reconcile fs groups ≫= (fun _ => Raise (ValueError by_hstack))
        /\ raises (merge black fs groups)).
Proof.
  split; [apply pad_image_size|]. split.
  - intros fs groups images Hopen Hal.
    destruct (merge_aligned_safe fs groups images Hopen Hal) as [Hpad Herr].
    split; [exact Hpad|]. intros He. destruct (Herr _ He); discriminate.
  - intros fs paths ext groups Hg Hrows.
    destruct (group_images_first_empty paths ext groups Hg Hrows) as [rest ->].
    split; [eauto|]. split; [apply merge_first_empty|].
    apply merge_empty_group. left.
Qed.

End Safety.

(** ** Strings: what the name of the output file needs *)

Section Strings.

Implicit Types (s t u v w : string) (a b x y : ascii).

#[local] Arguments String.append !_ _ / : simpl nomatch.

Lemma str_app_nil_r s : s +:+ "" = s.
Proof. induction s as [|a s IH]; simpl; [reflexivity|]. rewrite IH. reflexivity. Qed.

Lemma str_app_assoc s t u : (s +:+ t) +:+ u = s +:+ (t +:+ u).
Proof. induction s as [|a s IH]; simpl; [reflexivity|]. rewrite IH. reflexivity. Qed.

Lemma str_length_app s t :
  String.length (s +:+ t) = (String.length s + String.length t)%nat.
Proof. induction s as [|a s IH]; simpl; [reflexivity|]. rewrite IH. reflexivity. Qed.

Lemma str_all_app f s t : Str.all f (s +:+ t) = Str.all f s && Str.all f t.
Proof.
  induction s as [|a s IH]; simpl; [reflexivity|].
  rewrite IH, andb_assoc. reflexivity.
Qed.

(** Two ways of cutting one string in two. *)
Lemma str_app_eq_app s t u v :
  s +:+ t = u +:+ v ->
  (exists w, u = s +:+ w /\ t = w +:+ v) \/ (exists w, s = u +:+ w /\ v = w +:+ t).
Proof.
  revert u. induction s as [|a s IH]; intros u H; simpl in H.
  - left. exists u. auto.
  - destruct u as [|b u]; simpl in H.
    + right. exists (String a s). auto.
    + injection H as -> H. destruct (IH u H) as [(w & -> & ->)|(w & -> & ->)];
        [left|right]; exists w; auto.
Qed.

(** The cut after the last character that fails [f] is unique. *)
Lemma str_last_failing f s x t u y v :
  s +:+ String x t = u +:+ String y v ->
  Str.all f t = true -> Str.all f v = true -> f x = false -> f y = false ->
  s = u /\ x = y /\ t = v.
Proof.
  intros H Ht Hv Hx Hy. revert u H.
  induction s as [|a s IH]; intros u H; destruct u as [|b u]; simpl in H.
  - injection H as -> ->. auto.
  - injection H as -> ->. rewrite str_all_app in Ht. simpl in Ht.
    rewrite Hy, andb_false_r in Ht. discriminate.
  - injection H as -> <-. rewrite str_all_app in Hv. simpl in Hv.
    rewrite Hx, andb_false_r in Hv. discriminate.
  - injection H as -> H. destruct (IH u H) as (-> & -> & ->). auto.
Qed.

Lemma str_snoc s : s <> "" -> exists t x, s = t +:+ String x "".
Proof.
  induction s as [|a s IH]; intros Hne; [congruence|].
  destruct s as [|b s].
  - exists "", a. reflexivity.
  - destruct IH as (t & x & Ht); [discriminate|].
    exists (String a t), x. simpl. rewrite <- Ht. reflexivity.
Qed.

Lemma split_nonempty sep s : Str.split sep s <> [].
Proof.
  destruct s as [|c s]; simpl; [discriminate|].
  destruct (Ascii.eqb c sep); [discriminate|].
  destruct (Str.split sep s); discriminate.
Qed.

Lemma split_app_sep sep s t :
  Str.split sep (s +:+ String sep t) = Str.split sep s ++ Str.split sep t.
Proof.
  induction s as [|c s IH]; simpl.
  - rewrite Ascii.eqb_refl. reflexivity.
  - destruct (Ascii.eqb c sep); [rewrite IH; reflexivity|].
    rewrite IH. pose proof (split_nonempty sep s) as Hne.
    destruct (Str.split sep s) as [|w ws]; [congruence|]. reflexivity.
Qed.

Lemma split_none sep s :
  Str.all (fun c => negb (Ascii.eqb c sep)) s = true -> Str.split sep s = [s].
Proof.
  induction s as [|c s IH]; simpl; [reflexivity|].
  intros [Hc Hs]%andb_true_iff. apply negb_true_iff in Hc.
  rewrite Hc, (IH Hs). reflexivity.
Qed.

Lemma getitem_last {A} (l : list A) (x : A) : getitem (l ++ [x]) (-1) = Ok x.
Proof.
  apply getitem_slot with (length l).
  - unfold py_index. rewrite length_app. simpl length.
    replace (0 <=? -1) with false by reflexivity. simpl andb.
    replace (- Z.of_nat (length l + 1) <=? -1) with true
      by (symmetry; apply Z.leb_le; lia).
    simpl. f_equal. lia.
  - apply list_lookup_middle. reflexivity.
Qed.

Lemma last_snoc {A} (l : list A) (x d : A) : List.last (l ++ [x]) d = x.
Proof. apply last_last. Qed.

End Strings.

(** ** The pattern of [main] on a well-formed tile name *)

Section TileSuffix.

Implicit Types (s t u v w r c ext : string) (a b x y : ascii).

#[local] Arguments String.append !_ _ / : simpl nomatch.

Lemma match_literal_app ext t :
  Re.match_here (Re.literal ext) (ext +:+ t) = Some (String.length ext).
Proof.
  induction ext as [|a ext IH]; simpl; [reflexivity|].
  rewrite Ascii.eqb_refl, IH. reflexivity.
Qed.

Lemma match_literal_inv ext : forall s n,
  Re.match_here (Re.literal ext) s = Some n ->
  exists t, s = ext +:+ t /\ n = String.length ext.
Proof.
  induction ext as [|a ext IH]; intros s n; simpl.
  - intros [= <-]. exists s. auto.
  - destruct s as [|b s]; [discriminate|].
    destruct (Ascii.eqb a b) eqn:Hab; [|discriminate].
    apply Ascii.eqb_eq in Hab as <-.
    destruct (Re.match_here (Re.literal ext) s) as [m|] eqn:Hm; [|discriminate].
    intros [= <-]. destruct (IH s m Hm) as (t & -> & ->). exists t. auto.
Qed.

Lemma plus_inv k (rest : string -> option nat) : forall s n,
  Re.plus k rest s = Some n ->
  exists d t m, s = d +:+ t /\ d <> "" /\ Str.all (Re.accepts k) d = true
                /\ rest t = Some m /\ n = (String.length d + m)%nat.
Proof.
  induction s as [|a s IH]; intros n; simpl; [discriminate|].
  destruct (Re.accepts k a) eqn:Ha; [|discriminate].
  destruct (Re.plus k rest s) as [n'|] eqn:Hp.
  - intros [= <-]. destruct (IH n' eq_refl) as (d & t & m & -> & _ & Hd & Ht & ->).
    exists (String a d), t, m. simpl. rewrite Ha, Hd. repeat split; auto; discriminate.
  - destruct (rest s) as [m|] eqn:Hr; [|discriminate]. intros [= <-].
    exists (String a ""), s, m. simpl. rewrite Ha. repeat split; auto; discriminate.
Qed.

Lemma plus_greedy k (rest : string -> option nat) d t m :
  d <> "" -> Str.all (Re.accepts k) d = true -> stops k t -> rest t = Some m ->
  Re.plus k rest (d +:+ t) = Some (String.length d + m)%nat.
Proof.
  intros Hne Hd Ht Hr.
  assert (Hstuck : Re.plus k rest t = None).
  { destruct t as [|a t]; simpl; [reflexivity|]. simpl in Ht. rewrite Ht. reflexivity. }
  induction d as [|a d IH]; [congruence|]. simpl in Hd |- *.
  apply andb_true_iff in Hd as [Ha Hd]. rewrite Ha.
  destruct d as [|b d].
  - simpl. rewrite Hstuck, Hr. reflexivity.
  - rewrite IH by (discriminate || assumption). reflexivity.
Qed.

Lemma tile_suffix_length r c ext :
  String.length (tile_suffix r c ext)
  = (3 + String.length r + String.length c + String.length ext)%nat.
Proof.
  unfold tile_suffix. simpl. rewrite str_length_app. simpl.
  rewrite str_length_app. simpl. lia.
Qed.

Lemma tile_suffix_app r c ext t :
  tile_suffix r c ext +:+ t
  = String "_" (r +:+ String "_" (c +:+ String "." (ext +:+ t))).
Proof.
  unfold tile_suffix. simpl. f_equal.
  rewrite str_app_assoc. f_equal. simpl. f_equal.
  rewrite str_app_assoc. f_equal.
Qed.

Lemma tile_suffix_matches r c ext t :
  r <> "" -> Str.all Str.is_digit r = true ->
  c <> "" -> Str.all Str.is_digit c = true ->
  Re.match_here (tile_suffix_pattern ext) (tile_suffix r c ext +:+ t)
  = Some (String.length (tile_suffix r c ext)).
Proof.
  intros Hr Hrd Hc Hcd. rewrite tile_suffix_length, tile_suffix_app.
  unfold tile_suffix_pattern. simpl.
  rewrite (plus_greedy Re.Digit _ r _ (2 + String.length c + String.length ext)%nat);
    [simpl; f_equal; lia|assumption|assumption|reflexivity|].
  simpl.
  rewrite (plus_greedy Re.Digit _ c _ (1 + String.length ext)%nat);
    [simpl; f_equal; lia|assumption|assumption|reflexivity|].
  simpl. rewrite match_literal_app. reflexivity.
Qed.

Lemma match_one_inv k (p : list Re.item) s n :
  Re.match_here (Re.One k :: p) s = Some n ->
  exists a s' m, s = String a s' /\ Re.accepts k a = true
                 /\ Re.match_here p s' = Some m /\ n = S m.
Proof.
  cbn [Re.match_here]. destruct s as [|a s]; [discriminate|].
  destruct (Re.accepts k a) eqn:Ha; [|discriminate].
  destruct (Re.match_here p s) as [m|] eqn:Hm; [|discriminate].
  intros [= <-]. exists a, s, m. auto.
Qed.

Lemma tile_pattern_inv ext s n :
  Re.match_here (tile_suffix_pattern ext) s = Some n ->
  exists d1 d2 a t,
    s = String "_" (d1 +:+ String "_" (d2 +:+ String a (ext +:+ t)))
    /\ d1 <> "" /\ Str.all Str.is_digit d1 = true
    /\ d2 <> "" /\ Str.all Str.is_digit d2 = true
    /\ n = (3 + String.length d1 + String.length d2 + String.length ext)%nat.
Proof.
  unfold tile_suffix_pattern. cbn [app].
  intros (u0 & s0 & m0 & -> & H0 & H & ->)%match_one_inv.
  cbn [Re.accepts] in H0. apply (proj1 (Ascii.eqb_eq _ _)) in H0 as <-.
  change (Re.plus Re.Digit
            (Re.match_here (Re.One (Re.Chr "_") :: Re.Plus Re.Digit
                            :: Re.One Re.Dot :: Re.literal ext)) s0 = Some m0) in H.
  apply plus_inv in H as (d1 & s1 & m1 & -> & Hd1 & Hd1d & H & ->).
  apply match_one_inv in H as (u1 & s2 & m2 & -> & H1 & H & ->).
  cbn [Re.accepts] in H1. apply (proj1 (Ascii.eqb_eq _ _)) in H1 as <-.
  change (Re.plus Re.Digit
            (Re.match_here (Re.One Re.Dot :: Re.literal ext)) s2 = Some m2) in H.
  apply plus_inv in H as (d2 & s3 & m3 & -> & Hd2 & Hd2d & H & ->).
  apply match_one_inv in H as (a & s4 & m4 & -> & _ & H & ->).
  apply match_literal_inv in H as (t & -> & ->).
  exists d1, d2, a, t. repeat split; try assumption. lia.
Qed.

End TileSuffix.

Section Overrun.

Implicit Types (s t u v w r c ext : string) (a b x y : ascii).

#[local] Arguments String.append !_ _ / : simpl nomatch.

Ltac str_eq :=
  repeat (progress (rewrite ?str_app_assoc; simpl String.append)); reflexivity.

Lemma digit_not_alpha a : Str.is_digit a = true -> Str.is_alpha a = false.
Proof.
  unfold Str.is_digit, Str.is_alpha.
  intros [H1 H2]%andb_true_iff. apply Nat.leb_le in H1, H2.
  apply orb_false_iff. split; apply andb_false_iff; left; apply Nat.leb_gt; lia.
Qed.

Lemma str_all_last f s x : Str.all f (s +:+ String x "") = true -> f x = true.
Proof.
  rewrite str_all_app. simpl. rewrite andb_true_r.
  intros [_ H]%andb_true_iff. exact H.
Qed.

Lemma str_last_eq s x u y : s +:+ String x "" = u +:+ String y "" -> x = y.
Proof.
  intros H.
  destruct (str_last_failing (fun _ => false) s x "" u y "" H) as (_ & Hxy & _);
    auto.
Qed.

(** A match of the pattern that starts before a trailing tile suffix ends
    before it. *)
Lemma tile_suffix_no_overrun r c ext v n :
  r <> "" -> Str.all Str.is_digit r = true ->
  c <> "" -> Str.all Str.is_digit c = true ->
  ext <> "" -> Str.all Str.is_alpha ext = true ->
  v <> "" ->
  Re.match_here (tile_suffix_pattern ext) (v +:+ tile_suffix r c ext) = Some n ->
  (n <= String.length v)%nat.
Proof.
  intros Hr Hrd Hc Hcd He Hea Hv Hm.
  apply tile_pattern_inv in Hm as (d1 & d2 & a & t & Heq & Hd1 & Hd1d & Hd2 & Hd2d & ->).
  set (X := String "_" (d1 +:+ String "_" d2)).
  set (Y := String "_" (r +:+ String "_" c)).
  assert (HX : String.length X = (2 + String.length d1 + String.length d2)%nat).
  { unfold X. simpl. rewrite str_length_app. simpl. lia. }
  assert (Hsfx : tile_suffix r c ext = Y +:+ String "." ext).
  { rewrite <- (str_app_nil_r (tile_suffix r c ext)), tile_suffix_app.
    unfold Y. rewrite str_app_nil_r. str_eq. }
  assert (Heq' : v +:+ (Y +:+ String "." ext) = (X +:+ String a ext) +:+ t).
  { rewrite <- Hsfx, Heq. unfold X. str_eq. }
  assert (HYna : Str.all (fun x => negb (Str.is_alpha x)) Y = true).
  { unfold Y. simpl. rewrite str_all_app. simpl.
    apply andb_true_iff. split.
    - clear -Hrd. induction r as [|x r IH]; simpl in *; [reflexivity|].
      apply andb_true_iff in Hrd as [Hx Hrd].
      rewrite (digit_not_alpha _ Hx), IH by assumption. reflexivity.
    - clear -Hcd. induction c as [|x c IH]; simpl in *; [reflexivity|].
      apply andb_true_iff in Hcd as [Hx Hcd].
      rewrite (digit_not_alpha _ Hx), IH by assumption. reflexivity. }
  destruct (str_snoc ext He) as (ext' & e & Hext).
  assert (Hee : Str.is_alpha e = true) by (rewrite Hext in Hea; eapply str_all_last, Hea).
  (* no non-empty end of the match is a start of [Y] *)
  assert (Hprefix : forall w z, w <> "" -> X +:+ String a ext = v +:+ w ->
                                Y = w +:+ z -> False).
  { intros w z Hw HM HY. destruct (str_snoc w Hw) as (w' & x & ->).
    rewrite HY, !str_all_app in HYna. simpl in HYna.
    apply andb_true_iff in HYna as [[_ Hx]%andb_true_iff _].
    rewrite andb_true_r in Hx. apply negb_true_iff in Hx.
    assert (x = e); [|congruence].
    apply (str_last_eq (v +:+ w') x (X +:+ String a ext') e).
    rewrite str_app_assoc, <- HM, Hext. str_eq. }
  destruct (str_app_eq_app _ _ _ _ Heq') as [(w & HM & Hw)|(w & -> & _)].
  2:{ rewrite !str_length_app, HX. simpl. lia. }
  destruct w as [|w0 w].
  { rewrite str_app_nil_r in HM. rewrite <- HM, str_length_app, HX. simpl. lia. }
  exfalso. set (W := String w0 w) in *.
  assert (HW : W <> "") by discriminate.
  destruct (str_app_eq_app _ _ _ _ (eq_sym Hw)) as [(z & HY & _)|(z & HWz & Hz)].
  { apply (Hprefix W z HW HM HY). }
  destruct z as [|z0 z].
  { apply (Hprefix W "" HW HM). rewrite str_app_nil_r in HWz |- *.
    symmetry. exact HWz. }
  simpl in Hz. injection Hz as <- Hz.
  assert (Hza : Str.all Str.is_alpha z = true).
  { rewrite Hz, str_all_app in Hea. apply andb_true_iff in Hea as [Hea _]. exact Hea. }
  assert (HM' : (v +:+ Y) +:+ String "." z = X +:+ String a ext).
  { rewrite HM, HWz. str_eq. }
  assert (HvY : v +:+ Y = X).
  { destruct (Str.is_alpha a) eqn:Ha.
    - exfalso. destruct (str_snoc d2 Hd2) as (d2' & dl & Hd2').
      assert (Hdl : Str.is_digit dl = true)
        by (rewrite Hd2' in Hd2d; eapply str_all_last, Hd2d).
      assert (HX' : X +:+ String a ext
                    = String "_" (d1 +:+ String "_" d2') +:+ String dl (String a ext)).
      { unfold X. rewrite Hd2'. str_eq. }
      rewrite HX' in HM'.
      destruct (str_last_failing Str.is_alpha _ _ _ _ _ _ HM') as (_ & Hdot & _);
        [exact Hza | simpl; rewrite Ha; exact Hea | reflexivity
        | apply digit_not_alpha, Hdl |].
      rewrite <- Hdot in Hdl. discriminate.
    - destruct (str_last_failing Str.is_alpha _ _ _ _ _ _ HM') as (H & _ & _);
        [exact Hza | exact Hea | reflexivity | exact Ha | exact H]. }
  assert (H1 : (v +:+ String "_" r) +:+ String "_" c
               = String "_" d1 +:+ String "_" d2).
  { transitivity (v +:+ Y); [unfold Y; str_eq|]. rewrite HvY. unfold X. str_eq. }
  destruct (str_last_failing Str.is_digit _ _ _ _ _ _ H1) as (H2 & _ & _);
    [exact Hcd | exact Hd2d | reflexivity | reflexivity |].
  change (String "_" d1) with ("" +:+ String "_" d1) in H2.
  destruct (str_last_failing Str.is_digit _ _ _ _ _ _ H2) as (H3 & _ & _);
    [exact Hrd | exact Hd1d | reflexivity | reflexivity |].
  congruence.
Qed.

End Overrun.

Section MergedName.

Implicit Types (s t u v w r c ext dir base : string) (a b x y : ascii).

#[local] Arguments String.append !_ _ / : simpl nomatch.

Lemma str_all_impl (f g : ascii -> bool) s :
  (forall a, f a = true -> g a = true) -> Str.all f s = true -> Str.all g s = true.
Proof.
  intros Hfg. induction s as [|a s IH]; simpl; [reflexivity|].
  intros [Ha Hs]%andb_true_iff. rewrite (Hfg a Ha), (IH Hs). reflexivity.
Qed.

Lemma findall_skip_all (p : list Re.item) s : forall k,
  (String.length s <= k)%nat -> Re.findall_from p k s = [].
Proof.
  induction s as [|a s IH]; intros k Hk; simpl; [reflexivity|].
  destruct k as [|k]; simpl in Hk; [lia|]. apply IH. lia.
Qed.

Lemma take_app s t : Re.take (String.length s) (s +:+ t) = s.
Proof. induction s as [|a s IH]; simpl; [destruct t; reflexivity|]. rewrite IH. reflexivity. Qed.

(** On a name that ends with a tile suffix, the last match is that suffix. *)
Lemma findall_trailing r c ext :
  r <> "" -> Str.all Str.is_digit r = true ->
  c <> "" -> Str.all Str.is_digit c = true ->
  ext <> "" -> Str.all Str.is_alpha ext = true ->
  forall v k, (k <= String.length v)%nat ->
  exists l, Re.findall_from (tile_suffix_pattern ext) k (v +:+ tile_suffix r c ext)
            = l ++ [tile_suffix r c ext].
Proof.
  intros Hr Hrd Hc Hcd He Hea.
  induction v as [|a v IH]; intros k Hk.
  - simpl in Hk. assert (k = O) as -> by lia. exists [].
    change ("" +:+ tile_suffix r c ext) with (tile_suffix r c ext). cbn [app].
    pose proof (tile_suffix_matches r c ext "" Hr Hrd Hc Hcd) as Hm.
    rewrite str_app_nil_r in Hm.
    pose proof (tile_suffix_length r c ext) as Hlen.
    destruct (tile_suffix r c ext) as [|u0 sfx] eqn:Hs; [simpl in Hlen; lia|].
    cbn [Re.findall_from]. rewrite Hm.
    rewrite <- (str_app_nil_r (String u0 sfx)) at 2.
    rewrite take_app, findall_skip_all by (simpl; lia). reflexivity.
  - simpl String.append. cbn [Re.findall_from]. destruct k as [|k].
    + destruct (Re.match_here (tile_suffix_pattern ext)
                  (String a (v +:+ tile_suffix r c ext))) as [n|] eqn:Hm.
      * pose proof (tile_suffix_no_overrun r c ext (String a v) n
                      Hr Hrd Hc Hcd He Hea ltac:(discriminate) Hm) as Hn.
        simpl in Hn. destruct (IH (n - 1)%nat) as [l Hl]; [lia|].
        rewrite Hl. eexists (_ :: l). reflexivity.
      * destruct (IH O) as [l Hl]; [lia|]. rewrite Hl. eauto.
    + simpl in Hk. destruct (IH k) as [l Hl]; [lia|]. rewrite Hl. eauto.
Qed.

Lemma prefix_app s t : String.prefix s (s +:+ t) = true.
Proof.
  induction s as [|a s IH]; simpl; [destruct t; reflexivity|].
  destruct (ascii_dec a a); [exact IH|congruence].
Qed.

Lemma replace_from_skip_all old new s : forall k,
  (String.length s <= k)%nat -> Str.replace_from old new k s = "".
Proof.
  induction s as [|a s IH]; intros k Hk; simpl; [reflexivity|].
  destruct k as [|k]; simpl in Hk; [lia|]. apply IH. lia.
Qed.

(** Removing a text that occurs only at the end leaves what was before. *)
Lemma replace_trailing old base :
  old <> "" ->
  Str.occurs_before (String.length base) old (base +:+ old) = false ->
  Str.replace (base +:+ old) old "" = base.
Proof.
  intros Hold. unfold Str.replace. destruct old as [|o old]; [congruence|].
  induction base as [|b base IH]; intros Hocc.
  - simpl String.append. cbn [Str.replace_from].
    rewrite <- (str_app_nil_r (String o old)) at 2. rewrite prefix_app.
    simpl String.length. rewrite replace_from_skip_all by lia. reflexivity.
  - simpl String.append in *. simpl String.length in Hocc.
    cbn [Str.occurs_before] in Hocc. apply orb_false_iff in Hocc as [Hp Hocc].
    cbn [Str.replace_from]. rewrite Hp, (IH Hocc). reflexivity.
Qed.

Lemma tile_suffix_no_slash r c ext :
  Str.all Str.is_digit r = true -> Str.all Str.is_digit c = true ->
  Str.all Str.is_alpha ext = true ->
  Str.all (fun a => negb (Ascii.eqb a "/")) (tile_suffix r c ext) = true.
Proof.
  intros Hr Hc He. rewrite <- (str_app_nil_r (tile_suffix r c ext)), tile_suffix_app.
  rewrite str_app_nil_r. simpl. rewrite str_all_app. simpl. rewrite str_all_app. simpl.
  rewrite (str_all_impl Str.is_digit _ r), (str_all_impl Str.is_digit _ c),
    (str_all_impl Str.is_alpha _ ext); try assumption; try reflexivity.
  - intros a Ha. destruct (Ascii.eqb_spec a "/") as [->|]; [discriminate|reflexivity].
  - intros a Ha. destruct (Ascii.eqb_spec a "/") as [->|]; [discriminate|reflexivity].
  - intros a Ha. destruct (Ascii.eqb_spec a "/") as [->|]; [discriminate|reflexivity].
Qed.

Lemma basename_of_name dir t :
  Str.all (fun a => negb (Ascii.eqb a "/")) t = true ->
  dir = "" \/ (exists d, dir = d +:+ "/") ->
  Str.basename (dir +:+ t) = t.
Proof.
  intros Ht [->|(d & ->)]; unfold Str.basename.
  - simpl String.append. rewrite (split_none "/" t Ht). reflexivity.
  - rewrite str_app_assoc. simpl String.append.
    rewrite split_app_sep, (split_none "/" t Ht). apply last_snoc.
Qed.

(** The name [main] derives from a first tile [dir/base_r_c.ext]: the base
    name with every copy of [_r_c.ext] removed, then [_merged.ext]; this is
    [base_merged.ext] when [_r_c.ext] occurs at the end only. *)
Lemma merged_name_suffix dir base r c ext (others : list string) :
  r <> "" -> Str.all Str.is_digit r = true ->
  c <> "" -> Str.all Str.is_digit c = true ->
  ext <> "" -> Str.all Str.is_alpha ext = true ->
  Str.all (fun a => negb (Ascii.eqb a "/")) base = true ->
  dir = "" \/ (exists d, dir = d +:+ "/") ->
  let suffix := tile_suffix r c ext in
  merged_name ((dir +:+ base +:+ suffix) :: others)
    = Ok (Str.replace (base +:+ suffix) suffix "" +:+ "_merged." +:+ ext)
  /\ (Str.occurs_before (String.length base) suffix (base +:+ suffix) = false ->
      merged_name ((dir +:+ base +:+ suffix) :: others)
      = Ok (base +:+ "_merged." +:+ ext)).
Proof.
  intros Hr Hrd Hc Hcd He Hea Hbase Hdir suffix.
  assert (Hname : merged_name ((dir +:+ base +:+ suffix) :: others)
                  = Ok (Str.replace (base +:+ suffix) suffix "" +:+ "_merged." +:+ ext)).
  { unfold merged_name.
    change (getitem ((dir +:+ base +:+ suffix) :: others) 0)
      with (Ok (dir +:+ base +:+ suffix) : result string).
    cbn [mbind result_bind].
    assert (Hext : getitem (Str.split "." (dir +:+ base +:+ suffix)) (-1) = Ok ext).
    { replace (dir +:+ base +:+ suffix)
        with ((dir +:+ base +:+ String "_" (r +:+ String "_" c)) +:+ String "." ext).
      - rewrite split_app_sep, (split_none "." ext); [apply getitem_last|].
        apply (str_all_impl Str.is_alpha); [|exact Hea].
        intros a Ha. destruct (Ascii.eqb_spec a ".") as [->|]; [discriminate|reflexivity].
      - unfold suffix. rewrite <- (str_app_nil_r (tile_suffix r c ext)), tile_suffix_app.
        rewrite str_app_nil_r, !str_app_assoc. simpl String.append.
        rewrite !str_app_assoc. reflexivity. }
    rewrite Hext. cbn [mbind result_bind].
    destruct (findall_trailing r c ext Hr Hrd Hc Hcd He Hea (dir +:+ base) O)
      as [l Hl]; [lia|].
    unfold Re.findall. rewrite <- str_app_assoc. fold suffix in Hl. rewrite Hl.
    rewrite getitem_last. cbn [mbind result_bind].
    rewrite str_app_assoc, basename_of_name; [reflexivity| |exact Hdir].
    rewrite str_all_app, Hbase. simpl. apply tile_suffix_no_slash; assumption. }
  split; [exact Hname|].
  intros Hocc. rewrite Hname, replace_trailing; [reflexivity| |exact Hocc].
  unfold suffix, tile_suffix. discriminate.
Qed.

End MergedName.

Lemma merged_name_scanA :
  merged_name ["/data/scans/scanA_0_0.jpg"; "/data/scans/scanA_0_1.jpg"]
  = Ok "scanA_merged.jpg".
Proof.
  apply (merged_name_suffix "/data/scans/" "scanA" "0" "0" "jpg");
    try reflexivity; try discriminate.
  right. exists "/data/scans". reflexivity.
Qed.

(** ** The name of the output file *)

(** C7, on its example and where it breaks: for a first tile
    [scanA_0_0.jpg] the output is named [scanA_merged.jpg]; but [main]
    removes the matched suffix with [str.replace], which removes every copy
    of that text, so the first tile [a_0_0.jpg_0_0.jpg], whose trailing
    suffix is [_0_0.jpg], gives [a_merged.jpg] and not
    [a_0_0.jpg_merged.jpg]. *)
Theorem merged_name_examples :
  merged_name ["scanA_0_0.jpg"; "scanA_0_1.jpg"; "scanA_1_0.jpg"; "scanA_1_1.jpg"]
  = Ok "scanA_merged.jpg"
  /\ merged_name ["/data/scans/scanA_0_0.jpg"; "/data/scans/scanA_0_1.jpg"]
     = Ok "scanA_merged.jpg"
  /\ "a_0_0.jpg_0_0.jpg" = "a_0_0.jpg" +:+ "_0_0.jpg"
  /\ merged_name ["a_0_0.jpg_0_0.jpg"; "a_0_0.jpg_0_1.jpg"] = Ok "a_merged.jpg"
  /\ merged_name ["a_0_0.jpg_0_0.jpg"; "a_0_0.jpg_0_1.jpg"]
     <> Ok ("a_0_0.jpg" +:+ "_merged." +:+ "jpg").
Proof.
  split; [vm_compute; reflexivity|].
  split; [vm_compute; reflexivity|].
  split; [reflexivity|].
  split; [vm_compute; reflexivity|].
  vm_compute. discriminate.
Qed.

(** ** The theorems at work on the sample tile sets *)

Ltac each_elem := apply Forall_forall; repeat constructor.

Ltac well_formed :=
  unfold wf_image; simpl; repeat split; try lia; repeat constructor.

Lemma aligned_Forall {pixel : Type} (images : list (list (@Image pixel))) :
  Forall (fun it => image_row it.2 = Ok (Z.of_nat it.1)) (tagged images) ->
  aligned images.
Proof.
  intros H i t Hit. rewrite Forall_forall in H. apply (H (i, t) Hit).
Qed.

(** The even tile set: two rows of two tiles of 2 by 2. *)
Lemma merge_uniform_grid_witness :
  exists full max_heights max_widths,
    merge dark even_fs even_groups = Ok full
    /\ width full = Z.of_nat 2 * 2
    /\ height full = Z.of_nat 2 * 2
    /\ wf_image full
    /\ reconcile even_fs even_groups = Ok (max_heights, max_widths)
    /\ forall i group path t,
         even_groups !! i = Some group -> path ∈ group ->
         Image_open even_fs path = Ok t ->
         pad_image dark t max_heights max_widths = Ok (fromarray (asarray t)).
Proof.
  apply (merge_uniform_grid dark even_fs even_groups 2 2 2 2);
    [lia | lia | reflexivity | repeat constructor |].
  intros i group path Hgroup.
  destruct i as [|[|i]]; simpl in Hgroup; [| |discriminate];
    injection Hgroup as <-; revert path; each_elem;
    (eexists; split; [vm_compute; reflexivity|]);
    (split; [well_formed|]); repeat split.
Defined.

(** The whole pipeline on the even tile set: paths in any order, grouped,
    then merged into a 4 by 4 image. *)
Lemma even_pipeline :
  group_images ["t_1_1.png"; "t_0_1.png"; "t_0_0.png"; "t_1_0.png"] "png"
  = Ok even_groups
  /\ merge dark even_fs even_groups
     = Ok (MkImage "" "" 4 4 [[1; 1; 2; 2]; [1; 1; 2; 2]; [3; 3; 4; 4]; [3; 3; 4; 4]]).
Proof. split; vm_compute; reflexivity. Qed.

(** The wide tile, 10 by 2, padded to 13 by 4. *)
Lemma pad_image_split_witness :
  pad_image dark wide_tile [4] [13] = expand dark wide_tile (1, 1, 2, 1).
Proof.
  exact (proj1 (pad_image_split dark wide_tile [4] [13] 0 4 13
                  eq_refl eq_refl eq_refl)).
Defined.

(** The wide tile padded to 13 by 4 and cropped back. *)
Lemma pad_image_crop_witness :
  exists out,
    pad_image dark wide_tile [4] [13] = Ok out
    /\ pixels (crop dark out 1 1 10 2) = pixels wide_tile
    /\ forall x y, 0 <= x < 10 -> 0 <= y < 2 ->
         getpixel out (1 + x) (1 + y) = getpixel wide_tile x y.
Proof.
  apply (pad_image_crop dark wide_tile [4] [13] 0 4 13);
    [well_formed | reflexivity | reflexivity | reflexivity | simpl; lia | simpl; lia].
Defined.

(** In the stray tile set the third group holds a tile of row 0: its height
    is counted in cell 0 of the height table, its width in cell 2 of the
    width table. *)
Lemma reconcile_keys_witness :
  reconcile stray_fs stray_groups = Ok ([7; 3; 0], [20; 20; 10])
  /\ exists max_heights max_widths,
       reconcile stray_fs stray_groups = Ok (max_heights, max_widths)
       /\ length max_heights = 3%nat /\ length max_widths = 3%nat
       /\ (forall k, (k < 3)%nat ->
             max_heights !! k = Some (max_of (heights_at 3 (tagged stray_images) k)))
       /\ (forall k ts, stray_images !! k = Some ts ->
             max_widths !! k = Some (max_of (map width ts))).
Proof.
  split; [vm_compute; reflexivity|].
  apply (reconcile_keys stray_fs stray_groups stray_images).
  - vm_compute. reflexivity.
  - repeat constructor; vm_compute; eauto.
Defined.

(** The six tiles all end with [png]. *)
Lemma group_images_rows_witness :
  group_images six_tiles "png"
  = (mapM (with_row "png") (Natsort.natsorted six_tiles)
     ≫= fun tiles => Ok (partition_rows tiles)).
Proof.
  apply (proj1 (proj2 group_images_rows) six_tiles "png").
  each_elem; reflexivity.
Defined.

(** A row of two tiles above a row of one: both passes go through, the
    vertical concatenation raises. *)
Lemma merge_mismatch_witness :
  merge dark ragged_fs ragged_groups = Raise (ValueError by_vstack).
Proof.
  apply (merge_mismatch dark ragged_fs ragged_groups [2; 2] [2; 2] ragged_parts);
    [vm_compute; reflexivity | vm_compute; reflexivity |].
  eexists _, _. split; [left|]. split; [right; left|]. vm_compute. discriminate.
Defined.

(** The uneven set has its rows contiguous from 0; the late set has no
    tile of row 0. *)
Lemma row_lookup_safety_witness :
  ((exists max_heights max_widths,
      reconcile uneven_fs uneven_groups = Ok (max_heights, max_widths)
      /\ forall i ts t, uneven_images !! i = Some ts -> t ∈ ts ->
           exists out, pad_image dark t max_heights max_widths = Ok out)
   /\ merge dark uneven_fs uneven_groups <> Raise IndexError)
  /\ ((exists rest, [[]; ["im_1_0.png"]] = [] :: rest)
      /\ merge dark late_fs [[]; ["im_1_0.png"]]
         = reconcile late_fs [[]; ["im_1_0.png"]]
           ≫= (fun _ => Raise (ValueError by_hstack))
      /\ raises (merge dark late_fs [[]; ["im_1_0.png"]])).
Proof.
  split.
  - apply (proj1 (proj2 (row_lookup_safety dark)) uneven_fs uneven_groups uneven_images).
    + vm_compute. reflexivity.
    + apply aligned_Forall. repeat constructor.
  - apply (proj2 (proj2 (row_lookup_safety dark)) late_fs ["im_1_0.png"] "png").
    + vm_compute. reflexivity.
    + intros path [->|Hin]%elem_of_cons; [|inversion Hin].
      intros _. vm_compute. discriminate.
Defined.

(** A single tile of row 1: every look-up is in range and both tables are
    computed; what stops [merge] is the horizontal concatenation of the
    empty first group, not a look-up. *)
Lemma late_row_no_lookup_failure :
  group_images ["im_1_0.png"] "png" = Ok [[]; ["im_1_0.png"]]
  /\ reconcile late_fs [[]; ["im_1_0.png"]] = Ok ([0; 2], [0; 3])
  /\ merge dark late_fs [[]; ["im_1_0.png"]] = Raise (ValueError by_hstack)
  /\ merge dark late_fs [[]; ["im_1_0.png"]] <> Raise IndexError.
Proof.
  split; [vm_compute; reflexivity|].
  split; [vm_compute; reflexivity|].
  split; [vm_compute; reflexivity|].
  vm_compute. discriminate.
Qed.

(** ** More on [group_images]: what the groups hold *)

Section GroupContents.

Variable row : string -> result Z.

Lemma rows_change_grow (cl : list (list string)) (cur : list string) p y :
  rows_change row (cl ++ [cur]) ->
  (forall q, q ∈ cur -> row q = Ok y) -> row p = Ok y ->
  (cl <> [] -> cur <> []) ->
  rows_change row (cl ++ [cur ++ [p]]).
Proof.
  intros Hch Hcur Hp Hne. induction cl as [|g cl IH]; [exact I|].
  destruct cl as [|g2 cl].
  - simpl in *. destruct Hch as [Hch _]. split; [|exact I].
    intros a b Ha [Hb| ->%list_elem_of_singleton]%elem_of_app; [apply Hch; assumption|].
    assert (Hc : cur <> []) by (apply Hne; discriminate).
    destruct cur as [|q0 cur]; [congruence|].
    intros Heq. apply (Hch a q0 Ha); [left|].
    rewrite Heq, Hp. symmetry. apply Hcur. left.
  - simpl in Hch |- *. destruct Hch as [Hg Hch]. split; [exact Hg|].
    apply IH; [exact Hch|]. intros _. apply Hne. discriminate.
Qed.

Lemma rows_change_new (cl : list (list string)) (cur : list string) p y y' :
  rows_change row (cl ++ [cur]) ->
  (forall q, q ∈ cur -> row q = Ok y) -> row p = Ok y' -> y' <> y ->
  rows_change row ((cl ++ [cur]) ++ [[p]]).
Proof.
  intros Hch Hcur Hp Hy. induction cl as [|g cl IH].
  - simpl. split; [|exact I].
    intros a b Ha ->%list_elem_of_singleton. rewrite (Hcur a Ha), Hp. congruence.
  - destruct cl as [|g2 cl].
    + simpl in *. destruct Hch as [Hg _]. split; [exact Hg|]. apply IH. exact I.
    + simpl in Hch |- *. destruct Hch as [Hg Hch]. split; [exact Hg|].
      apply IH. exact Hch.
Qed.

Lemma track_grouped_well st p y :
  grouped_well row st -> row p = Ok y -> grouped_well row (track st (p, y)).
Proof.
  intros [Hcur Hcl Hfirst Hne Hch] Hp. unfold track.
  destruct (y =? tracked st) eqn:Hy.
  - apply Z.eqb_eq in Hy as ->. constructor; simpl; try assumption.
    + intros q [Hq| ->%list_elem_of_singleton]%elem_of_app; auto.
    + destruct (closed st) as [|g later]; [exact I|].
      destruct Hne as [Hlater Hc]. split; [exact Hlater|].
      destruct (current st); discriminate.
    + unfold groups_of in *. simpl.
      apply (rows_change_grow _ _ p (tracked st)); try assumption.
      intros Hcl'. destruct (closed st) as [|g later]; [congruence|]. apply Hne.
  - apply Z.eqb_neq in Hy. constructor; simpl.
    + intros q ->%list_elem_of_singleton. exact Hp.
    + apply Forall_app. split; [exact Hcl|]. constructor; [|constructor].
      exists (tracked st). exact Hcur.
    + destruct (closed st) as [|g later] eqn:Hc; simpl.
      * intros q Hq. rewrite (Hcur q Hq), Hfirst. reflexivity.
      * exact Hfirst.
    + destruct (closed st) as [|g later] eqn:Hc; simpl.
      * split; [constructor|discriminate].
      * destruct Hne as [Hlater Hcne]. split; [|discriminate].
        apply Forall_app. split; [exact Hlater|]. constructor; [exact Hcne|constructor].
    + unfold groups_of in *. simpl.
      apply (rows_change_new _ _ p (tracked st) y); assumption.
Qed.

Lemma fold_grouped_well (tiles : list (string * Z)) : forall st,
  grouped_well row st ->
  Forall (fun tile => row tile.1 = Ok tile.2) tiles ->
  grouped_well row (fold_left track tiles st).
Proof.
  induction tiles as [|[p y] tiles IH]; intros st Hst Hall; [exact Hst|].
  apply Forall_cons in Hall as [Hp Hall]. simpl in Hp. simpl.
  apply IH; [|exact Hall]. apply track_grouped_well; assumption.
Qed.

Lemma grouped_well_start : grouped_well row (RowGroups 0 [] []).
Proof.
  constructor; simpl; auto.
  intros p Hp. inversion Hp.
Qed.

End GroupContents.

Lemma track_concat (tiles : list (string * Z)) : forall st,
  concat (groups_of (fold_left track tiles st))
  = concat (groups_of st) ++ map fst tiles.
Proof.
  induction tiles as [|[p y] tiles IH]; intros st; simpl.
  - rewrite app_nil_r. reflexivity.
  - rewrite IH. unfold track, groups_of. destruct (y =? tracked st); simpl.
    + rewrite !concat_app. simpl. rewrite !app_nil_r, <- !app_assoc. reflexivity.
    + rewrite !concat_app. simpl. rewrite !app_nil_r, <- !app_assoc. reflexivity.
Qed.

Lemma with_row_paths image_ext (l : list string) : forall tiles,
  mapM (with_row image_ext) l = Ok tiles ->
  map fst tiles = l
  /\ Forall (fun tile => path_row tile.1 image_ext = Ok tile.2) tiles.
Proof.
  induction l as [|p l IH]; intros tiles H.
  - injection H as <-. split; [reflexivity|constructor].
  - cbn [mapM] in H. apply bind_Ok in H as ([p' y] & Hw & H).
    apply bind_Ok in H as (ts & Hts & [= <-]).
    unfold with_row in Hw. apply bind_Ok in Hw as (y' & Hy & [= <- <-]).
    destruct (IH ts Hts) as [Hm Hall]. simpl.
    split; [f_equal; exact Hm|]. constructor; [exact Hy|exact Hall].
Qed.

Lemma filter_perm {A} (f : A -> bool) (l l' : list A) :
  l ≡ₚ l' -> List.filter f l ≡ₚ List.filter f l'.
Proof.
  induction 1 as [|x l l' _ IH|x y l|l1 l2 l3 _ IH1 _ IH2]; simpl.
  - reflexivity.
  - destruct (f x); [rewrite IH|exact IH]. reflexivity.
  - destruct (f x), (f y); try reflexivity. apply Permutation_swap.
  - rewrite IH1. exact IH2.
Qed.

(** What [group_images] returns, seen from the paths. *)
Lemma group_images_Ok_inv (images : list string) image_ext groups :
  group_images images image_ext = Ok groups ->
  concat groups
  = List.filter (fun image => Str.endswith image image_ext) (Natsort.natsorted images)
  /\ exists st, groups = groups_of st
                /\ grouped_well (fun p => path_row p image_ext) st.
Proof.
  rewrite group_images_partition. intros H.
  apply bind_Ok in H as (tiles & Htiles & [= <-]).
  destruct (with_row_paths _ _ _ Htiles) as [Hpaths Hrows].
  unfold partition_rows. split.
  - rewrite track_concat. simpl. exact Hpaths.
  - eexists. split; [reflexivity|].
    apply fold_grouped_well; [apply grouped_well_start|exact Hrows].
Qed.

(** X1: [group_images] loses no tile and invents none: the groups, one after
    the other, are the natural-sorted paths that end with the extension, each
    exactly as often as it was given. *)
Theorem group_images_keeps_tiles (images : list string) image_ext groups :
  group_images images image_ext = Ok groups ->
  concat groups
  = List.filter (fun image => Str.endswith image image_ext) (Natsort.natsorted images)
  /\ (forall p, p ∈ concat groups <-> p ∈ images /\ Str.endswith p image_ext = true)
  /\ concat groups
     ≡ₚ List.filter (fun image => Str.endswith image image_ext) images.
Proof.
  intros H. destruct (group_images_Ok_inv _ _ _ H) as [Hc _].
  split; [exact Hc|]. split.
  - intros p. rewrite Hc, list_elem_of_In, filter_In, <- list_elem_of_In, natsorted_elem.
    reflexivity.
  - rewrite Hc. apply filter_perm, natsorted_perm.
Qed.

(** X2: in what [group_images] returns there is at least one group; only
    the first can be empty, and it holds tiles of row 0 only; all the tiles
    of a group have the same row coordinate, and the tiles of two
    consecutive groups never have. *)
Theorem group_images_groups_by_row (images : list string) image_ext groups :
  group_images images image_ext = Ok groups ->
  groups <> []
  /\ (forall k g, groups !! S k = Some g -> g <> [])
  /\ (forall g p, groups !! O = Some g -> p ∈ g -> path_row p image_ext = Ok 0)
  /\ (forall k g, groups !! k = Some g ->
        exists y, forall p, p ∈ g -> path_row p image_ext = Ok y)
  /\ (forall k g g' p p', groups !! k = Some g -> groups !! S k = Some g' ->
        p ∈ g -> p' ∈ g' -> path_row p image_ext <> path_row p' image_ext).
Proof.
  intros H. destruct (group_images_Ok_inv _ _ _ H) as [_ (st & -> & Hst)].
  destruct Hst as [Hcur Hcl Hfirst Hne Hch]. unfold groups_of in *.
  split; [destruct (closed st); discriminate|]. split; [|split; [|split]].
  - intros k g Hg. destruct (closed st) as [|g0 later]; simpl in Hg.
    + rewrite lookup_nil in Hg. discriminate.
    + destruct Hne as [Hlater Hcne].
      apply lookup_app_Some in Hg as [Hg|[_ Hg]].
      * apply (Forall_lookup_1 _ _ _ _ Hlater Hg).
      * apply list_lookup_singleton_Some in Hg as [_ <-]. exact Hcne.
  - intros g p Hg Hp. destruct (closed st) as [|g0 later]; simpl in Hg.
    + injection Hg as <-. rewrite (Hcur p Hp), Hfirst. reflexivity.
    + injection Hg as <-. apply Hfirst, Hp.
  - intros k g Hg. apply lookup_app_Some in Hg as [Hg|[_ Hg]].
    + apply (Forall_lookup_1 _ _ _ _ Hcl Hg).
    + apply list_lookup_singleton_Some in Hg as [_ <-]. eauto.
  - clear -Hch. generalize dependent (closed st ++ [current st]). intros G.
    induction G as [|g0 G IH]; intros Hch k g g' p p' Hg Hg'.
    + rewrite lookup_nil in Hg. discriminate.
    + destruct G as [|g1 G].
      * simpl in Hg'. rewrite lookup_nil in Hg'. discriminate.
      * destruct Hch as [H01 Hch]. destruct k as [|k].
        -- simpl in Hg, Hg'. injection Hg as <-. injection Hg' as <-. apply H01.
        -- apply (IH Hch k); assumption.
Qed.

(** X3: [group_images] returns exactly when the row coordinate of every
    path that ends with the extension can be read; otherwise it raises
    [IndexError] (a name with fewer than two fields) or the [ValueError] of
    [int] (a row field that is no number), and nothing else. *)
Theorem group_images_fails_on_names (images : list string) image_ext :
  ((exists groups, group_images images image_ext = Ok groups)
   <-> (forall p, p ∈ images -> Str.endswith p image_ext = true ->
          exists y, path_row p image_ext = Ok y))
  /\ (forall e, group_images images image_ext = Raise e ->
        (e = IndexError \/ e = ValueError by_int)
        /\ exists p, p ∈ images /\ Str.endswith p image_ext = true
                     /\ path_row p image_ext = Raise e).
Proof.
  rewrite group_images_partition.
  set (l := List.filter _ _).
  assert (Hl : forall p, p ∈ l <-> p ∈ images /\ Str.endswith p image_ext = true).
  { intros p. unfold l.
    rewrite list_elem_of_In, filter_In, <- list_elem_of_In, natsorted_elem.
    reflexivity. }
  clearbody l. split; [split|].
  - intros [groups H] p Hp Hends.
    apply bind_Ok in H as (tiles & Htiles & _).
    assert (Hin : p ∈ l) by (apply Hl; auto).
    apply list_elem_of_lookup in Hin as [k Hk].
    destruct (mapM_Ok_lookup _ _ _ _ _ Htiles Hk) as ([p' y] & _ & Hw).
    unfold with_row in Hw. destruct (path_row p image_ext) as [y'|]; [eauto|discriminate].
  - intros Hall.
    assert (Hm : exists tiles, mapM (with_row image_ext) l = Ok tiles).
    { assert (Hl' : forall p, p ∈ l -> exists y, path_row p image_ext = Ok y)
        by (intros p [Hp He]%Hl; auto).
      clear Hl Hall. induction l as [|p l IH]; [exists []; reflexivity|].
      destruct (Hl' p) as [y Hy]; [left|].
      assert (Hw : with_row image_ext p = Ok (p, y))
        by (unfold with_row; rewrite Hy; reflexivity).
      destruct IH as [tiles Ht]; [intros q Hq; apply Hl'; right; exact Hq|].
      exists ((p, y) :: tiles). cbn [mapM]. rewrite Hw, Ht. reflexivity. }
    destruct Hm as [tiles ->]. simpl. eauto.
  - intros e He.
    assert (Hp : exists p, p ∈ l /\ path_row p image_ext = Raise e).
    { clear Hl. induction l as [|p l IH]; [discriminate|].
      cbn [mapM] in He.
      destruct (path_row p image_ext) as [y|e'] eqn:Hy.
      - assert (Hw : with_row image_ext p = Ok (p, y))
          by (unfold with_row; rewrite Hy; reflexivity).
        rewrite Hw in He. cbn [mbind result_bind] in He.
        destruct (mapM (with_row image_ext) l) as [tiles|e'] eqn:Hm;
          cbn [mbind result_bind] in He; [discriminate|].
        destruct IH as (q & Hq & Hqe); [exact He|].
        exists q. split; [right; exact Hq|exact Hqe].
      - assert (Hw : with_row image_ext p = Raise e')
          by (unfold with_row; rewrite Hy; reflexivity).
        rewrite Hw in He. injection He as ->. exists p. split; [left|exact Hy]. }
    destruct Hp as (p & Hp & Hpe). split.
    + unfold path_row in Hpe.
      destruct (getitem _ (-2)) as [f|e'] eqn:Hg; simpl in Hpe.
      * unfold Str.int in Hpe. right.
        destruct (match Str.strip f with String "-" s' => _ | _ => _ end);
          congruence.
      * injection Hpe as <-. left. unfold getitem in Hg.
        destruct (py_index _ _) as [k|e''] eqn:Hk; simpl in Hg.
        -- destruct (_ !! k); congruence.
        -- unfold py_index in Hk.
           destruct (_ && _); [discriminate|]. destruct (_ && _); congruence.
    + apply Hl in Hp as [Hp He']. eauto.
Qed.

(** ** The row coordinate of a well-formed tile name *)

Section RowField.

Implicit Types (s t u v w r c ext dir base old new : string) (a b o sep : ascii).

#[local] Arguments String.append !_ _ / : simpl nomatch.

Lemma prefix_sep sep old : forall s t,
  Str.all (fun a => negb (Ascii.eqb a sep)) old = true ->
  String.prefix old (s +:+ String sep t) = String.prefix old s.
Proof.
  induction old as [|o old IH]; intros s t Hold.
  - destruct s; reflexivity.
  - simpl in Hold. apply andb_true_iff in Hold as [Ho Hold].
    apply negb_true_iff, Ascii.eqb_neq in Ho.
    destruct s as [|a s]; simpl.
    + destruct (ascii_dec o sep); [congruence|reflexivity].
    + destruct (ascii_dec o a); [apply IH, Hold|reflexivity].
Qed.

Lemma prefix_length old : forall s,
  String.prefix old s = true -> (String.length old <= String.length s)%nat.
Proof.
  induction old as [|o old IH]; intros s; simpl; [lia|].
  destruct s as [|a s]; [discriminate|]. simpl.
  destruct (ascii_dec o a); [|discriminate]. intros H%IH. lia.
Qed.

Lemma replace_from_head old new a s :
  Str.replace_from old new 0 (String a s)
  = if String.prefix old (String a s)
    then new +:+ Str.replace_from old new (String.length old - 1) s
    else String a (Str.replace_from old new 0 s).
Proof. reflexivity. Qed.

(** A separator that is not in [old] is never removed, and what is on either
    side of it is replaced on its own. *)
Lemma replace_from_sep sep old new t :
  old <> "" -> Str.all (fun a => negb (Ascii.eqb a sep)) old = true ->
  forall s k, (k <= String.length s)%nat ->
  Str.replace_from old new k (s +:+ String sep t)
  = Str.replace_from old new k s +:+ String sep (Str.replace_from old new 0 t).
Proof.
  intros Hne Hold. induction s as [|a s IH]; intros k Hk.
  - simpl in Hk. assert (k = O) as -> by lia. simpl String.append.
    cbn [Str.replace_from].
    change (String sep t) with ("" +:+ String sep t) at 1.
    rewrite prefix_sep by exact Hold.
    destruct old; [congruence|reflexivity].
  - change (String a s +:+ String sep t) with (String a (s +:+ String sep t)).
    destruct k as [|k].
    + rewrite !replace_from_head.
      change (String a (s +:+ String sep t)) with (String a s +:+ String sep t).
      rewrite prefix_sep by exact Hold.
      destruct (String.prefix old (String a s)) eqn:Hp; cbv iota.
      * apply prefix_length in Hp. simpl in Hp.
        rewrite IH by lia. rewrite str_app_assoc. reflexivity.
      * rewrite IH by lia. reflexivity.
    + simpl in Hk. apply IH. lia.
Qed.

Lemma replace_from_clean o old new s :
  Str.all (fun a => negb (Ascii.eqb a o)) s = true ->
  Str.replace_from (String o old) new 0 s = s.
Proof.
  induction s as [|a s IH]; simpl; [reflexivity|].
  intros [Ha Hs]%andb_true_iff. apply negb_true_iff, Ascii.eqb_neq in Ha.
  destruct (ascii_dec o a); [congruence|]. rewrite (IH Hs). reflexivity.
Qed.

Lemma replace_from_all f old s : forall k,
  Str.all f s = true -> Str.all f (Str.replace_from old "" k s) = true.
Proof.
  induction s as [|a s IH]; intros k; [reflexivity|].
  intros [Ha Hs]%andb_true_iff. destruct k as [|k]; [|apply IH, Hs].
  rewrite replace_from_head.
  destruct (String.prefix old (String a s)); simpl.
  - apply IH, Hs.
  - rewrite Ha. apply IH, Hs.
Qed.

Lemma getitem_penultimate {A} (l : list A) (x y : A) :
  getitem (l ++ [x; y]) (-2) = Ok x.
Proof.
  apply getitem_slot with (length l).
  - unfold py_index. rewrite length_app. simpl length.
    replace (0 <=? -2) with false by reflexivity. simpl andb.
    replace (- Z.of_nat (length l + 2) <=? -2) with true
      by (symmetry; apply Z.leb_le; lia).
    simpl. f_equal. lia.
  - apply list_lookup_middle. reflexivity.
Qed.

(** After the removal of a text without underscore, the last field but one
    of [..._r_y] is still [r]. *)
Lemma row_field s r t o old :
  Str.all (fun a => negb (Ascii.eqb a "_")) (String o old) = true ->
  Str.all (fun a => negb (Ascii.eqb a o)) r = true ->
  Str.all (fun a => negb (Ascii.eqb a "_")) r = true ->
  Str.all (fun a => negb (Ascii.eqb a "_")) t = true ->
  getitem (Str.split "_" (Str.replace (s +:+ String "_" (r +:+ String "_" t))
                                      (String o old) ""))
          (-2)
  = Ok r.
Proof.
  intros Hold Hro Hr Ht. unfold Str.replace.
  rewrite (replace_from_sep "_") by (discriminate || assumption || lia).
  rewrite (replace_from_sep "_") by (discriminate || assumption || lia).
  rewrite (replace_from_clean o old "" r Hro).
  rewrite !split_app_sep, (split_none "_" r Hr).
  rewrite (split_none "_" (Str.replace_from _ _ _ t))
    by (apply replace_from_all, Ht).
  exact (getitem_penultimate _ r _).
Qed.

Lemma rev_onto_twice s : forall u v,
  Str.rev_onto (Str.rev_onto s u) v = Str.rev_onto u (s +:+ v).
Proof.
  induction s as [|a s IH]; intros u v; simpl; [reflexivity|].
  rewrite IH. reflexivity.
Qed.

Lemma rev_rev s : Str.rev (Str.rev s) = s.
Proof. unfold Str.rev. rewrite rev_onto_twice. simpl. apply str_app_nil_r. Qed.

Lemma rev_onto_all f s : forall u,
  Str.all f (Str.rev_onto s u) = Str.all f s && Str.all f u.
Proof.
  induction s as [|a s IH]; intros u; simpl; [reflexivity|].
  rewrite IH. simpl. destruct (f a), (Str.all f s); reflexivity.
Qed.

Lemma digit_not_space a : Str.is_digit a = true -> Str.is_space a = false.
Proof.
  unfold Str.is_digit, Str.is_space.
  intros [H1 H2]%andb_true_iff. apply Nat.leb_le in H1, H2.
  replace (nat_of_ascii a <=? 13)%nat with false by (symmetry; apply Nat.leb_gt; lia).
  replace (nat_of_ascii a =? 32)%nat with false by (symmetry; apply Nat.eqb_neq; lia).
  replace (nat_of_ascii a =? 133)%nat with false by (symmetry; apply Nat.eqb_neq; lia).
  replace (nat_of_ascii a =? 160)%nat with false by (symmetry; apply Nat.eqb_neq; lia).
  rewrite andb_false_r. reflexivity.
Qed.

Lemma lstrip_digits s : Str.all Str.is_digit s = true -> Str.lstrip s = s.
Proof.
  destruct s as [|a s]; simpl; [reflexivity|].
  intros [Ha _]%andb_true_iff. rewrite (digit_not_space a Ha). reflexivity.
Qed.

Lemma strip_digits s : Str.all Str.is_digit s = true -> Str.strip s = s.
Proof.
  intros Hs. unfold Str.strip. rewrite (lstrip_digits s Hs), lstrip_digits.
  - apply rev_rev.
  - unfold Str.rev. rewrite rev_onto_all, Hs. reflexivity.
Qed.

Lemma digits_value s : forall acc prev,
  Str.all Str.is_digit s = true -> s <> "" \/ prev = true -> 0 <= acc ->
  exists n, Str.digits s acc prev = Some n /\ 0 <= n.
Proof.
  induction s as [|a s IH]; intros acc prev Hs Hne Hacc; simpl.
  - destruct Hne as [Hne| ->]; [congruence|]. eauto.
  - simpl in Hs. apply andb_true_iff in Hs as [Ha Hs]. rewrite Ha.
    apply IH; [exact Hs|right; reflexivity|].
    unfold Str.digit_val. unfold Str.is_digit in Ha.
    apply andb_true_iff in Ha as [H1 H2]. apply Nat.leb_le in H1, H2. lia.
Qed.

(** [int] of a run of digits is a number that is not negative. *)
Lemma int_digits r :
  r <> "" -> Str.all Str.is_digit r = true ->
  exists n, Str.int r = Ok n /\ 0 <= n.
Proof.
  intros Hne Hr. unfold Str.int. rewrite (strip_digits r Hr).
  destruct (digits_value r 0 false Hr) as (n & Hn & Hn0); [auto|lia|].
  destruct r as [|a r]; [congruence|].
  simpl in Hr. apply andb_true_iff in Hr as [Ha _].
  exists n. split; [|exact Hn0].
  assert (Hm : forall (A B C : option Z),
            match String a r with
            | String "-" _ => A
            | String "+" _ => B
            | _ => C
            end = C).
  { intros A B C. clear -Ha.
    destruct a as [[] [] [] [] [] [] [] []]; try reflexivity; discriminate. }
  specialize (Hm (option_map Z.opp (Str.digits r 0 false)) (Str.digits r 0 false)
                 (Str.digits (String a r) 0 false)).
  simpl in Hm, Hn |- *. rewrite Hm, Hn. reflexivity.
Qed.

End RowField.

Section TileRow.

Context {pixel : Type}.

Implicit Types (fs : filesystem (pixel := pixel)) (arr : ndarray (pixel := pixel)).
Implicit Types (dir base r c ext fmt image_ext : string).

Lemma digit_is_not (x : ascii) :
  Str.is_digit x = false ->
  forall ch, Str.is_digit ch = true -> negb (Ascii.eqb ch x) = true.
Proof.
  intros Hx ch Ha. apply negb_true_iff, Ascii.eqb_neq. intros ->. congruence.
Qed.

Lemma alpha_is_not (x : ascii) :
  Str.is_alpha x = false ->
  forall ch, Str.is_alpha ch = true -> negb (Ascii.eqb ch x) = true.
Proof.
  intros Hx ch Ha. apply negb_true_iff, Ascii.eqb_neq. intros ->. congruence.
Qed.

Lemma row_of_name s r c ext old :
  r <> "" -> Str.all Str.is_digit r = true -> Str.all Str.is_digit c = true ->
  Str.all Str.is_alpha ext = true ->
  Str.all (fun ch => negb (Ascii.eqb ch "_")) old = true ->
  (coord_y ← getitem (Str.split "_" (Str.replace (s +:+ tile_suffix r c ext)
                                                 ("." +:+ old) "")) (-2);
   Str.int coord_y)
  = Str.int r.
Proof.
  intros Hne Hr Hc He Hold.
  change (s +:+ tile_suffix r c ext)
    with (s +:+ String "_" (r +:+ String "_" (c +:+ String "." ext))).
  change ("." +:+ old) with (String "." old).
  rewrite row_field; [reflexivity| | | |].
  - simpl. exact Hold.
  - revert Hr. apply str_all_impl, digit_is_not. reflexivity.
  - revert Hr. apply str_all_impl, digit_is_not. reflexivity.
  - rewrite str_all_app. apply andb_true_iff. split.
    + revert Hc. apply str_all_impl, digit_is_not. reflexivity.
    + simpl. revert He. apply str_all_impl, alpha_is_not. reflexivity.
Qed.

(** X4: on a tile named [<dir><base>_<r>_<c>.<ext>] (digits [r], not empty,
    digits [c], letters [ext], no slash in [base]) the row read by
    [group_images] from the path and the row read by [merge] and [pad_image]
    from the opened image are the same number [int(r)], which is not
    negative; neither the extension given to [group_images] nor the format
    reported for the file matters, as long as it has no underscore. *)
Theorem tile_row_of_name dir base r c ext :
  r <> "" -> Str.all Str.is_digit r = true -> Str.all Str.is_digit c = true ->
  Str.all Str.is_alpha ext = true ->
  Str.all (fun ch => negb (Ascii.eqb ch "/")) base = true ->
  dir = "" \/ (exists d, dir = d +:+ "/") ->
  let path := dir +:+ base +:+ tile_suffix r c ext in
  exists n, 0 <= n /\ Str.int r = Ok n
    /\ (forall image_ext,
          Str.all (fun ch => negb (Ascii.eqb ch "_")) image_ext = true ->
          path_row path image_ext = Ok n)
    /\ (forall fs fmt arr,
          fs path = Some (fmt, arr) ->
          Str.all (fun ch => negb (Ascii.eqb ch "_")) fmt = true ->
          Image_open fs path ≫= image_row = Ok n).
Proof.
  intros Hne Hr Hc He Hb Hd path.
  destruct (int_digits r Hne Hr) as (n & Hn & Hn0).
  exists n. split; [exact Hn0|]. split; [exact Hn|]. split.
  - intros image_ext Hi. unfold path_row, path.
    rewrite <- str_app_assoc, <- Hn. apply row_of_name; assumption.
  - intros fs fmt arr Hfs Hf. unfold Image_open. rewrite Hfs.
    cbn [mbind result_bind]. unfold image_row. cbn [filename format].
    unfold path. rewrite basename_of_name; [| |exact Hd].
    + rewrite <- Hn. apply row_of_name; assumption.
    + rewrite str_all_app, Hb. apply tile_suffix_no_slash; assumption.
Qed.

End TileRow.

(** ** [merge] on any groups: what the first pass leaves to the second *)

Section MergeGeneral.

Context {pixel : Type} (black : @Image pixel -> pixel).
Implicit Types (image t out : @Image pixel) (images : list (list (@Image pixel))).
Implicit Types (fs : @filesystem pixel) (tiles : list (nat * @Image pixel)).

Lemma above_elem (v x : Z) (l : list Z) : x ∈ l -> x <= above v l.
Proof.
  unfold above. induction l as [|a l IH]; [intros H; inversion H|].
  intros [->|H]%elem_of_cons; simpl; [lia|]. specialize (IH H). lia.
Qed.

Lemma bind_Raise {A B} (m : result A) (k : A -> result B) (e : exn) :
  m ≫= k = Raise e <-> m = Raise e \/ exists a, m = Ok a /\ k a = Raise e.
Proof.
  destruct m as [a|e']; simpl; split.
  - intros H. right. exists a. auto.
  - intros [H|(a' & [= ->] & H)]; [discriminate|exact H].
  - intros [= ->]. left. reflexivity.
  - intros [[= ->]|(a' & H & _)]; [reflexivity|discriminate].
Qed.

Lemma foldM_raise_only {A S} (P : exn -> Prop) (step : S -> A -> result S) (l : list A) :
  (forall s x e, x ∈ l -> step s x = Raise e -> P e) ->
  forall s e, foldM step l s = Raise e -> P e.
Proof.
  induction l as [|x l IH]; intros Hstep s e; simpl; [discriminate|].
  intros [H|(s' & _ & H)]%bind_Raise.
  - apply (Hstep s x e); [left|exact H].
  - apply (IH (fun s y e Hy => Hstep s y e (proj2 (elem_of_cons l y x) (or_intror Hy)))
              s' e H).
Qed.

Lemma mapM_raise_some {A B} (f : A -> result B) (l : list A) (e : exn) :
  mapM f l = Raise e -> exists x, x ∈ l /\ f x = Raise e.
Proof.
  induction l as [|x l IH]; simpl; [discriminate|].
  intros [H|(y & _ & H)]%bind_Raise.
  - exists x. split; [left|exact H].
  - apply bind_Raise in H as [H|(ys & _ & H)]; [|discriminate].
    destruct (IH H) as (x' & Hx' & Hf). exists x'. split; [right; exact Hx'|exact Hf].
Qed.

Lemma py_index_raise n i e : py_index n i = Raise e -> e = IndexError.
Proof.
  unfold py_index. destruct (_ && _); [discriminate|].
  destruct (_ && _); [discriminate|]. congruence.
Qed.

Lemma getitem_raise {A} (l : list A) i e : getitem l i = Raise e -> e = IndexError.
Proof.
  unfold getitem. intros [H|(k & _ & H)]%bind_Raise.
  - apply py_index_raise in H. exact H.
  - destruct (l !! k); [discriminate|congruence].
Qed.

Lemma setitem_raise {A} (l : list A) i x e : setitem l i x = Raise e -> e = IndexError.
Proof.
  unfold setitem. intros [H|(k & _ & H)]%bind_Raise; [|discriminate].
  apply py_index_raise in H. exact H.
Qed.

Lemma int_raise s e : Str.int s = Raise e -> e = ValueError by_int.
Proof.
  unfold Str.int. cbv zeta.
  destruct (match Str.strip s with
            | String "-" s' => option_map Z.opp (Str.digits s' 0 false)
            | String "+" s' => Str.digits s' 0 false
            | _ => Str.digits (Str.strip s) 0 false
            end); [discriminate|congruence].
Qed.

Lemma image_row_raise t e : image_row t = Raise e -> bad_name e.
Proof.
  unfold image_row. cbv zeta. intros [H|(c & _ & H)]%bind_Raise.
  - left. apply getitem_raise in H. exact H.
  - right. apply int_raise in H. exact H.
Qed.

Lemma tally_raise i t (tables : list Z * list Z) e :
  tally i tables t = Raise e -> bad_name e.
Proof.
  destruct tables as [mh mw]. unfold tally. cbv zeta.
  intros [H|(c & _ & H)]%bind_Raise; [apply image_row_raise in H; exact H|].
  left.
  apply bind_Raise in H as [H|(h & _ & H)]; [apply getitem_raise in H; exact H|].
  apply bind_Raise in H as [H|(mh' & _ & H)]; [apply setitem_raise in H; exact H|].
  apply bind_Raise in H as [H|(w & _ & H)]; [apply getitem_raise in H; exact H|].
  apply bind_Raise in H as [H|(mw' & _ & H)]; [apply setitem_raise in H; exact H|].
  discriminate.
Qed.

Lemma Image_open_raise fs path e : Image_open fs path = Raise e -> e = OSError.
Proof. unfold Image_open. destruct (fs path) as [[fmt a]|]; [discriminate|congruence]. Qed.

Lemma reconcile_raise fs (groups : list (list string)) e :
  reconcile fs groups = Raise e -> e = OSError \/ bad_name e.
Proof.
  unfold reconcile. cbv zeta.
  apply (foldM_raise_only (fun e => e = OSError \/ bad_name e)).
  intros tables [i group] e' _ [H|(ts & _ & H)]%bind_Raise.
  - left. apply mapM_raise_some in H as (path & _ & H).
    apply Image_open_raise in H. exact H.
  - right. revert H. apply (foldM_raise_only bad_name).
    intros s t e'' _. apply tally_raise.
Qed.

Lemma tally_Ok_inv i t (mh mw mh' mw' : list Z) :
  tally i (mh, mw) t = Ok (mh', mw') ->
  is_Some (slot (length mh) t) /\ length mh' = length mh /\ length mw' = length mw.
Proof.
  unfold tally. cbv zeta.
  intros (c & Hc & H)%bind_Ok.
  apply bind_Ok in H as (h & Hh & H).
  apply bind_Ok in H as (mh1 & Hs & H).
  apply bind_Ok in H as (w & Hw & H).
  apply bind_Ok in H as (mw1 & Hs2 & H).
  injection H as <- <-.
  unfold setitem in Hs, Hs2.
  apply bind_Ok in Hs as (k & Hk & [= <-]).
  apply bind_Ok in Hs2 as (k2 & Hk2 & [= <-]).
  rewrite !length_insert. split; [|split; reflexivity].
  exists k. apply slot_Some. exists c. split; assumption.
Qed.

Lemma tally_run_inv n tiles : forall (mh mw : list Z) r,
  length mh = n -> length mw = n ->
  foldM tally_tagged tiles (mh, mw) = Ok r ->
  Forall (fun it => is_Some (slot n it.2)) tiles.
Proof.
  induction tiles as [|[i t] tiles IH]; intros mh mw r Hh Hw; [constructor|].
  change (foldM tally_tagged ((i, t) :: tiles) (mh, mw))
    with (tally i (mh, mw) t ≫= foldM tally_tagged tiles).
  intros ([mh' mw'] & Ht & Hrest)%bind_Ok.
  destruct (tally_Ok_inv _ _ _ _ _ _ Ht) as (Hs & Hh' & Hw').
  constructor; [simpl; rewrite <- Hh; exact Hs|].
  apply (IH mh' mw' r); congruence.
Qed.

Lemma reconcile_loop_inv fs : forall (groups : list (list string)) i tables r,
  foldM (fun tables '(i, group) =>
           images ← mapM (Image_open fs) group;
           foldM (tally i) images tables)
        (enumerate_from i groups) tables = Ok r ->
  exists images, open_all fs groups = Ok images.
Proof.
  unfold open_all.
  induction groups as [|g groups IH]; intros i tables r; simpl.
  - intros _. exists []. reflexivity.
  - intros (tb & Hg & Hrest)%bind_Ok.
    apply bind_Ok in Hg as (ts & Hts & _).
    destruct (IH _ _ _ Hrest) as (rest & Hr).
    exists (ts :: rest). rewrite Hts, Hr. reflexivity.
Qed.

(** A first pass that returns has opened every file, has found for every
    tile a row coordinate that denotes a position of the tables, and returns
    the tables of the tile set. *)
Lemma reconcile_Ok_inv fs (groups : list (list string)) (mh mw : list Z) :
  reconcile fs groups = Ok (mh, mw) ->
  exists images,
    open_all fs groups = Ok images
    /\ Forall (fun it => is_Some (slot (length images) it.2)) (tagged images)
    /\ tables_of images = (mh, mw).
Proof.
  intros Hrec.
  destruct (reconcile_loop_inv fs groups 0 _ _ Hrec) as (images & Hopen).
  pose proof (open_all_length _ _ _ Hopen) as Hlen.
  exists images. split; [exact Hopen|].
  assert (Hslots : Forall (fun it => is_Some (slot (length images) it.2))
                          (tagged images)).
  { rewrite (reconcile_pass _ _ _ Hopen) in Hrec.
    rewrite Hlen.
    apply (tally_run_inv _ _ _ _ _ (length_replicate _ _) (length_replicate _ _) Hrec). }
  split; [exact Hslots|].
  rewrite (reconcile_tables _ _ _ Hopen) in Hrec.
  - congruence.
  - intros it Hit. apply (proj1 (Forall_forall _ _) Hslots it Hit).
Qed.

Lemma tables_of_length images :
  length (tables_of images).1 = length images
  /\ length (tables_of images).2 = length images.
Proof. unfold tables_of. simpl. rewrite !length_map, !length_seq. auto. Qed.

Lemma tables_of_heights images k :
  (k < length images)%nat ->
  (tables_of images).1 !! k
  = Some (max_of (heights_at (length images) (tagged images) k)).
Proof.
  intros Hk. unfold tables_of. simpl.
  change (map ?f ?l) with (f <$> l).
  rewrite list_lookup_fmap, lookup_seq_lt by exact Hk. reflexivity.
Qed.

Lemma tables_of_widths images k :
  (k < length images)%nat ->
  (tables_of images).2 !! k = Some (max_of (widths_at (tagged images) k)).
Proof.
  intros Hk. unfold tables_of. simpl.
  change (map ?f ?l) with (f <$> l).
  rewrite list_lookup_fmap, lookup_seq_lt by exact Hk. reflexivity.
Qed.

Lemma tables_of_nonneg images :
  Forall (fun v => 0 <= v) (tables_of images).1
  /\ Forall (fun v => 0 <= v) (tables_of images).2.
Proof.
  unfold tables_of. simpl. split.
  - apply Forall_fmap, Forall_forall. intros k _. apply max_of_nonneg.
  - apply Forall_fmap, Forall_forall. intros k _. apply max_of_nonneg.
Qed.

(** Every tile fits under its cell of the height table and under the cell of
    its group in the width table. *)
Lemma tables_of_bound images i t k :
  (i, t) ∈ tagged images -> slot (length images) t = Some k ->
  (exists h, (tables_of images).1 !! k = Some h /\ height t <= h)
  /\ (exists w, (tables_of images).2 !! i = Some w /\ width t <= w).
Proof.
  intros Hit Hk. split.
  - eexists. split; [apply tables_of_heights, (slot_lt _ _ _ Hk)|].
    apply above_elem. unfold heights_at.
    apply list_elem_of_fmap. exists (i, t). split; [reflexivity|].
    apply list_elem_of_filter. split; [exact Hk|exact Hit].
  - eexists. split.
    + apply tables_of_widths. apply tagged_from_bound in Hit. lia.
    + apply above_elem. unfold widths_at.
      apply list_elem_of_fmap. exists (i, t). split; [reflexivity|].
      apply list_elem_of_filter. split; [reflexivity|exact Hit].
Qed.

Lemma open_all_tile fs (groups : list (list string)) images i group path :
  open_all fs groups = Ok images ->
  groups !! i = Some group -> path ∈ group ->
  exists t, Image_open fs path = Ok t /\ (i, t) ∈ tagged images.
Proof.
  intros Hopen Hg Hp.
  destruct (mapM_Ok_lookup _ _ _ _ _ Hopen Hg) as (ts & Hts & Hog).
  apply list_elem_of_lookup in Hp as (j & Hj).
  destruct (mapM_Ok_lookup _ _ _ _ _ Hog Hj) as (t & Ht & Hot).
  exists t. split; [exact Hot|]. apply tagged_elem. exists ts.
  split; [exact Hts|]. apply list_elem_of_lookup. eauto.
Qed.

(** X5: when the first pass of [merge] returns, both tables have one cell
    per group and no negative cell, every file of every group opens, and
    every tile is at most as high as the cell its row coordinate denotes in
    the height table and at most as wide as the cell of its group in the
    width table. *)
Theorem reconcile_bounds fs (groups : list (list string)) (max_heights max_widths : list Z) :
  reconcile fs groups = Ok (max_heights, max_widths) ->
  length max_heights = length groups /\ length max_widths = length groups
  /\ Forall (fun v => 0 <= v) max_heights /\ Forall (fun v => 0 <= v) max_widths
  /\ forall i group path,
       groups !! i = Some group -> path ∈ group ->
       exists t coord_y h w,
         Image_open fs path = Ok t
         /\ image_row t = Ok coord_y
         /\ getitem max_heights coord_y = Ok h /\ height t <= h
         /\ max_widths !! i = Some w /\ width t <= w.
Proof.
  intros (images & Hopen & Hslots & Htab)%reconcile_Ok_inv.
  pose proof (open_all_length _ _ _ Hopen) as Hlen.
  destruct (tables_of_length images) as [Hlh Hlw].
  destruct (tables_of_nonneg images) as [Hnh Hnw].
  rewrite Htab in Hlh, Hlw, Hnh, Hnw. simpl in Hlh, Hlw, Hnh, Hnw.
  split; [congruence|]. split; [congruence|].
  split; [exact Hnh|]. split; [exact Hnw|].
  intros i group path Hg Hp.
  destruct (open_all_tile _ _ _ _ _ _ Hopen Hg Hp) as (t & Ht & Hit).
  destruct (proj1 (Forall_forall _ _) Hslots _ Hit) as [k Hk]. simpl in Hk.
  destruct (tables_of_bound _ _ _ _ Hit Hk) as ((h & Hh & Hhle) & (w & Hw & Hwle)).
  rewrite Htab in Hh, Hw. simpl in Hh, Hw.
  apply slot_Some in Hk as (c & Hc & Hkc).
  exists t, c, h, w. split; [exact Ht|]. split; [exact Hc|].
  split; [apply (getitem_slot _ _ k); [rewrite Hlh; exact Hkc|exact Hh]|].
  auto.
Qed.

(** After the first pass, [pad_image] reads both targets in range, and
    neither is negative. *)
Lemma targets_after_reconcile images i t :
  (i, t) ∈ tagged images ->
  Forall (fun it => is_Some (slot (length images) it.2)) (tagged images) ->
  exists coord_y th tw,
    image_row t = Ok coord_y
    /\ getitem (tables_of images).1 coord_y = Ok th
    /\ getitem (tables_of images).2 coord_y = Ok tw
    /\ 0 <= th /\ 0 <= tw.
Proof.
  intros Hit Hslots.
  destruct (proj1 (Forall_forall _ _) Hslots _ Hit) as [k Hk]. simpl in Hk.
  pose proof (slot_lt _ _ _ Hk) as Hkn.
  pose proof (tables_of_heights images k Hkn) as Hh.
  pose proof (tables_of_widths images k Hkn) as Hw.
  destruct (tables_of_length images) as [Hlh Hlw].
  apply slot_Some in Hk as (c & Hc & Hkc).
  eexists c, _, _. split; [exact Hc|].
  split; [apply (getitem_slot _ _ k); [rewrite Hlh; exact Hkc|exact Hh]|].
  split; [apply (getitem_slot _ _ k); [rewrite Hlw; exact Hkc|exact Hw]|].
  split; apply max_of_nonneg.
Qed.

Lemma pad_after_reconcile images i t :
  (i, t) ∈ tagged images ->
  Forall (fun it => is_Some (slot (length images) it.2)) (tagged images) ->
  exists out,
    pad_image black t (tables_of images).1 (tables_of images).2 = Ok out
    /\ wf_image out /\ height t <= height out.
Proof.
  intros Hit Hslots.
  destruct (proj1 (Forall_forall _ _) Hslots _ Hit) as [k Hk]. simpl in Hk.
  destruct (tables_of_bound _ _ _ _ Hit Hk) as ((h & Hh & Hhle) & _).
  pose proof (slot_lt _ _ _ Hk) as Hkn.
  pose proof (tables_of_widths images k Hkn) as Hw.
  destruct (tables_of_length images) as [Hlh Hlw].
  apply slot_Some in Hk as (c & Hc & Hkc).
  rewrite (pad_image_lookup black t _ _ c h _ Hc
             (getitem_slot _ _ k _ ltac:(rewrite Hlh; exact Hkc) Hh)
             (getitem_slot _ _ k _ ltac:(rewrite Hlw; exact Hkc) Hw)).
  set (tw := max_of (widths_at (tagged images) k)).
  assert (Htw : 0 <= tw) by apply max_of_nonneg.
  assert (Hh0 : 0 <= h).
  { destruct (tables_of_nonneg images) as [Hnh _].
    apply (Forall_lookup_1 _ _ _ _ Hnh Hh). }
  destruct (padding (width t) (height t) tw h) as [[[pl pt] pr] pb] eqn:Hp.
  destruct (padding_sum _ _ _ _ _ _ _ _ Hp) as [Hsw Hsh].
  edestruct (expand_spec black t pl pt pr pb) as (Hwo & Hho & Hwf & _);
    [apply expand_Ok; lia|].
  rewrite expand_Ok by lia. eexists. split; [reflexivity|].
  split; [exact Hwf|]. simpl. lia.
Qed.

End MergeGeneral.

(** ** The size of a padded tile *)

Section TargetSize.

Context {pixel : Type} (black : @Image pixel -> pixel).
Implicit Types (image t out : @Image pixel) (images : list (list (@Image pixel))).
Implicit Types (fs : @filesystem pixel).

Lemma getitem_Ok_inv {A} (l : list A) (i : Z) (x : A) :
  getitem l i = Ok x -> exists k, py_index (length l) i = Ok k /\ l !! k = Some x.
Proof.
  unfold getitem. intros (k & Hk & H)%bind_Ok. exists k. split; [exact Hk|].
  destruct (l !! k); [congruence|discriminate].
Qed.

(** C5, as the code has it: a tile padded to targets at least as large as
    itself comes out as a well-formed image, exactly as high and as wide
    as the two targets [pad_image] reads at its row coordinate.  As the
    first pass of [merge] computes them, the height target is the largest
    height among the tiles whose row coordinate denotes the same position,
    and the width target the largest width in the row group at that
    position; in a tile set whose rows are contiguous from 0, where that
    group is the group of the tile, the targets are the largest height and
    the largest width of the tiles of its group. *)
Theorem pad_image_target_size image (max_heights max_widths : list Z) coord_y
    target_height target_width :
  wf_image image ->
  image_row image = Ok coord_y ->
  getitem max_heights coord_y = Ok target_height ->
  getitem max_widths coord_y = Ok target_width ->
  height image <= target_height ->
  width image <= target_width ->
  (exists out,
     pad_image black image max_heights max_widths = Ok out
     /\ wf_image out
     /\ height out = target_height /\ width out = target_width)
  /\ (forall fs (groups : list (list string)) images,
        open_all fs groups = Ok images ->
        reconcile fs groups = Ok (max_heights, max_widths) ->
        exists k ts,
          slot (length images) image = Some k
          /\ images !! k = Some ts
          /\ target_height = max_of (heights_at (length images) (tagged images) k)
          /\ target_width = max_of (map width ts))
  /\ (forall fs (groups : list (list string)) images i ts,
        open_all fs groups = Ok images -> aligned images ->
        reconcile fs groups = Ok (max_heights, max_widths) ->
        images !! i = Some ts -> image ∈ ts ->
        target_height = max_of (map height ts)
        /\ target_width = max_of (map width ts)).
Proof.
  intros (Hw0 & Hh0 & _) Hc Hth Htw Hh Hw. split; [|split].
  - rewrite (pad_image_lookup black image _ _ coord_y target_height target_width)
      by assumption.
    destruct (padding (width image) (height image) target_width target_height)
      as [[[pl pt] pr] pb] eqn:Hp.
    destruct (padding_sum _ _ _ _ _ _ _ _ Hp) as [Hsw Hsh].
    edestruct (expand_spec black image pl pt pr pb) as (Hwo & Hho & Hwf & _);
      [apply expand_Ok; lia|].
    rewrite expand_Ok by lia. eexists. split; [reflexivity|].
    split; [exact Hwf|]. simpl. lia.
  - intros fs groups images Hopen Hrec.
    destruct (reconcile_Ok_inv _ _ _ _ Hrec) as (images' & Hopen' & _ & Htab).
    assert (images' = images) as -> by congruence.
    destruct (tables_of_length images) as [Hlh Hlw].
    rewrite Htab in Hlh, Hlw. simpl in Hlh, Hlw.
    apply getitem_Ok_inv in Hth as (k & Hk & Hth).
    apply getitem_Ok_inv in Htw as (k' & Hk' & Htw).
    rewrite Hlh in Hk. rewrite Hlw in Hk'.
    assert (k' = k) as -> by congruence.
    pose proof (py_index_lt _ _ _ Hk) as Hkn.
    destruct (lookup_lt_is_Some_2 images k Hkn) as [ts Hts].
    exists k, ts. split; [apply slot_Some; eauto|]. split; [exact Hts|].
    pose proof (tables_of_heights images k Hkn) as Hh'.
    pose proof (tables_of_widths images k Hkn) as Hw'.
    rewrite Htab in Hh', Hw'. simpl in Hh', Hw'.
    rewrite widths_at_group, Hts in Hw'. simpl in Hw'.
    split; congruence.
  - intros fs groups images i ts Hopen Hal Hrec Hts Hin.
    rewrite (reconcile_aligned fs groups images Hopen Hal) in Hrec.
    injection Hrec as <- <-.
    assert (Hrow : image_row image = Ok (Z.of_nat i))
      by (apply Hal, tagged_elem; eauto).
    assert (coord_y = Z.of_nat i) as -> by congruence.
    rewrite (getitem_nat _ i (max_of (map height ts))) in Hth
      by (change (map ?f ?l) with (f <$> l) at 1;
          rewrite list_lookup_fmap, Hts; reflexivity).
    rewrite (getitem_nat _ i (max_of (map width ts))) in Htw
      by (change (map ?f ?l) with (f <$> l) at 1;
          rewrite list_lookup_fmap, Hts; reflexivity).
    split; congruence.
Qed.

End TargetSize.

(** The first tile of the uneven set, 2 by 2, in a row whose targets are
    2 high and 3 wide. *)
Lemma pad_image_target_size_witness :
  (exists out,
     pad_image dark uneven_tile [2; 2] [3; 3] = Ok out
     /\ wf_image out /\ height out = 2 /\ width out = 3)
  /\ (exists k ts,
        slot (length uneven_images) uneven_tile = Some k
        /\ uneven_images !! k = Some ts
        /\ 2 = max_of (heights_at (length uneven_images) (tagged uneven_images) k)
        /\ 3 = max_of (map width ts))
  /\ (forall ts, uneven_images !! O = Some ts -> uneven_tile ∈ ts ->
        2 = max_of (map height ts) /\ 3 = max_of (map width ts)).
Proof.
  destruct (pad_image_target_size dark uneven_tile [2; 2] [3; 3] 0 2 3)
    as (Hout & Htables & Htargets);
    [well_formed | reflexivity | reflexivity | reflexivity | simpl; lia
    | simpl; lia |].
  split; [exact Hout|]. split.
  - apply (Htables uneven_fs uneven_groups uneven_images);
      vm_compute; reflexivity.
  - intros ts Hts Hin.
    apply (Htargets uneven_fs uneven_groups uneven_images O ts);
      [vm_compute; reflexivity | apply aligned_Forall; repeat constructor
      | vm_compute; reflexivity | exact Hts | exact Hin].
Defined.

(** In the stray tile set the claim of C5 about the width does not hold
    as it is worded.  The tile of the third group has row coordinate 0; it
    is 10 wide, the widest tile of its group, and both targets [pad_image]
    reads for it are at least its size; it comes out 20 wide, the width of
    the widest tile of the first group. *)
Lemma stray_tile_padded_width :
  open_all stray_fs stray_groups = Ok stray_images
  /\ reconcile stray_fs stray_groups = Ok ([7; 3; 0], [20; 20; 10])
  /\ stray_images !! 2%nat = Some [stray_tile]
  /\ image_row stray_tile = Ok 0
  /\ getitem [7; 3; 0] 0 = Ok 7 /\ height stray_tile <= 7
  /\ getitem [20; 20; 10] 0 = Ok 20 /\ width stray_tile <= 20
  /\ max_of (map width [stray_tile]) = 10
  /\ exists out,
       pad_image dark stray_tile [7; 3; 0] [20; 20; 10] = Ok out
       /\ height out = 7 /\ width out = 20
       /\ width out <> max_of (map width [stray_tile]).
Proof.
  repeat (split; [vm_compute; first [reflexivity | discriminate]|]).
  eexists. split; [vm_compute; reflexivity|].
  split; [reflexivity|]. split; [reflexivity|]. vm_compute. discriminate.
Qed.

Section MergeOutcome.

Context {pixel : Type} (black : @Image pixel -> pixel).
Implicit Types (image t out part full : @Image pixel).
Implicit Types (images : list (list (@Image pixel))).
Implicit Types (fs : @filesystem pixel) (arrays : list (@ndarray pixel)).

Lemma hstack_Ok_inv arrays (a : @ndarray pixel) :
  hstack arrays = Ok a ->
  arrays <> [] /\ Forall (fun b => rows b = rows a) arrays
  /\ a = NDArray (rows a) (total_cols arrays) (side_by_side (Z.to_nat (rows a)) arrays).
Proof.
  unfold hstack. destruct arrays as [|a0 others]; [discriminate|].
  destruct (forallb _ others) eqn:Hall; [|discriminate].
  intros [= <-]. simpl. split; [discriminate|]. split; [|reflexivity].
  constructor; [reflexivity|]. apply forallb_same_inv, Hall.
Qed.

Lemma hstack_raise_only arrays e :
  hstack arrays = Raise e -> e = ValueError by_hstack.
Proof.
  unfold hstack. destruct arrays as [|a others]; [congruence|].
  destruct (forallb _ others); congruence.
Qed.

Lemma py_index_range n c k :
  py_index n c = Ok k -> - Z.of_nat n <= c < Z.of_nat n.
Proof.
  unfold py_index.
  destruct ((0 <=? c) && (c <? Z.of_nat n)) eqn:H1.
  - apply andb_true_iff in H1 as [H0 H1].
    apply Z.leb_le in H0. apply Z.ltb_lt in H1. lia.
  - destruct ((- Z.of_nat n <=? c) && (c <? 0)) eqn:H2; [|discriminate].
    apply andb_true_iff in H2 as [H2 H3].
    apply Z.leb_le in H2. apply Z.ltb_lt in H3. lia.
Qed.

(** The second pass on one group, after a first pass that returned: the
    files open again, every tile is padded, and only the horizontal
    concatenation can fail. *)
Lemma strip_after_reconcile fs (groups : list (list string)) images i group :
  open_all fs groups = Ok images ->
  Forall (fun it => is_Some (slot (length images) it.2)) (tagged images) ->
  groups !! i = Some group ->
  exists padded,
    Forall wf_image padded
    /\ length padded = length group
    /\ strip_of black fs (tables_of images).1 (tables_of images).2 group
       = (horizontal_part ← hstack (map asarray padded);
          Ok (fromarray horizontal_part)).
Proof.
  intros Hopen Hslots Hg.
  destruct (mapM_Ok_lookup _ _ _ _ _ Hopen Hg) as (ts & Hts & Hog).
  destruct (mapM_lookup_Ok
              (fun image => pad_image black image (tables_of images).1
                                      (tables_of images).2) ts
              (fun _ _ out => wf_image out))
    as (padded & Hpad & Hlen & Hpadded).
  { intros j t Hj.
    destruct (pad_after_reconcile black images i t) as (out & Hout & Hwf & _).
    - apply tagged_elem. exists ts. split; [exact Hts|].
      apply list_elem_of_lookup. eauto.
    - exact Hslots.
    - exists out. auto. }
  exists padded. split; [|split].
  - apply Forall_lookup. intros j out Hj.
    destruct (lookup_lt_is_Some_2 ts j) as [t Ht].
    { rewrite <- Hlen. eapply lookup_lt_Some, Hj. }
    apply (Hpadded j t out Ht Hj).
  - rewrite Hlen. apply (mapM_Ok_length _ _ _ Hog).
  - unfold strip_of. rewrite Hog. cbn [mbind result_bind]. rewrite Hpad. reflexivity.
Qed.

Lemma strip_wf (padded : list (@Image pixel)) part :
  Forall wf_image padded ->
  (horizontal_part ← hstack (map asarray padded); Ok (fromarray horizontal_part))
  = Ok part ->
  padded <> [] /\ wf_image part.
Proof.
  intros Hwf (a & Ha & [= <-])%bind_Ok.
  apply hstack_Ok_inv in Ha as (Hne & Hrows & Heq).
  split; [destruct padded; [exfalso; apply Hne; reflexivity|discriminate]|].
  apply wf_fromarray. rewrite Heq. apply hstack_wf; [exact Hne| |exact Hrows].
  apply Forall_fmap. eapply Forall_impl; [exact Hwf|]. intros t Ht. exact Ht.
Qed.

(** X6: where the failures of [merge] come from.  An [IndexError] and the
    [ValueError] of [int] (a name without a usable row coordinate) come out
    of the first pass, the [ValueError]s of the two concatenations come
    after a first pass that has returned, and the [ValueError] of
    [Image.new] never comes.  For once the first pass has returned,
    [pad_image] finds for every tile of every group, whatever the groups,
    its row coordinate and both targets, neither of them negative: the
    second pass never indexes out of range and never asks for an image of
    negative size. *)
Theorem merge_failures fs (groups : list (list string)) :
  (forall e, merge black fs groups = Raise e ->
     e <> ValueError by_new
     /\ (e = IndexError \/ e = ValueError by_int -> reconcile fs groups = Raise e)
     /\ (e = ValueError by_hstack \/ e = ValueError by_vstack ->
         exists max_heights max_widths,
           reconcile fs groups = Ok (max_heights, max_widths)))
  /\ (forall (max_heights max_widths : list Z) group path,
        reconcile fs groups = Ok (max_heights, max_widths) ->
        group ∈ groups -> path ∈ group ->
        exists t coord_y target_height target_width,
          Image_open fs path = Ok t
          /\ image_row t = Ok coord_y
          /\ getitem max_heights coord_y = Ok target_height
          /\ getitem max_widths coord_y = Ok target_width
          /\ 0 <= target_height /\ 0 <= target_width
          /\ pad_image black t max_heights max_widths
             = expand black t (padding (width t) (height t)
                                       target_width target_height)
          /\ pad_image black t max_heights max_widths <> Raise IndexError
          /\ pad_image black t max_heights max_widths <> Raise (ValueError by_new)).
Proof.
  split.
  - intros e. unfold merge. intros [H|([mh mw] & Hrec & H)]%bind_Raise.
    + pose proof (reconcile_raise _ _ _ H) as [->|[->| ->]];
        (split; [discriminate|]); (split; [intros _; exact H|]);
        intros [[=]|[=]].
    + destruct (reconcile_Ok_inv _ _ _ _ Hrec) as (images & Hopen & Hslots & Htab).
      assert (Hmh : mh = (tables_of images).1) by (rewrite Htab; reflexivity).
      assert (Hmw : mw = (tables_of images).2) by (rewrite Htab; reflexivity).
      assert (He : e = ValueError by_hstack \/ e = ValueError by_vstack).
      { apply bind_Raise in H as [H|(parts & _ & H)].
        - left. apply mapM_raise_some in H as (group & [i Hg]%list_elem_of_lookup & H).
          destruct (strip_after_reconcile fs groups images i group Hopen Hslots Hg)
            as (padded & _ & _ & Heq).
          rewrite Hmh, Hmw, Heq in H.
          apply bind_Raise in H as [H|(a & _ & H)]; [|discriminate].
          apply hstack_raise_only in H. exact H.
        - right. apply bind_Raise in H as [H|(a & _ & H)]; [|discriminate].
          apply vstack_raise_only in H. exact H. }
      split; [destruct He as [->| ->]; discriminate|]. split; [|eauto].
      intros [->| ->]; destruct He; discriminate.
  - intros mh mw group path Hrec [i Hg]%list_elem_of_lookup Hp.
    destruct (reconcile_Ok_inv _ _ _ _ Hrec) as (images & Hopen & Hslots & Htab).
    assert (Hmh : mh = (tables_of images).1) by (rewrite Htab; reflexivity).
    assert (Hmw : mw = (tables_of images).2) by (rewrite Htab; reflexivity).
    destruct (open_all_tile _ _ _ _ _ _ Hopen Hg Hp) as (t & Ht & Hit).
    destruct (targets_after_reconcile images i t Hit Hslots)
      as (c & th & tw & Hc & Hth & Htw & Hth0 & Htw0).
    rewrite <- Hmh in Hth. rewrite <- Hmw in Htw.
    pose proof (pad_image_lookup black t mh mw c th tw Hc Hth Htw) as Hpad.
    exists t, c, th, tw.
    repeat (split; [assumption|]).
    rewrite Hpad.
    destruct (padding (width t) (height t) tw th) as [[[pl pt] pr] pb] eqn:Hpd.
    destruct (padding_sum _ _ _ _ _ _ _ _ Hpd) as [Hsw Hsh].
    rewrite expand_Ok by lia. split; discriminate.
Qed.

(** X7: what a successful [merge] tells.  There is at least one group and no
    group is empty; every file opens and its name carries a row coordinate
    that denotes a position of the tables, negative numbers counting from
    the end; and the image returned is well formed: as many lines as its
    height, each as long as its width. *)
Theorem merge_returns fs (groups : list (list string)) full :
  merge black fs groups = Ok full ->
  groups <> [] /\ ([] ∉ groups)
  /\ (forall group path, group ∈ groups -> path ∈ group ->
        exists t coord_y,
          Image_open fs path = Ok t /\ image_row t = Ok coord_y
          /\ - Z.of_nat (length groups) <= coord_y < Z.of_nat (length groups))
  /\ wf_image full.
Proof.
  intros Hm. pose proof Hm as Hm'. unfold merge in Hm'.
  apply bind_Ok in Hm' as ([mh mw] & Hrec & H).
  apply bind_Ok in H as (parts & Hparts & H).
  apply bind_Ok in H as (a & Hv & [= <-]).
  destruct (reconcile_Ok_inv _ _ _ _ Hrec) as (images & Hopen & Hslots & Htab).
  pose proof (open_all_length _ _ _ Hopen) as Hlen.
  assert (Hmh : mh = (tables_of images).1) by (rewrite Htab; reflexivity).
  assert (Hmw : mw = (tables_of images).2) by (rewrite Htab; reflexivity).
  pose proof (vstack_Ok_inv _ _ Hv) as [Hne Hcols].
  assert (Hwf : Forall wf_image parts).
  { apply Forall_lookup. intros i part Hi.
    destruct (mapM_Ok_lookup_r _ _ _ _ _ Hparts Hi) as (group & Hg & Hs).
    destruct (strip_after_reconcile fs groups images i group Hopen Hslots Hg)
      as (padded & Hpw & _ & Heq).
    rewrite Hmh, Hmw, Heq in Hs. apply (strip_wf padded part Hpw Hs). }
  split; [|split; [|split]].
  - intros ->. simpl in Hparts. injection Hparts as <-. apply Hne. reflexivity.
  - intros Hin. pose proof (merge_empty_group black fs groups Hin) as Hr.
    rewrite Hm in Hr. exact Hr.
  - intros group path [i Hg]%list_elem_of_lookup Hp.
    destruct (open_all_tile _ _ _ _ _ _ Hopen Hg Hp) as (t & Ht & Hit).
    destruct (proj1 (Forall_forall _ _) Hslots _ Hit) as [k Hk]. simpl in Hk.
    apply slot_Some in Hk as (c & Hc & Hkc). apply py_index_range in Hkc.
    exists t, c. rewrite <- Hlen. auto.
  - apply wf_fromarray.
    assert (Ha : a = NDArray (total_rows (map asarray parts)) (cols a)
                       (concat (map cells (map asarray parts)))).
    { pose proof (vstack_same (map asarray parts) (cols a) Hne Hcols) as Hv'.
      rewrite Hv in Hv'. injection Hv' as Hv'. exact Hv'. }
    rewrite Ha. apply vstack_wf; [| exact Hcols |].
    + apply Forall_fmap. eapply Forall_impl; [exact Hwf|]. intros t Ht. exact Ht.
    + destruct parts as [|p parts]; [simpl in Hne; congruence|].
      apply Forall_cons in Hwf as [(Hw0 & _) _].
      apply Forall_cons in Hcols as [Hp _]. simpl in Hp. lia.
Qed.

Lemma total_rows_strips (parts : list (@Image pixel)) images :
  Forall2 (fun part ts => height part = max_of (map height ts)) parts images ->
  total_rows (map asarray parts)
  = foldr Z.add 0 (map (fun ts => max_of (map height ts)) images).
Proof.
  unfold total_rows.
  induction 1 as [|part ts parts images Hp _ IH]; simpl; [reflexivity|].
  rewrite Hp, IH. reflexivity.
Qed.

(** X8: tiles of any sizes, rows contiguous from 0, no empty group, and
    every row as wide as the others once its tiles are padded to its
    widest: [merge] returns an image of that width whose height is the sum,
    over the rows, of the height of the highest tile of the row. *)
Theorem merge_aligned_size fs (groups : list (list string)) images (W : Z) :
  open_all fs groups = Ok images ->
  aligned images ->
  groups <> [] ->
  Forall (fun ts => ts <> []) images ->
  Forall (fun ts => Z.of_nat (length ts) * max_of (map width ts) = W) images ->
  exists full,
    merge black fs groups = Ok full
    /\ width full = W
    /\ height full = foldr Z.add 0 (map (fun ts => max_of (map height ts)) images)
    /\ wf_image full.
Proof.
  intros Hopen Hal Hgne Hne HW.
  pose proof (open_all_length _ _ _ Hopen) as Hleni.
  destruct (merge_strips black fs groups images Hopen Hal Hne)
    as (Hrec & parts & Hparts & Hlen & Hpart).
  rewrite (merge_unfold black fs groups _ _ parts Hrec Hparts).
  assert (Hall : Forall2 (fun part ts =>
                   height part = max_of (map height ts)
                   /\ width part = W /\ wf_image part) parts images).
  { apply Forall2_same_length_lookup_2; [congruence|].
    intros i part ts Hi Hts. destruct (Hpart i ts part Hts Hi) as (Hh & Hw & Hwf).
    split; [exact Hh|]. split; [|exact Hwf].
    rewrite Hw. apply (Forall_lookup_1 _ _ _ _ HW Hts). }
  assert (Hboth : Forall (fun part => width part = W /\ wf_image part) parts).
  { clear -Hall. induction Hall as [|part ts parts images (_ & Hw & Hwf) _ IH];
      constructor; auto. }
  assert (Hcols : Forall (fun b => cols b = W) (map asarray parts)).
  { apply Forall_fmap. eapply Forall_impl; [exact Hboth|].
    intros part (Hw & _). exact Hw. }
  assert (Hwfs : Forall wf_array (map asarray parts)).
  { apply Forall_fmap. eapply Forall_impl; [exact Hboth|].
    intros part (_ & Hwf). exact Hwf. }
  assert (Hpne : map asarray parts <> []).
  { destruct parts; [|discriminate]. destruct groups; [congruence|discriminate]. }
  rewrite (vstack_same _ W Hpne Hcols). cbn [mbind result_bind].
  eexists. split; [reflexivity|]. split; [reflexivity|]. split.
  - simpl. apply total_rows_strips.
    eapply Forall2_impl; [exact Hall|]. intros part ts (Hh & _). exact Hh.
  - apply wf_fromarray, vstack_wf; [exact Hwfs|exact Hcols|].
    destruct images as [|ts images]; [destruct groups; [congruence|discriminate]|].
    apply Forall_cons in HW as [<- _]. pose proof (max_of_nonneg (map width ts)). nia.
Qed.

End MergeOutcome.

(** ** [pad_image] with a target below the size of the tile *)

Section NegativePadding.

Context {pixel : Type} (black : @Image pixel -> pixel).
Implicit Types (image out : @Image pixel).

Lemma expand_negative image pad_left pad_top pad_right pad_bottom :
  pad_left + width image + pad_right < 0 \/ pad_top + height image + pad_bottom < 0 ->
  expand black image (pad_left, pad_top, pad_right, pad_bottom)
  = Raise (ValueError by_new).
Proof.
  intros H. unfold expand.
  destruct (pad_left + width image + pad_right <? 0) eqn:H1; [reflexivity|].
  destruct (pad_top + height image + pad_bottom <? 0) eqn:H2; [reflexivity|].
  apply Z.ltb_ge in H1, H2. lia.
Qed.

(** X9: [pad_image] does not refuse a target that is smaller than the tile.
    A negative target makes [Image.new] raise [ValueError]; any other target
    gives an image of exactly the target size, which is the tile cut (and
    filled with black where it does not reach) around its centre: with a
    target no larger than the tile, every pixel of the result is the pixel
    of the tile [-pad_left] columns to the right and [-pad_top] lines
    below, and the rest of the tile is lost without an error. *)
Theorem pad_image_smaller_target image (max_heights max_widths : list Z) coord_y
    target_height target_width :
  wf_image image ->
  image_row image = Ok coord_y ->
  getitem max_heights coord_y = Ok target_height ->
  getitem max_widths coord_y = Ok target_width ->
  let pad_top := (target_height - height image) `div` 2 in
  let pad_left := (target_width - width image) `div` 2 in
  (target_height < 0 \/ target_width < 0 ->
   pad_image black image max_heights max_widths = Raise (ValueError by_new))
  /\ (0 <= target_height -> 0 <= target_width ->
      exists out,
        pad_image black image max_heights max_widths = Ok out
        /\ width out = target_width /\ height out = target_height
        /\ pixels out
           = pixels (crop black image (- pad_left) (- pad_top)
                          target_width target_height)
        /\ (target_height <= height image -> target_width <= width image ->
            0 <= - pad_left /\ - pad_left + target_width <= width image
            /\ 0 <= - pad_top /\ - pad_top + target_height <= height image
            /\ forall x y, 0 <= x < target_width -> 0 <= y < target_height ->
                 getpixel out x y = getpixel image (x - pad_left) (y - pad_top))).
Proof.
  intros Hwf Hrow Hth Htw pad_top pad_left.
  rewrite (pad_image_lookup black image _ _ coord_y target_height target_width
             Hrow Hth Htw).
  destruct (padding (width image) (height image) target_width target_height)
    as [[[pl pt] pr] pb] eqn:Hp.
  destruct (padding_sum _ _ _ _ _ _ _ _ Hp) as [Hsw Hsh].
  assert (Hpl : pl = pad_left)
    by (unfold padding in Hp; injection Hp as Hl _ _ _; symmetry; exact Hl).
  assert (Hpt : pt = pad_top)
    by (unfold padding in Hp; injection Hp as _ Ht _ _; symmetry; exact Ht).
  split.
  - intros Hneg. apply expand_negative. lia.
  - intros Hh Hw.
    destruct (expand_spec black image pl pt pr pb _ (expand_Ok black image pl pt pr pb
                ltac:(lia) ltac:(lia))) as (Hwo & Hho & _ & Hpix).
    rewrite expand_Ok by lia. eexists. split; [reflexivity|].
    split; [simpl; lia|]. split; [simpl; lia|]. split.
    + simpl. rewrite Hsw, Hsh, Hpl, Hpt.
      apply map_ext. intros y. apply map_ext. intros x.
      do 2 f_equal; lia.
    + intros Hhle Hwle.
      assert (Hbl : 0 <= - pad_left /\ - pad_left + target_width <= width image).
      { subst pad_left. clear -Hwle.
        pose proof (Z.div_mod (target_width - width image) 2 ltac:(lia)).
        pose proof (Z.mod_pos_bound (target_width - width image) 2 ltac:(lia)). lia. }
      assert (Hbt : 0 <= - pad_top /\ - pad_top + target_height <= height image).
      { subst pad_top. clear -Hhle.
        pose proof (Z.div_mod (target_height - height image) 2 ltac:(lia)).
        pose proof (Z.mod_pos_bound (target_height - height image) 2 ltac:(lia)). lia. }
      split; [apply Hbl|]. split; [apply Hbl|]. split; [apply Hbt|]. split; [apply Hbt|].
      intros x y Hx Hy. simpl in Hwo, Hho.
      rewrite Hpix by (simpl; lia). rewrite Hpl, Hpt.
      destruct (getpixel_wf image (x - pad_left) (y - pad_top) Hwf) as [p Hpx];
        [lia|lia|].
      rewrite Hpx. reflexivity.
Qed.

End NegativePadding.

(** ** The extension and the name of the output file in [main] *)

Section MainNames.

Implicit Types (s t u v w r c ext dir base stem image : string) (a b x y : ascii).

#[local] Arguments String.append !_ _ / : simpl nomatch.

Lemma drop_app s t : Str.drop (String.length s) (s +:+ t) = t.
Proof. induction s as [|a s IH]; simpl; [destruct t; reflexivity|exact IH]. Qed.

Lemma drop_inv s : forall n t,
  (n <= String.length s)%nat -> Str.drop n s = t -> exists u, s = u +:+ t.
Proof.
  induction s as [|a s IH]; intros n t Hn Hd.
  - exists "". destruct n; simpl in Hd; subst t; reflexivity.
  - destruct n as [|n]; simpl in Hd.
    + exists "". subst t. reflexivity.
    + simpl in Hn. destruct (IH n t ltac:(lia) Hd) as [u ->].
      exists (String a u). reflexivity.
Qed.

Lemma endswith_app s t : Str.endswith (s +:+ t) t = true.
Proof.
  unfold Str.endswith. rewrite str_length_app.
  apply andb_true_iff. split; [apply Nat.leb_le; lia|].
  replace (String.length s + String.length t - String.length t)%nat
    with (String.length s) by lia.
  rewrite drop_app. apply String.eqb_refl.
Qed.

Lemma endswith_inv s t : Str.endswith s t = true -> exists u, s = u +:+ t.
Proof.
  unfold Str.endswith. intros [Hle Heq]%andb_true_iff.
  apply Nat.leb_le in Hle. apply String.eqb_eq in Heq.
  apply (drop_inv s (String.length s - String.length t) t); [lia|exact Heq].
Qed.

Lemma last_field s ext :
  Str.all (fun ch => negb (Ascii.eqb ch ".")) ext = true ->
  getitem (Str.split "." (s +:+ String "." ext)) (-1) = Ok ext.
Proof.
  intros He. rewrite split_app_sep, (split_none "." ext He). apply getitem_last.
Qed.

(** X10: [check_image_file] accepts exactly the names that end with a dot
    and one of the six extensions, in lower case; for such a name, with any
    directory in front, the [split(".")[-1]] of [main] is that extension,
    and the path ends with it, so that it passes the test of
    [group_images]. *)
Theorem image_file_extension image :
  (check_image_file image = true
   <-> exists stem ext, image = stem +:+ "." +:+ ext
         /\ In ext ["jpg"; "jpeg"; "tif"; "bmp"; "png"; "gif"])
  /\ (check_image_file image = true ->
      exists ext, In ext ["jpg"; "jpeg"; "tif"; "bmp"; "png"; "gif"]
        /\ forall dir,
             getitem (Str.split "." (dir +:+ image)) (-1) = Ok ext
             /\ Str.endswith (dir +:+ image) ext = true).
Proof.
  assert (Hiff : check_image_file image = true
                 <-> exists stem ext, image = stem +:+ "." +:+ ext
                       /\ In ext ["jpg"; "jpeg"; "tif"; "bmp"; "png"; "gif"]).
  { unfold check_image_file. rewrite existsb_exists. split.
    - intros (sfx & Hin & [stem ->]%endswith_inv). simpl in Hin.
      destruct Hin as [<-|[<-|[<-|[<-|[<-|[<-|[]]]]]]]; eexists stem, _;
        (split; [reflexivity|]); simpl; tauto.
    - intros (stem & ext & -> & Hin). exists ("." +:+ ext).
      split; [|apply endswith_app].
      simpl in Hin. destruct Hin as [<-|[<-|[<-|[<-|[<-|[<-|[]]]]]]]; simpl; tauto. }
  split; [exact Hiff|].
  intros (stem & ext & -> & Hin)%Hiff. exists ext. split; [exact Hin|].
  intros dir. change ("." +:+ ext) with (String "." ext).
  rewrite <- !str_app_assoc. split.
  - apply last_field.
    simpl in Hin. destruct Hin as [<-|[<-|[<-|[<-|[<-|[<-|[]]]]]]]; reflexivity.
  - change (String "." ext) with ("." +:+ ext). rewrite <- str_app_assoc.
    apply endswith_app.
Qed.

Lemma prefix_inv s : forall t, String.prefix s t = true -> exists u, t = s +:+ u.
Proof.
  induction s as [|a s IH]; intros t H.
  - exists t. reflexivity.
  - destruct t as [|b t]; [discriminate|]. simpl in H.
    destruct (ascii_dec a b) as [->|]; [|discriminate].
    destruct (IH t H) as [u ->]. exists u. reflexivity.
Qed.

(** Two ways of cutting a string at the first character that fails [f]. *)
Lemma str_first_failing f s : forall u x t y v,
  s +:+ String x t = u +:+ String y v ->
  Str.all f s = true -> Str.all f u = true -> f x = false -> f y = false ->
  s = u.
Proof.
  induction s as [|a s IH]; intros u x t y v Heq Hs Hu Hx Hy.
  - destruct u as [|b u]; [reflexivity|]. simpl in Heq, Hu.
    injection Heq as -> _. apply andb_true_iff in Hu as [Hb _]. congruence.
  - simpl in Hs. apply andb_true_iff in Hs as [Ha Hs].
    destruct u as [|b u]; simpl in Heq.
    + injection Heq as -> _. congruence.
    + simpl in Hu. apply andb_true_iff in Hu as [_ Hu].
      injection Heq as -> Heq. f_equal. apply (IH u x t y v); assumption.
Qed.

Lemma digit_not_dot ch : Str.is_digit ch = true -> negb (Ascii.eqb ch ".") = true.
Proof.
  intros H. apply negb_true_iff, Ascii.eqb_neq. intros ->. discriminate.
Qed.

(** The suffix of a tile does not start inside a base name without a dot. *)
Lemma no_early_suffix r c ext : forall base,
  Str.all Str.is_digit r = true -> Str.all Str.is_digit c = true ->
  Str.all (fun ch => negb (Ascii.eqb ch ".")) base = true ->
  Str.occurs_before (String.length base) (tile_suffix r c ext)
                    (base +:+ tile_suffix r c ext) = false.
Proof.
  intros base Hr Hc. induction base as [|b base IH]; intros Hb; [reflexivity|].
  simpl in Hb. apply andb_true_iff in Hb as [Hb0 Hb].
  change (Str.occurs_before (String.length (String b base)) (tile_suffix r c ext)
            (String b base +:+ tile_suffix r c ext))
    with (String.prefix (tile_suffix r c ext) (String b base +:+ tile_suffix r c ext)
          || Str.occurs_before (String.length base) (tile_suffix r c ext)
               (base +:+ tile_suffix r c ext)).
  rewrite (IH Hb), orb_false_r.
  destruct (String.prefix _ _) eqn:Hp; [|reflexivity]. exfalso.
  apply prefix_inv in Hp as [u Hu].
  set (stem := String "_" (r +:+ String "_" c)).
  assert (Hstem : Str.all (fun ch => negb (Ascii.eqb ch ".")) stem = true).
  { unfold stem. simpl. rewrite str_all_app. simpl.
    rewrite (str_all_impl _ _ r digit_not_dot Hr), (str_all_impl _ _ c digit_not_dot Hc).
    reflexivity. }
  assert (Hsfx : forall t, tile_suffix r c ext +:+ t = stem +:+ String "." (ext +:+ t)).
  { intros t. rewrite tile_suffix_app. unfold stem. simpl.
    rewrite !str_app_assoc. reflexivity. }
  rewrite <- (str_app_nil_r (tile_suffix r c ext)) in Hu at 1.
  rewrite !Hsfx, <- str_app_assoc in Hu.
  apply (str_first_failing (fun ch => negb (Ascii.eqb ch "."))) in Hu;
    [| |exact Hstem|reflexivity|reflexivity].
  - apply (f_equal String.length) in Hu. rewrite str_length_app in Hu.
    simpl in Hu. lia.
  - rewrite str_all_app, Hstem. simpl. rewrite Hb0, Hb. reflexivity.
Qed.

(** X11: when the first image is [<dir><base>_<r>_<c>.<ext>] (digits [r] and
    [c], letters [ext], none of them empty) and [base] has neither a slash
    nor a dot, the name [main] saves under is [<base>_merged.<ext>],
    whatever the directory and the other images are. *)
Theorem merged_name_plain dir base r c ext (others : list string) :
  r <> "" -> Str.all Str.is_digit r = true ->
  c <> "" -> Str.all Str.is_digit c = true ->
  ext <> "" -> Str.all Str.is_alpha ext = true ->
  Str.all (fun ch => negb (Ascii.eqb ch "/")) base = true ->
  Str.all (fun ch => negb (Ascii.eqb ch ".")) base = true ->
  dir = "" \/ (exists d, dir = d +:+ "/") ->
  merged_name ((dir +:+ base +:+ tile_suffix r c ext) :: others)
  = Ok (base +:+ "_merged." +:+ ext).
Proof.
  intros Hr Hrd Hc Hcd He Hea Hslash Hdot Hdir.
  apply (merged_name_suffix dir base r c ext others); try assumption.
  apply no_early_suffix; assumption.
Qed.

Lemma findall_no_underscore ext s : forall k,
  Str.all (fun ch => negb (Ascii.eqb ch "_")) s = true ->
  Re.findall_from (tile_suffix_pattern ext) k s = [].
Proof.
  induction s as [|a s IH]; intros k Hs; [reflexivity|].
  simpl in Hs. apply andb_true_iff in Hs as [Ha Hs].
  apply negb_true_iff in Ha.
  destruct k as [|k]; [|apply IH, Hs].
  change (Re.findall_from (tile_suffix_pattern ext) 0 (String a s))
    with (match (if Ascii.eqb "_" a
                 then S <$> Re.match_here (tl (tile_suffix_pattern ext)) s
                 else None) with
          | Some n => Re.take n (String a s)
                      :: Re.findall_from (tile_suffix_pattern ext) (n - 1) s
          | None => Re.findall_from (tile_suffix_pattern ext) 0 s
          end).
  rewrite Ascii.eqb_sym, Ha. apply IH, Hs.
Qed.

Lemma getitem_last_Ok {A} (l : list A) : l <> [] -> exists el, getitem l (-1) = Ok el.
Proof.
  intros Hne. destruct (exists_last Hne) as (l' & el & ->).
  exists el. apply getitem_last.
Qed.

(** X12: working out the name of the output file fails with [IndexError]
    and with nothing else: on a directory that lists no image file, and on
    a first image whose path has no underscore, since the pattern then
    finds no match to take the last of.  Both happen in [main] before
    anything is grouped or merged. *)
Theorem merged_name_fails :
  (forall all_images e, merged_name all_images = Raise e -> e = IndexError)
  /\ merged_name [] = Raise IndexError
  /\ (forall first others,
        Str.all (fun ch => negb (Ascii.eqb ch "_")) first = true ->
        merged_name (first :: others) = Raise IndexError).
Proof.
  split; [|split].
  - intros all_images e. unfold merged_name.
    intros [H|(first & _ & H)]%bind_Raise; [apply getitem_raise in H; exact H|].
    apply bind_Raise in H as [H|(ext & _ & H)]; [apply getitem_raise in H; exact H|].
    apply bind_Raise in H as [H|(sfx & _ & H)]; [apply getitem_raise in H; exact H|].
    discriminate.
  - reflexivity.
  - intros first others Hf. unfold merged_name.
    change (getitem (first :: others) 0) with (Ok first : result string).
    cbn [mbind result_bind].
    destruct (getitem_last_Ok (Str.split "." first) (split_nonempty "." first))
      as [ext ->].
    cbn [mbind result_bind]. unfold Re.findall.
    rewrite findall_no_underscore by exact Hf. reflexivity.
Qed.

End MainNames.

(** ** Where [merge] puts the pixels of a tile *)

Section Placement.

Context {pixel : Type} (black : @Image pixel -> pixel).
Implicit Types (image t out part full : @Image pixel).
Implicit Types (images : list (list (@Image pixel))).
Implicit Types (fs : @filesystem pixel) (arrays : list (@ndarray pixel)).

Lemma length_concat_same {A} (ls : list (list A)) (n : nat) :
  Forall (fun l => length l = n) ls -> length (concat ls) = (length ls * n)%nat.
Proof.
  induction 1 as [|l ls Hl _ IH]; simpl; [reflexivity|].
  rewrite length_app, Hl, IH. reflexivity.
Qed.

Lemma lookup_concat_at {A} (ls : list (list A)) (i : nat) (l : list A) (y : nat) :
  ls !! i = Some l -> (y < length l)%nat ->
  concat ls !! (length (concat (take i ls)) + y)%nat = l !! y.
Proof.
  intros Hi Hy. pose proof (take_drop_middle ls i l Hi) as Hcut.
  set (before := take i ls) in *. set (after := drop (S i) ls) in *.
  rewrite <- Hcut, concat_app. simpl.
  rewrite lookup_app_r by lia.
  replace (length (concat before) + y - length (concat before))%nat with y by lia.
  apply lookup_app_l, Hy.
Qed.

(** Line [y] of arrays put side by side: their lines [y], one after the
    other. *)
Lemma side_by_side_line (n : nat) arrays (y : nat) :
  (y < n)%nat ->
  Forall (fun b => length (cells b) = n) arrays ->
  side_by_side n arrays !! y
  = Some (concat (map (fun b => default [] (cells b !! y)) arrays)).
Proof.
  intros Hy. unfold side_by_side.
  induction 1 as [|b arrays Hb _ IH]; simpl.
  - apply lookup_replicate_2, Hy.
  - rewrite lookup_zip_with, IH.
    destruct (lookup_lt_is_Some_2 (cells b) y) as [line Hline]; [lia|].
    rewrite Hline. reflexivity.
Qed.

(** A tile inside its padded copy, and black around it. *)
Lemma pad_image_pixels t (max_heights max_widths : list Z) i th tw out :
  image_row t = Ok (Z.of_nat i) ->
  max_heights !! i = Some th -> max_widths !! i = Some tw ->
  height t <= th -> width t <= tw ->
  pad_image black t max_heights max_widths = Ok out ->
  0 <= (tw - width t) `div` 2 /\ (tw - width t) `div` 2 + width t <= tw
  /\ 0 <= (th - height t) `div` 2 /\ (th - height t) `div` 2 + height t <= th
  /\ forall x y, 0 <= x < tw -> 0 <= y < th ->
       getpixel out x y
       = Some (default (black t) (getpixel t (x - (tw - width t) `div` 2)
                                         (y - (th - height t) `div` 2))).
Proof.
  intros Hrow Hth Htw Hh Hw Hout.
  rewrite (pad_image_lookup black t _ _ (Z.of_nat i) th tw Hrow
             (getitem_nat _ _ _ Hth) (getitem_nat _ _ _ Htw)) in Hout.
  destruct (padding (width t) (height t) tw th) as [[[pl pt] pr] pb] eqn:Hp.
  destruct (padding_sum _ _ _ _ _ _ _ _ Hp) as [Hsw Hsh].
  destruct (padding_nonneg _ _ _ _ _ _ _ _ Hp Hw Hh) as (Hl0 & Ht0 & Hr0 & Hb0).
  assert (Hpl : pl = (tw - width t) `div` 2)
    by (unfold padding in Hp; injection Hp as Hl _ _ _; symmetry; exact Hl).
  assert (Hpt : pt = (th - height t) `div` 2)
    by (unfold padding in Hp; injection Hp as _ Ht _ _; symmetry; exact Ht).
  destruct (expand_spec black t pl pt pr pb out Hout) as (Hwo & Hho & _ & Hpix).
  rewrite <- Hpl, <- Hpt.
  split; [lia|]. split; [lia|]. split; [lia|]. split; [lia|].
  intros x y Hx Hy. apply Hpix; lia.
Qed.

Lemma getpixel_lookup image x y p :
  getpixel image x y = Some p ->
  0 <= x < width image /\ 0 <= y < height image
  /\ exists line, pixels image !! Z.to_nat y = Some line
                  /\ line !! Z.to_nat x = Some p.
Proof.
  unfold getpixel.
  destruct ((0 <=? x) && (x <? width image) && (0 <=? y) && (y <? height image))
    eqn:Hin; [|discriminate].
  apply andb_true_iff in Hin as [Hin Hy2]. apply andb_true_iff in Hin as [Hin Hy1].
  apply andb_true_iff in Hin as [Hx1 Hx2].
  apply Z.leb_le in Hx1, Hy1. apply Z.ltb_lt in Hx2, Hy2.
  intros (line & Hline & Hp)%bind_Some. split; [lia|]. split; [lia|]. eauto.
Qed.

(** The strip of a group, with the padded tiles it is made of. *)
Lemma strip_of_group_cells fs (max_heights max_widths : list Z) (group : list string)
    (ts : list (@Image pixel)) i th tw :
  mapM (Image_open fs) group = Ok ts ->
  ts <> [] ->
  Forall (fun t => image_row t = Ok (Z.of_nat i)) ts ->
  max_heights !! i = Some th -> max_widths !! i = Some tw ->
  0 <= th -> 0 <= tw ->
  exists padded,
    mapM (fun image => pad_image black image max_heights max_widths) ts = Ok padded
    /\ Forall (fun out => height out = th /\ width out = tw /\ wf_image out) padded
    /\ strip_of black fs max_heights max_widths group
       = Ok (fromarray (NDArray th (total_cols (map asarray padded))
                          (side_by_side (Z.to_nat th) (map asarray padded)))).
Proof.
  intros Hopen Hne Hrows Hth Htw Hh Hw.
  destruct (mapM_lookup_Ok
              (fun image => pad_image black image max_heights max_widths) ts
              (fun _ _ out => height out = th /\ width out = tw /\ wf_image out))
    as (padded & Hpad & Hlen & Hpadded).
  { intros k t Hk.
    apply (pad_image_target black t _ _ i); try assumption.
    apply (Forall_lookup_1 _ _ _ _ Hrows Hk). }
  assert (Hall : Forall (fun out => height out = th /\ width out = tw /\ wf_image out)
                        padded).
  { apply Forall_lookup. intros k out Hk.
    destruct (lookup_lt_is_Some_2 ts k) as [t Ht].
    { rewrite <- Hlen. eapply lookup_lt_Some, Hk. }
    apply (Hpadded k t out Ht Hk). }
  exists padded. split; [exact Hpad|]. split; [exact Hall|].
  unfold strip_of. rewrite Hopen. cbn [mbind result_bind]. rewrite Hpad.
  cbn [mbind result_bind].
  rewrite (hstack_same (map asarray padded) th); [reflexivity| |].
  - destruct padded; [|discriminate]. destruct ts; [congruence|discriminate].
  - apply Forall_fmap. eapply Forall_impl; [exact Hall|]. intros out (Ho & _). exact Ho.
Qed.

(** One pixel of a strip: tile [j] starts [j * tw] columns from the left. *)
Lemma strip_pixel (padded : list (@Image pixel)) (th tw : Z) (j : nat) out
    (x y : Z) (p : pixel) :
  Forall (fun out => height out = th /\ width out = tw /\ wf_image out) padded ->
  padded !! j = Some out ->
  getpixel out x y = Some p ->
  exists line,
    side_by_side (Z.to_nat th) (map asarray padded) !! Z.to_nat y = Some line
    /\ line !! Z.to_nat (Z.of_nat j * tw + x) = Some p.
Proof.
  intros Hall Hj Hp.
  destruct (Forall_lookup_1 _ _ _ _ Hall Hj) as (Hho & Hwo & _).
  apply getpixel_lookup in Hp as (Hx & Hy & line & Hline & Hpx).
  rewrite Hho in Hy. rewrite Hwo in Hx.
  eexists. split.
  - apply side_by_side_line; [lia|].
    apply Forall_fmap. eapply Forall_impl; [exact Hall|].
    intros o (Ho & _ & (_ & _ & Hlen & _)). simpl. rewrite Hlen, Ho. reflexivity.
  - set (lines := map (fun b : @ndarray pixel => default [] (cells b !! Z.to_nat y))
                      (map asarray padded)).
    assert (Hlines : Forall (fun l => length l = Z.to_nat tw) lines).
    { unfold lines. apply Forall_fmap, Forall_fmap.
      eapply Forall_impl; [exact Hall|].
      intros o (Ho & Hw & (_ & _ & Hlen & Hls)). simpl.
      destruct (lookup_lt_is_Some_2 (pixels o) (Z.to_nat y)) as [l Hl]; [lia|].
      rewrite Hl. simpl. rewrite <- Hw. apply (Forall_lookup_1 _ _ _ _ Hls Hl). }
    assert (Hlj : lines !! j = Some line).
    { unfold lines. change (map ?f ?l) with (f <$> l).
      rewrite !list_lookup_fmap, Hj. simpl. rewrite Hline. reflexivity. }
    assert (Hpre : length (concat (take j lines)) = (j * Z.to_nat tw)%nat).
    { rewrite (length_concat_same _ (Z.to_nat tw)) by (apply Forall_take, Hlines).
      rewrite length_take_le; [reflexivity|].
      apply lookup_lt_Some in Hlj. lia. }
    replace (Z.to_nat (Z.of_nat j * tw + x))
      with (length (concat (take j lines)) + Z.to_nat x)%nat by (rewrite Hpre; nia).
    rewrite (lookup_concat_at lines j line); [exact Hpx|exact Hlj|].
    apply lookup_lt_Some in Hpx. exact Hpx.
Qed.

(** One pixel of the stack: strip [i] starts below the strips before it. *)
Lemma vstack_pixel arrays (c : Z) (i : nat) (a : @ndarray pixel) (y : nat) :
  Forall wf_array arrays ->
  Forall (fun b => cols b = c) arrays ->
  arrays !! i = Some a ->
  (y < Z.to_nat (rows a))%nat ->
  concat (map cells arrays) !! (Z.to_nat (total_rows (take i arrays)) + y)%nat
  = cells a !! y.
Proof.
  intros Hwf Hcols Hi Hy.
  destruct (concat_wf (take i arrays) c (Forall_take _ _ _ Hwf) (Forall_take _ _ _ Hcols))
    as [Hlen _].
  rewrite <- Hlen.
  replace (map cells (take i arrays)) with (take i (map cells arrays))
    by apply firstn_map.
  apply lookup_concat_at.
  - change (map cells arrays) with (cells <$> arrays).
    rewrite list_lookup_fmap, Hi. reflexivity.
  - destruct (Forall_lookup_1 _ _ _ _ Hwf Hi) as (_ & _ & Hl & _). lia.
Qed.

(** The merged image, cell by cell. *)
Lemma merge_cells fs (groups : list (list string)) images (W : Z) :
  open_all fs groups = Ok images ->
  aligned images ->
  groups <> [] ->
  Forall (fun ts => ts <> []) images ->
  Forall (fun ts => Z.of_nat (length ts) * max_of (map width ts) = W) images ->
  exists full,
    merge black fs groups = Ok full
    /\ width full = W
    /\ height full = foldr Z.add 0 (map (fun ts => max_of (map height ts)) images)
    /\ forall i ts j t,
         images !! i = Some ts -> ts !! j = Some t ->
         forall x y,
           0 <= x < max_of (map width ts) -> 0 <= y < max_of (map height ts) ->
           getpixel full
             (Z.of_nat j * max_of (map width ts) + x)
             (foldr Z.add 0 (map (fun ts => max_of (map height ts)) (take i images)) + y)
           = Some (default (black t)
                     (getpixel t
                        (x - (max_of (map width ts) - width t) `div` 2)
                        (y - (max_of (map height ts) - height t) `div` 2))).
Proof.
  intros Hopen Hal Hgne Hne HW.
  pose proof (open_all_length _ _ _ Hopen) as Hleni.
  set (mh := map (fun g => max_of (map height g)) images).
  set (mw := map (fun g => max_of (map width g)) images).
  assert (Hrec : reconcile fs groups = Ok (mh, mw))
    by (apply reconcile_aligned; assumption).
  assert (Hmh : forall i ts, images !! i = Some ts ->
                  mh !! i = Some (max_of (map height ts))).
  { intros i ts Hts. subst mh. change (map ?f ?l) with (f <$> l) at 1.
    rewrite list_lookup_fmap, Hts. reflexivity. }
  assert (Hmw : forall i ts, images !! i = Some ts ->
                  mw !! i = Some (max_of (map width ts))).
  { intros i ts Hts. subst mw. change (map ?f ?l) with (f <$> l) at 1.
    rewrite list_lookup_fmap, Hts. reflexivity. }
  (* every strip, with its padded tiles *)
  destruct (mapM_lookup_Ok (strip_of black fs mh mw) groups
              (fun i _ part => forall ts, images !! i = Some ts ->
                 exists padded,
                   mapM (fun image => pad_image black image mh mw) ts = Ok padded
                   /\ Forall (fun out => height out = max_of (map height ts)
                                         /\ width out = max_of (map width ts)
                                         /\ wf_image out) padded
                   /\ part = fromarray
                               (NDArray (max_of (map height ts))
                                  (total_cols (map asarray padded))
                                  (side_by_side (Z.to_nat (max_of (map height ts)))
                                                (map asarray padded)))))
    as (parts & Hparts & Hlen & HQ).
  { intros i g Hg.
    destruct (mapM_Ok_lookup _ _ _ _ _ Hopen Hg) as (ts & Hts & Hog).
    destruct (strip_of_group_cells fs mh mw g ts i
                (max_of (map height ts)) (max_of (map width ts)))
      as (padded & Hpad & Hall & Hstrip); try assumption.
    - apply (Forall_lookup_1 _ _ _ _ Hne Hts).
    - apply Forall_forall. intros t Ht. apply Hal, tagged_elem. eauto.
    - apply Hmh, Hts.
    - apply Hmw, Hts.
    - apply max_of_nonneg.
    - apply max_of_nonneg.
    - eexists. split; [exact Hstrip|].
      intros ts' Hts'. rewrite Hts in Hts'. injection Hts' as <-.
      exists padded. auto. }
  assert (Hstrips : forall i ts part, images !! i = Some ts -> parts !! i = Some part ->
            exists padded,
              mapM (fun image => pad_image black image mh mw) ts = Ok padded
              /\ Forall (fun out => height out = max_of (map height ts)
                                    /\ width out = max_of (map width ts)
                                    /\ wf_image out) padded
              /\ part = fromarray
                          (NDArray (max_of (map height ts))
                             (total_cols (map asarray padded))
                             (side_by_side (Z.to_nat (max_of (map height ts)))
                                           (map asarray padded)))).
  { intros i ts part Hts Hpart.
    destruct (lookup_lt_is_Some_2 groups i) as [g Hg].
    { rewrite <- Hlen. eapply lookup_lt_Some, Hpart. }
    apply (HQ i g part Hg Hpart ts Hts). }
  assert (Hall : Forall2 (fun part ts =>
                   height part = max_of (map height ts)
                   /\ width part = W /\ wf_image part) parts images).
  { apply Forall2_same_length_lookup_2; [congruence|].
    intros i part ts Hi Hts.
    destruct (Hstrips i ts part Hts Hi) as (padded & Hpad & Hpadded & ->).
    assert (Hlp : length padded = length ts) by (apply (mapM_Ok_length _ _ _ Hpad)).
    split; [reflexivity|]. split.
    - simpl. rewrite (total_cols_same _ (max_of (map width ts))).
      + rewrite length_map, Hlp. apply (Forall_lookup_1 _ _ _ _ HW Hts).
      + apply Forall_fmap. eapply Forall_impl; [exact Hpadded|].
        intros o (_ & Ho & _). exact Ho.
    - apply wf_fromarray, hstack_wf.
      + destruct padded; [|discriminate].
        pose proof (Forall_lookup_1 _ _ _ _ Hne Hts) as Hn.
        destruct ts; [congruence|discriminate].
      + apply Forall_fmap. eapply Forall_impl; [exact Hpadded|].
        intros o (_ & _ & Ho). exact Ho.
      + apply Forall_fmap. eapply Forall_impl; [exact Hpadded|].
        intros o (Ho & _). exact Ho. }
  assert (Hboth : Forall (fun part => width part = W /\ wf_image part) parts).
  { clear -Hall. induction Hall as [|part ts parts images (_ & Hw & Hwf) _ IH];
      constructor; auto. }
  assert (Hcols : Forall (fun b => cols b = W) (map asarray parts)).
  { apply Forall_fmap. eapply Forall_impl; [exact Hboth|].
    intros part (Hw & _). exact Hw. }
  assert (Hwfs : Forall wf_array (map asarray parts)).
  { apply Forall_fmap. eapply Forall_impl; [exact Hboth|].
    intros part (_ & Hwf). exact Hwf. }
  assert (Hpne : map asarray parts <> []).
  { destruct parts; [|discriminate]. destruct groups; [congruence|discriminate]. }
  rewrite (merge_unfold black fs groups _ _ parts Hrec Hparts).
  rewrite (vstack_same _ W Hpne Hcols). cbn [mbind result_bind].
  eexists. split; [reflexivity|]. split; [reflexivity|]. split.
  { cbn [height fromarray rows]. apply total_rows_strips.
    eapply Forall2_impl; [exact Hall|]. intros q qs (Hq & _). exact Hq. }
  intros i ts j t Hts Hj.
  set (th := max_of (map height ts)).
  set (tw := max_of (map width ts)).
  set (top := foldr Z.add 0 (map (fun ts => max_of (map height ts)) (take i images))).
  (* the tile, its padded copy and its strip *)
  destruct (lookup_lt_is_Some_2 parts i) as [part Hpart].
  { rewrite Hlen, <- Hleni. eapply lookup_lt_Some, Hts. }
  destruct (Hstrips i ts part Hts Hpart) as (padded & Hpad & Hpadded & Heq).
  destruct (mapM_Ok_lookup _ _ _ _ _ Hpad Hj) as (out & Hout & Hpo).
  assert (Hin : t ∈ ts) by (apply list_elem_of_lookup; eauto).
  assert (Hhle : height t <= th).
  { apply above_elem, list_elem_of_fmap. eauto. }
  assert (Hwle : width t <= tw).
  { apply above_elem, list_elem_of_fmap. eauto. }
  destruct (pad_image_pixels t mh mw i th tw out) as (Hl0 & Hl1 & Ht0 & Ht1 & Hpix);
    [apply Hal, tagged_elem; eauto | apply Hmh, Hts | apply Hmw, Hts
    | exact Hhle | exact Hwle | exact Hpo |].
  (* the strip in the stack *)
  assert (Htop : total_rows (take i (map asarray parts)) = top).
  { replace (take i (map asarray parts)) with (map asarray (take i parts))
      by (symmetry; apply firstn_map).
    apply total_rows_strips, Forall2_take.
    eapply Forall2_impl; [exact Hall|]. intros q qs (Hq & _). exact Hq. }
  assert (Htop0 : 0 <= top).
  { rewrite <- Htop. apply total_rows_nonneg, Forall_take, Hwfs. }
  assert (Hpi : map asarray parts !! i = Some (asarray part)).
  { change (map asarray parts) with (asarray <$> parts).
    rewrite list_lookup_fmap, Hpart. reflexivity. }
  assert (Hrows : rows (asarray part) = th) by (rewrite Heq; reflexivity).
  assert (Htw0 : 0 <= tw) by apply max_of_nonneg.
  assert (HjW : Z.of_nat j * tw + tw <= W).
  { rewrite <- (Forall_lookup_1 _ _ _ _ HW Hts).
    apply lookup_lt_Some in Hj. fold tw. nia. }
  assert (Hheight : top + th <= total_rows (map asarray parts)).
  { pose proof (take_drop_middle _ _ _ Hpi) as Hcut.
    pose proof (total_rows_nonneg (drop (S i) (map asarray parts))
                  (Forall_drop _ _ _ Hwfs)) as Hd.
    assert (Hshift : forall (l l' : list (@ndarray pixel)),
              total_rows (l ++ l') = total_rows l + total_rows l').
    { clear. unfold total_rows. induction l as [|b l IH]; intros l'; simpl; [lia|].
      rewrite IH. lia. }
    rewrite <- Hcut, Hshift, Htop.
    change (total_rows (asarray part :: drop (S i) (map asarray parts)))
      with (rows (asarray part) + total_rows (drop (S i) (map asarray parts))).
    rewrite Hrows. lia. }
  assert (Hjtw : 0 <= Z.of_nat j * tw) by nia.
  assert (Hcell : forall x y, 0 <= x < tw -> 0 <= y < th ->
            getpixel (fromarray (NDArray (total_rows (map asarray parts)) W
                                   (concat (map cells (map asarray parts)))))
                     (Z.of_nat j * tw + x) (top + y)
            = Some (default (black t) (getpixel t (x - (tw - width t) `div` 2)
                                              (y - (th - height t) `div` 2)))).
  { intros x y Hx Hy.
    destruct (strip_pixel padded th tw j out x y _ Hpadded Hout (Hpix x y Hx Hy))
      as (line & Hline & Hpx).
    assert (Hfull : concat (map cells (map asarray parts)) !! Z.to_nat (top + y)
                    = Some line).
    { replace (Z.to_nat (top + y))
        with (Z.to_nat (total_rows (take i (map asarray parts))) + Z.to_nat y)%nat
        by (rewrite Htop; lia).
      rewrite (vstack_pixel (map asarray parts) W i (asarray part)); try assumption.
      - rewrite Heq. exact Hline.
      - rewrite Hrows. lia. }
    rewrite getpixel_inside by (cbn [width height fromarray cols rows]; lia).
    cbn [pixels fromarray cells]. rewrite Hfull. exact Hpx. }
  exact Hcell.
Qed.


(** X13: where the pixels go.  For tiles of any sizes with rows contiguous
    from 0, no empty group and rows equally wide once padded, the merged
    image is made of one cell per tile: the cell of the tile at place [j] of
    row [i] starts [j] times the width of the widest tile of the row from
    the left and the heights of the rows above from the top, and is as wide
    as the widest and as high as the highest tile of the row.  In its cell
    the tile sits at its padding from the left and from the top, every pixel
    as it was; the rest of the cell is filled with what black is for that
    tile, which for tiles with a palette is not the same value from one
    cell to the next. *)
Theorem merge_places_tiles fs (groups : list (list string)) images (W : Z) :
  open_all fs groups = Ok images ->
  aligned images ->
  groups <> [] ->
  Forall (fun ts => ts <> []) images ->
  Forall (Forall wf_image) images ->
  Forall (fun ts => Z.of_nat (length ts) * max_of (map width ts) = W) images ->
  exists full,
    merge black fs groups = Ok full
    /\ forall i ts j t,
         images !! i = Some ts -> ts !! j = Some t ->
         let th := max_of (map height ts) in
         let tw := max_of (map width ts) in
         let top := foldr Z.add 0 (map (fun ts => max_of (map height ts))
                                       (take i images)) in
         let pad_left := (tw - width t) `div` 2 in
         let pad_top := (th - height t) `div` 2 in
         (forall x y, 0 <= x < tw -> 0 <= y < th ->
            getpixel full (Z.of_nat j * tw + x) (top + y)
            = Some (default (black t) (getpixel t (x - pad_left) (y - pad_top))))
         /\ (forall x y, 0 <= x < width t -> 0 <= y < height t ->
              getpixel full (Z.of_nat j * tw + pad_left + x) (top + pad_top + y)
              = getpixel t x y)
         /\ (forall x y, 0 <= x < tw -> 0 <= y < th ->
              x < pad_left \/ pad_left + width t <= x \/
              y < pad_top \/ pad_top + height t <= y ->
              getpixel full (Z.of_nat j * tw + x) (top + y) = Some (black t)).
Proof.
  intros Hopen Hal Hgne Hne Hwft HW.
  destruct (merge_cells fs groups images W Hopen Hal Hgne Hne HW)
    as (full & Hfull & _ & _ & Hcell).
  exists full. split; [exact Hfull|].
  intros i ts j t Hts Hj. cbv zeta.
  split; [apply (Hcell i ts j t Hts Hj)|].
  split; [|intros x y Hx Hy Hout; rewrite (Hcell i ts j t Hts Hj) by assumption;
           rewrite getpixel_outside by lia; reflexivity].
  intros x y Hx Hy.
  assert (Hwf : wf_image t).
  { apply (Forall_lookup_1 _ _ _ _ (Forall_lookup_1 _ _ _ _ Hwft Hts) Hj). }
  assert (Hin : t ∈ ts) by (apply list_elem_of_lookup; eauto).
  assert (Hhle : height t <= max_of (map height ts)).
  { apply above_elem, list_elem_of_fmap. eauto. }
  assert (Hwle : width t <= max_of (map width ts)).
  { apply above_elem, list_elem_of_fmap. eauto. }
  assert (Hl : 0 <= (max_of (map width ts) - width t) `div` 2
               /\ (max_of (map width ts) - width t) `div` 2 + width t
                  <= max_of (map width ts)).
  { revert Hwle. generalize (max_of (map width ts)). intros tw Hwle.
    pose proof (Z.div_mod (tw - width t) 2 ltac:(lia)).
    pose proof (Z.mod_pos_bound (tw - width t) 2 ltac:(lia)). lia. }
  assert (Ht : 0 <= (max_of (map height ts) - height t) `div` 2
               /\ (max_of (map height ts) - height t) `div` 2 + height t
                  <= max_of (map height ts)).
  { revert Hhle. generalize (max_of (map height ts)). intros th Hhle.
    pose proof (Z.div_mod (th - height t) 2 ltac:(lia)).
    pose proof (Z.mod_pos_bound (th - height t) 2 ltac:(lia)). lia. }
  rewrite <- !Z.add_assoc.
  rewrite (Hcell i ts j t Hts Hj) by lia.
  replace ((max_of (map width ts) - width t) `div` 2 + x
           - (max_of (map width ts) - width t) `div` 2) with x by lia.
  replace ((max_of (map height ts) - height t) `div` 2 + y
           - (max_of (map height ts) - height t) `div` 2) with y by lia.
  destruct (getpixel_wf t x y Hwf Hx Hy) as [p ->]. reflexivity.
Qed.

End Placement.

(** ** The command line *)

Section CommandLine.

Implicit Types (s t u v w r c ext dir base stem name : string) (a b x y : ascii).
Implicit Types (dirs : directories) (names : list string).

#[local] Arguments String.append !_ _ / : simpl nomatch.

Lemma found_app (m : string -> option nat) s t :
  t <> "" -> is_Some (m t) -> found m (s +:+ t) = true.
Proof.
  intros Hne [n Hn]. induction s as [|a s IH].
  - destruct t as [|b t]; [congruence|]. simpl. rewrite Hn. reflexivity.
  - change (found m (String a s +:+ t))
      with (match m (String a (s +:+ t)) with
            | Some _ => true
            | None => found m (s +:+ t)
            end).
    destruct (m (String a (s +:+ t))); [reflexivity|exact IH].
Qed.

Lemma found_no_underscore s :
  Str.all (fun ch => negb (Ascii.eqb ch "_")) s = true ->
  found tile_file_pattern s = false.
Proof.
  induction s as [|a s IH]; [reflexivity|].
  intros [Ha Hs]%andb_true_iff. apply negb_true_iff in Ha.
  change (found tile_file_pattern (String a s))
    with (match (if Ascii.eqb "_" a
                 then S <$> Re.plus Re.Digit
                              (one (Re.Chr "_") (Re.plus Re.Digit (one Re.Dot letters))) s
                 else None) with
          | Some _ => true
          | None => found tile_file_pattern s
          end).
  rewrite Ascii.eqb_sym, Ha. apply IH, Hs.
Qed.

Lemma tile_file_matches r c a l t :
  r <> "" -> Str.all Str.is_digit r = true ->
  c <> "" -> Str.all Str.is_digit c = true ->
  Str.is_digit a = false -> a <> "010"%char ->
  l <> "" -> Str.all Str.is_alpha l = true ->
  is_Some (tile_file_pattern (String "_" (r +:+ String "_" (c +:+ String a (l +:+ t))))).
Proof.
  intros Hr Hrd Hc Hcd Had Hanl Hl Hla.
  destruct l as [|l0 l]; [congruence|]. simpl in Hla.
  apply andb_true_iff in Hla as [Hl0 _].
  assert (Hdot : one Re.Dot letters (String a (String l0 l +:+ t))
                 = Some (S (S (default O (letters (l +:+ t)))))).
  { simpl. destruct (Ascii.eqb_spec a "010") as [->|_]; [congruence|].
    simpl. rewrite Hl0. reflexivity. }
  unfold tile_file_pattern. simpl.
  erewrite (plus_greedy Re.Digit _ r); [eexists; reflexivity| exact Hr | exact Hrd
                                       | reflexivity |].
  simpl.
  erewrite (plus_greedy Re.Digit _ c); [reflexivity | exact Hc | exact Hcd
                                       | exact Had | exact Hdot].
Qed.

(** X14: the pattern of [check_for_files] finds every tile name
    [<stem>_<r>_<c>.<letters>], wherever it stands in the file name and
    whatever follows; its dot is not escaped, so that any character that is
    no digit and no newline does in its place; and it finds nothing in a
    name without underscore. *)
Theorem tile_file_names :
  (forall stem r c a l t,
     r <> "" -> Str.all Str.is_digit r = true ->
     c <> "" -> Str.all Str.is_digit c = true ->
     Str.is_digit a = false -> a <> "010"%char ->
     l <> "" -> Str.all Str.is_alpha l = true ->
     found tile_file_pattern
           (stem +:+ "_" +:+ r +:+ "_" +:+ c +:+ String a (l +:+ t)) = true)
  /\ (forall stem r c ext,
        r <> "" -> Str.all Str.is_digit r = true ->
        c <> "" -> Str.all Str.is_digit c = true ->
        ext <> "" -> Str.all Str.is_alpha ext = true ->
        found tile_file_pattern (stem +:+ tile_suffix r c ext) = true)
  /\ (forall s, Str.all (fun ch => negb (Ascii.eqb ch "_")) s = true ->
        found tile_file_pattern s = false).
Proof.
  split; [|split].
  - intros stem r c a l t Hr Hrd Hc Hcd Had Hanl Hl Hla.
    apply found_app; [discriminate|].
    apply tile_file_matches; assumption.
  - intros stem r c ext Hr Hrd Hc Hcd He Hea.
    apply found_app; [discriminate|].
    rewrite <- (str_app_nil_r ext).
    apply (tile_file_matches r c "." ext ""); try assumption; [reflexivity|discriminate].
  - apply found_no_underscore.
Qed.

Lemma truthy_filter {A} (f : A -> bool) (l : list A) :
  truthy (List.filter f l) = existsb f l.
Proof.
  induction l as [|x0 l IH]; simpl; [reflexivity|].
  destruct (f x0); [reflexivity|exact IH].
Qed.

Lemma check_for_files_dir dirs path names :
  dirs path = Some (Listed names) ->
  check_for_files dirs path = Ok (List.filter (found tile_file_pattern) names).
Proof. intros H. unfold check_for_files, listdir. rewrite H. reflexivity. Qed.

Lemma tiled_dir_cases dirs path :
  tiled_dir dirs path
  = match dirs path with
    | Some (Listed names) => Ok (existsb (found tile_file_pattern) names)
    | Some Unreadable => Raise OSError
    | None => Ok false
    end.
Proof.
  unfold tiled_dir, isdir, check_for_files, listdir.
  destruct (dirs path) as [[names|]|]; simpl; rewrite ?truthy_filter; reflexivity.
Qed.

Lemma tiled_dir_true dirs path :
  tiled_dir dirs path = Ok true <-> has_tiles dirs path = true.
Proof.
  rewrite tiled_dir_cases. unfold has_tiles.
  destruct (dirs path) as [[names|]|]; split; congruence.
Qed.

Lemma filterM_Ok {A} (f : A -> result bool) (g : A -> bool) (l : list A) :
  (forall el, el ∈ l -> f el = Ok (g el)) -> filterM f l = Ok (List.filter g l).
Proof.
  induction l as [|el l IH]; intros H; simpl; [reflexivity|].
  rewrite (H el) by left. simpl. rewrite IH; [reflexivity|].
  intros el' Hel. apply H. right. exact Hel.
Qed.

Lemma filterM_Raise {A} (f : A -> result bool) (l : list A) (e : exn) :
  (forall el, el ∈ l -> f el = Raise e \/ exists keep, f el = Ok keep) ->
  (exists el, el ∈ l /\ f el = Raise e) ->
  filterM f l = Raise e.
Proof.
  induction l as [|el l IH]; intros Hall (x0 & Hin & Hx0); [inversion Hin|].
  simpl. destruct (Hall el) as [->|[keep Hk]]; [left|reflexivity|].
  rewrite Hk. simpl. rewrite IH; [reflexivity| |].
  - intros el' Hel. apply Hall. right. exact Hel.
  - apply elem_of_cons in Hin as [->|Hin]; [congruence|eauto].
Qed.

(** [parse_args] on a directory that can be read, branch by branch. *)
Lemma parse_args_dir dirs makedirs path out names :
  dirs path = Some (Listed names) ->
  parse_args dirs makedirs path out
  = match
      (if existsb (found tile_file_pattern) names then Ok [path]
       else kept ← filterM (fun split_dir => tiled_dir dirs (path_join path split_dir))
                           names;
            Ok (map (path_join path) kept))
    with
    | Raise e => Fails e
    | Ok split_dirs =>
        if negb (truthy split_dirs) then Exits 1
        else match makedirs out with
             | Ok _ => Returns (split_dirs, out)
             | Raise e => Fails e
             end
    end.
Proof.
  intros Hd. unfold parse_args.
  rewrite (check_for_files_dir _ _ _ Hd). cbn [mbind result_bind].
  rewrite truthy_filter. unfold isdir, listdir. rewrite Hd. simpl.
  destruct (existsb (found tile_file_pattern) names); reflexivity.
Qed.

(** X15: how [parse_args] ends.  A path that is no directory, or a
    directory that cannot be read, makes [os.listdir] raise in
    [check_for_files], before the branch that was written for it is
    reached: the message "No tiled images found" is never what a wrong path
    gets.  A directory with a tile file is selected itself, its
    sub-directories are not looked at.  A directory without a tile file has
    its sub-directories looked at, all of them: one that cannot be read
    makes [os.listdir] raise, otherwise those that hold a tile file are
    selected.  When nothing is selected the program ends with [exit(1)] and
    the output directory is not asked for; otherwise [os.makedirs] decides:
    its exception, or the selection is returned, which is never empty. *)
Theorem parse_args_outcomes dirs makedirs path out :
  (dirs path = None \/ dirs path = Some Unreadable ->
   parse_args dirs makedirs path out = Fails OSError)
  /\ (forall names, dirs path = Some (Listed names) ->
        let decided (split_dirs : list string) :=
          match makedirs out with
          | Ok _ => Returns (split_dirs, out)
          | Raise e => Fails e
          end in
        let below :=
          List.filter (fun name => has_tiles dirs (path_join path name)) names in
        ((exists name, name ∈ names /\ found tile_file_pattern name = true) ->
         parse_args dirs makedirs path out = decided [path])
        /\ ((forall name, name ∈ names -> found tile_file_pattern name = false) ->
            ((exists name, name ∈ names
                           /\ dirs (path_join path name) = Some Unreadable) ->
             parse_args dirs makedirs path out = Fails OSError)
            /\ ((forall name, name ∈ names ->
                   dirs (path_join path name) <> Some Unreadable) ->
                (below = [] -> parse_args dirs makedirs path out = Exits 1)
                /\ (below <> [] ->
                    parse_args dirs makedirs path out
                    = decided (map (path_join path) below)))))
  /\ (forall split_dirs out_path,
        parse_args dirs makedirs path out = Returns (split_dirs, out_path) ->
        out_path = out /\ split_dirs <> [] /\ makedirs out = Ok tt
        /\ forall split_dir, split_dir ∈ split_dirs ->
             tiled_dir dirs split_dir = Ok true)
  /\ (forall status, parse_args dirs makedirs path out = Exits status -> status = 1)
  /\ (forall e, parse_args dirs makedirs path out = Fails e ->
        e = OSError \/ makedirs out = Raise e).
Proof.
  assert (Hdecided : forall (split_dirs : list string),
            split_dirs <> [] ->
            (if negb (truthy split_dirs) then Exits 1
             else match makedirs out with
                  | Ok _ => Returns (split_dirs, out)
                  | Raise e => Fails e
                  end)
            = match makedirs out with
              | Ok _ => Returns (split_dirs, out)
              | Raise e => Fails e
              end).
  { intros [|d l] Hne; [congruence|reflexivity]. }
  destruct (dirs path) as [[names|]|] eqn:Hd.
  - pose proof (parse_args_dir dirs makedirs path out names Hd) as Hp.
    assert (Hhere : tiled_dir dirs path
                    = Ok (existsb (found tile_file_pattern) names))
      by (rewrite tiled_dir_cases, Hd; reflexivity).
    set (f := fun split_dir => tiled_dir dirs (path_join path split_dir)) in *.
    set (below := List.filter (fun name => has_tiles dirs (path_join path name)) names).
    assert (Hsteps : forall name, name ∈ names ->
              f name = Raise OSError \/ exists keep, f name = Ok keep).
    { intros name _. unfold f. rewrite tiled_dir_cases.
      destruct (dirs (path_join path name)) as [[l|]|]; eauto. }
    destruct (existsb (found tile_file_pattern) names) eqn:Hex.
    + (* a tile file in the directory itself *)
      rewrite (Hdecided [path]) in Hp by discriminate.
      split; [intros [|]; discriminate|]. split; [|split; [|split]].
      * intros names' [= <-]. cbv zeta. split; [intros _; exact Hp|].
        intros Hnone. apply existsb_exists in Hex as (name & Hin & Hf).
        rewrite (Hnone name) in Hf by (apply list_elem_of_In, Hin). discriminate.
      * intros split_dirs out_path Hr. rewrite Hp in Hr.
        destruct (makedirs out) as [[]|e]; [|discriminate].
        injection Hr as <- <-. split; [reflexivity|]. split; [discriminate|].
        split; [reflexivity|].
        intros d ->%list_elem_of_singleton. exact Hhere.
      * intros status Hs. rewrite Hp in Hs.
        destruct (makedirs out); discriminate.
      * intros e He. rewrite Hp in He. right.
        destruct (makedirs out); [discriminate|congruence].
    + assert (Hnone : forall name, name ∈ names ->
                found tile_file_pattern name = false).
      { intros name Hin. destruct (found tile_file_pattern name) eqn:Hf; [|reflexivity].
        rewrite <- Hex. symmetry. apply existsb_exists. exists name.
        split; [apply list_elem_of_In, Hin|exact Hf]. }
      destruct (filterM f names) as [kept|e0] eqn:Hkept; cbn [mbind result_bind] in Hp.
      * (* every sub-directory can be read *)
        assert (Hreadable : forall name, name ∈ names ->
                  dirs (path_join path name) <> Some Unreadable).
        { intros name Hin Hu.
          rewrite (filterM_Raise f names OSError) in Hkept; [discriminate|exact Hsteps|].
          exists name. split; [exact Hin|]. unfold f.
          rewrite tiled_dir_cases, Hu. reflexivity. }
        assert (Hbelow : kept = below).
        { rewrite (filterM_Ok f (fun name => has_tiles dirs (path_join path name)))
            in Hkept; [injection Hkept as <-; reflexivity|].
          intros name Hin. unfold f, has_tiles. rewrite tiled_dir_cases.
          pose proof (Hreadable name Hin).
          destruct (dirs (path_join path name)) as [[l|]|]; congruence. }
        subst kept.
        assert (Htiled : forall split_dir, split_dir ∈ map (path_join path) below ->
                  tiled_dir dirs split_dir = Ok true).
        { intros sd (name & -> & Hin)%list_elem_of_fmap. apply tiled_dir_true.
          unfold below in Hin. apply list_elem_of_In, filter_In in Hin as [_ Hin].
          exact Hin. }
        split; [intros [|]; discriminate|]. split; [|split; [|split]].
        -- intros names' [= <-]. cbv zeta. fold below. split.
           ++ intros (name & Hin & Hf). rewrite (Hnone name Hin) in Hf. discriminate.
           ++ intros _. split.
              ** intros (name & Hin & Hu). destruct (Hreadable name Hin Hu).
              ** intros _. split.
                 --- intros Hnil. rewrite Hp, Hnil. reflexivity.
                 --- intros Hne. rewrite Hp. apply Hdecided.
                     destruct below; [congruence|discriminate].
        -- intros split_dirs out_path Hr. rewrite Hp in Hr.
           destruct (map (path_join path) below) as [|d l] eqn:Hm;
             [discriminate|]. simpl in Hr.
           destruct (makedirs out) as [[]|e]; [|discriminate].
           injection Hr as <- <-. split; [reflexivity|]. split; [discriminate|].
           split; [reflexivity|exact Htiled].
        -- intros status Hs. rewrite Hp in Hs.
           destruct (map (path_join path) below); simpl in Hs; [congruence|].
           destruct (makedirs out); discriminate.
        -- intros e He. rewrite Hp in He. right.
           destruct (map (path_join path) below); simpl in He; [discriminate|].
           destruct (makedirs out); [discriminate|congruence].
      * (* a sub-directory that cannot be read *)
        assert (He0 : e0 = OSError).
        { clear -Hkept Hsteps. revert Hkept Hsteps.
          induction names as [|name names IH]; simpl; [discriminate|].
          intros Hk Hsteps. destruct (Hsteps name) as [Hn|[keep Hn]]; [left| |];
            rewrite Hn in Hk; simpl in Hk; [congruence|].
          destruct (filterM f names) eqn:Hrest; simpl in Hk; [discriminate|].
          injection Hk as <-. apply IH; [reflexivity|].
          intros name' Hin. apply Hsteps. right. exact Hin. }
        subst e0.
        split; [intros [|]; discriminate|]. split; [|split; [|split]].
        -- intros names' [= <-]. cbv zeta. split.
           ++ intros (name & Hin & Hf). rewrite (Hnone name Hin) in Hf. discriminate.
           ++ intros _. split; [intros _; exact Hp|].
              intros Hreadable. exfalso.
              rewrite (filterM_Ok f (fun name => has_tiles dirs (path_join path name)))
                in Hkept; [discriminate|].
              intros name Hin. unfold f, has_tiles. rewrite tiled_dir_cases.
              pose proof (Hreadable name Hin).
              destruct (dirs (path_join path name)) as [[l|]|]; congruence.
        -- rewrite Hp. discriminate.
        -- rewrite Hp. discriminate.
        -- rewrite Hp. intros e [= <-]. left. reflexivity.
  - assert (Hp : parse_args dirs makedirs path out = Fails OSError).
    { unfold parse_args, check_for_files, listdir. rewrite Hd. reflexivity. }
    split; [intros _; exact Hp|]. split; [discriminate|]. rewrite Hp.
    split; [discriminate|]. split; [discriminate|]. intros e [= <-]. auto.
  - assert (Hp : parse_args dirs makedirs path out = Fails OSError).
    { unfold parse_args, check_for_files, listdir. rewrite Hd. reflexivity. }
    split; [intros _; exact Hp|]. split; [discriminate|]. rewrite Hp.
    split; [discriminate|]. split; [discriminate|]. intros e [= <-]. auto.
Qed.

End CommandLine.

Section MainLoop.

Context {pixel : Type} (black : @Image pixel -> pixel).
Context (makedirs : string -> result unit).
Context (save : string -> @Image pixel -> result unit).
Implicit Types (fs : @filesystem pixel) (dirs : directories) (names : list string).
Implicit Types (s t u v w r c ext dir base stem name : string).

#[local] Arguments String.append !_ _ / : simpl nomatch.

Lemma filter_none {A} (f : A -> bool) (l : list A) :
  (forall el, el ∈ l -> f el = false) -> List.filter f l = [].
Proof.
  induction l as [|el l IH]; intros H; simpl; [reflexivity|].
  rewrite (H el) by left. apply IH. intros el' Hel. apply H. right. exact Hel.
Qed.

(** X16: [parse_args] and [main] do not look for the same files.  A
    directory is taken for its names that match the pattern of
    [check_for_files], [main] then keeps the names that
    [check_image_file] accepts: when a directory holds a tile file but no
    file with one of the six extensions, [main] has an empty list and
    raises [IndexError] at [all_images[0]], having saved nothing (unless
    [os.makedirs] has raised before, in [parse_args]). *)
Theorem main_no_image_file fs dirs path out names :
  dirs path = Some (Listed names) ->
  (exists name, name ∈ names /\ found tile_file_pattern name = true) ->
  (forall name, name ∈ names -> check_image_file name = false) ->
  parse_args dirs makedirs path out
  = match makedirs out with
    | Ok _ => Returns ([path], out)
    | Raise e => Fails e
    end
  /\ merge_dir black save fs dirs out path = Raise IndexError
  /\ main black makedirs save fs dirs path out
     = ([], Fails match makedirs out with
                  | Ok _ => IndexError
                  | Raise e => e
                  end).
Proof.
  intros Hd (name & Hin & Hf) Hnone.
  assert (Hp : parse_args dirs makedirs path out
               = match makedirs out with
                 | Ok _ => Returns ([path], out)
                 | Raise e => Fails e
                 end).
  { rewrite (parse_args_dir _ _ _ _ _ Hd). cbv zeta.
    replace (existsb (found tile_file_pattern) names) with true; [reflexivity|].
    symmetry. apply existsb_exists. exists name.
    split; [apply list_elem_of_In, Hin|exact Hf]. }
  assert (Hm : merge_dir black save fs dirs out path = Raise IndexError).
  { unfold merge_dir, listdir. rewrite Hd. cbn [mbind result_bind].
    rewrite (filter_none _ _ Hnone). reflexivity. }
  split; [exact Hp|]. split; [exact Hm|].
  unfold main. rewrite Hp. destruct (makedirs out); [|reflexivity].
  cbn [merge_dirs]. rewrite Hm. reflexivity.
Qed.

Lemma path_join_dir dir name :
  String.prefix "/" name = false ->
  exists d, path_join dir name = d +:+ name
            /\ (d = "" \/ exists d', d = d' +:+ "/").
Proof.
  intros Hn. unfold path_join. rewrite Hn.
  destruct (String.eqb dir "") eqn:He; simpl.
  - apply String.eqb_eq in He as ->. exists "". split; [reflexivity|left; reflexivity].
  - destruct (Str.endswith dir "/") eqn:Hs.
    + exists dir. split; [reflexivity|]. right. apply endswith_inv, Hs.
    + exists (dir +:+ "/"). split; [rewrite str_app_assoc; reflexivity|]. right. eauto.
Qed.

(** X17: the loop body of [main] on a directory whose first image file is
    a tile [<base>_<r>_<c>.<ext>], [base] without slash or dot: the
    extension given to [group_images] is [ext], every image file of the
    directory, joined to the directory, is given to [group_images], the
    groups go to [merge] as they are, and the image is saved in the output
    directory as [<base>_merged.<ext>]; nothing fails but [group_images],
    [merge] or the saving. *)
Theorem merge_dir_pipeline fs dirs out_path split_dir names base r c ext
    (others : list string) :
  dirs split_dir = Some (Listed names) ->
  List.filter check_image_file names = (base +:+ tile_suffix r c ext) :: others ->
  r <> "" -> Str.all Str.is_digit r = true ->
  c <> "" -> Str.all Str.is_digit c = true ->
  ext <> "" -> Str.all Str.is_alpha ext = true ->
  Str.all (fun ch => negb (Ascii.eqb ch "/")) base = true ->
  Str.all (fun ch => negb (Ascii.eqb ch ".")) base = true ->
  let all_images :=
    map (path_join split_dir) (List.filter check_image_file names) in
  let saved_as := path_join out_path (base +:+ "_merged." +:+ ext) in
  merge_dir black save fs dirs out_path split_dir
  = (grouped_images ← group_images all_images ext;
     full_image ← merge black fs grouped_images;
     _ ← save saved_as full_image;
     Ok (saved_as, full_image)).
Proof.
  intros Hd Hfirst Hr Hrd Hc Hcd He Hea Hslash Hdot all_images saved_as.
  assert (Hstart : String.prefix "/" (base +:+ tile_suffix r c ext) = false).
  { destruct base as [|b0 base]; [reflexivity|]. simpl in Hslash.
    apply andb_true_iff in Hslash as [Hb _]. apply negb_true_iff in Hb.
    destruct (String.prefix "/" _) eqn:Hp; [|reflexivity].
    apply prefix_inv in Hp as [u Hu]. simpl String.append in Hu.
    injection Hu as -> _. discriminate. }
  destruct (path_join_dir split_dir _ Hstart) as (d & Hjoin & Hdir).
  assert (Hall : all_images
                 = (d +:+ base +:+ tile_suffix r c ext)
                     :: map (path_join split_dir) others).
  { unfold all_images. rewrite Hfirst. simpl. rewrite Hjoin. reflexivity. }
  assert (Hname : merged_name all_images = Ok (base +:+ "_merged." +:+ ext)).
  { rewrite Hall. apply merged_name_suffix; try assumption.
    apply no_early_suffix; assumption. }
  assert (Hext : getitem (Str.split "." (d +:+ base +:+ tile_suffix r c ext)) (-1)
                 = Ok ext).
  { replace (d +:+ base +:+ tile_suffix r c ext)
      with ((d +:+ base +:+ String "_" (r +:+ String "_" c)) +:+ String "." ext).
    - apply last_field. apply (str_all_impl Str.is_alpha); [|exact Hea].
      intros ch Hch. apply alpha_is_not with (x := "."%char); [reflexivity|exact Hch].
    - rewrite <- (str_app_nil_r (tile_suffix r c ext)), tile_suffix_app.
      rewrite str_app_nil_r, !str_app_assoc. simpl String.append.
      rewrite !str_app_assoc. reflexivity. }
  unfold merge_dir, listdir. rewrite Hd. cbn [mbind result_bind].
  fold all_images. rewrite Hname. rewrite Hall at 1.
  change (getitem ((d +:+ base +:+ tile_suffix r c ext)
                     :: map (path_join split_dir) others) 0)
    with (Ok (d +:+ base +:+ tile_suffix r c ext) : result string).
  cbn [mbind result_bind]. rewrite Hext. reflexivity.
Qed.

End MainLoop.

(** ** No tile at all *)

Section NoTiles.

Context {pixel : Type} (black : @Image pixel -> pixel).

(** X18: when no path ends with the extension, [group_images] returns the
    single empty group it starts from, and [merge] fails on it in the
    horizontal concatenation, with the [ValueError] of [np.hstack] on an
    empty list, whatever the files are. *)
Theorem merge_of_no_tiles (images : list string) (image_ext : string) :
  (forall path, path ∈ images -> Str.endswith path image_ext = false) ->
  group_images images image_ext = Ok [[]]
  /\ forall fs : @filesystem pixel, merge black fs [[]] = Raise (ValueError by_hstack).
Proof.
  intros Hnone. split; [|reflexivity].
  rewrite group_images_partition, filter_none; [reflexivity|].
  intros path Hp. apply Hnone, (proj1 (natsorted_elem _ _)), Hp.
Qed.

End NoTiles.

(** ** From [group_images] to [merge]: rows that are the index of their group *)

Section Bridge.

Context {pixel : Type}.
Implicit Types (fs : @filesystem pixel).

Lemma track_rows_index (row : string -> result Z) (tiles : list (string * Z)) :
  forall st,
  tracked st = Z.of_nat (length (closed st)) ->
  (forall k g p, groups_of st !! k = Some g -> p ∈ g -> row p = Ok (Z.of_nat k)) ->
  Forall (fun tile => row tile.1 = Ok tile.2) tiles ->
  climbs (tracked st) (map snd tiles) ->
  forall k g p, groups_of (fold_left track tiles st) !! k = Some g -> p ∈ g ->
    row p = Ok (Z.of_nat k).
Proof.
  induction tiles as [|[q y] tiles IH]; intros st Htr Hst Hrows Hcl; [exact Hst|].
  apply Forall_cons in Hrows as [Hq Hrows]. simpl in Hq.
  destruct Hcl as [Hy Hcl]. simpl in Hy. simpl fold_left.
  apply IH; [| |exact Hrows|].
  - unfold track. destruct (y =? tracked st) eqn:He; simpl; [exact Htr|].
    apply Z.eqb_neq in He. rewrite length_app. simpl. lia.
  - unfold track, groups_of in *. destruct (y =? tracked st) eqn:He; simpl.
    + apply Z.eqb_eq in He. intros k g p Hg Hp.
      apply lookup_app_Some in Hg as [Hg|[Hk Hg]].
      * apply (Hst k g p); [apply lookup_app_l_Some, Hg|exact Hp].
      * apply list_lookup_singleton_Some in Hg as [Hk0 <-].
        assert (k = length (closed st)) as -> by lia.
        apply elem_of_app in Hp as [Hp| ->%list_elem_of_singleton].
        -- apply (Hst (length (closed st)) (current st) p); [|exact Hp].
           rewrite lookup_app_r by lia. rewrite Nat.sub_diag. reflexivity.
        -- rewrite Hq, He, Htr. reflexivity.
    + apply Z.eqb_neq in He. intros k g p Hg Hp.
      apply lookup_app_Some in Hg as [Hg|[Hk Hg]].
      * apply (Hst k g p Hg Hp).
      * apply list_lookup_singleton_Some in Hg as [Hk0 <-].
        apply list_elem_of_singleton in Hp as ->.
        rewrite length_app in Hk, Hk0. simpl in Hk, Hk0.
        rewrite Hq. f_equal. lia.
  - simpl in Hcl. unfold track. destruct (y =? tracked st) eqn:He; simpl; [|exact Hcl].
    apply Z.eqb_eq in He. rewrite <- He. exact Hcl.
Qed.

(** X19: the bridge from [group_images] to [merge].  When, in natural-sorted
    order, the row coordinates of the tiles start at 0 or 1 and each is
    the one before or the next, every tile lands in the group whose index
    is its row coordinate; and when, besides, [merge] reads from each
    opened image the row that [group_images] read from its path, the
    groups are, once opened, such that every tile's row coordinate is the
    index of its group: what the theorems on [merge] ask for. *)
Theorem group_images_aligned (images : list string) image_ext groups :
  group_images images image_ext = Ok groups ->
  (forall tiles,
     mapM (with_row image_ext)
          (List.filter (fun image => Str.endswith image image_ext)
                       (Natsort.natsorted images)) = Ok tiles ->
     climbs 0 (map snd tiles)) ->
  (forall k g p, groups !! k = Some g -> p ∈ g ->
     path_row p image_ext = Ok (Z.of_nat k))
  /\ (forall fs opened,
        (forall p t, p ∈ images -> Image_open fs p = Ok t ->
           image_row t = path_row p image_ext) ->
        open_all fs groups = Ok opened ->
        aligned opened).
Proof.
  intros Hg Hclimb.
  assert (Hrows : forall k g p, groups !! k = Some g -> p ∈ g ->
                    path_row p image_ext = Ok (Z.of_nat k)).
  { pose proof Hg as Hg'. rewrite group_images_partition in Hg'.
    apply bind_Ok in Hg' as (tiles & Htiles & [= <-]).
    destruct (with_row_paths _ _ _ Htiles) as [_ Hall].
    unfold partition_rows.
    apply (track_rows_index (fun p => path_row p image_ext) tiles (RowGroups 0 [] []));
      [reflexivity| |exact Hall|apply Hclimb, Htiles].
    intros k g p Hk Hp. destruct k as [|k]; simpl in Hk.
    - injection Hk as <-. inversion Hp.
    - rewrite lookup_nil in Hk. discriminate. }
  split; [exact Hrows|].
  intros fs opened Hsame Hopen i t (ts & Hts & Ht)%tagged_elem.
  destruct (mapM_Ok_lookup_r _ _ _ _ _ Hopen Hts) as (g & Hgi & Hog).
  apply list_elem_of_lookup in Ht as [j Hj].
  destruct (mapM_Ok_lookup_r _ _ _ _ _ Hog Hj) as (p & Hp & Hop).
  assert (Hpg : p ∈ g) by (apply list_elem_of_lookup; eauto).
  rewrite (Hsame p t); [apply (Hrows i g p Hgi Hpg)| |exact Hop].
  destruct (group_images_Ok_inv _ _ _ Hg) as [Hc _].
  assert (Hin : p ∈ concat groups).
  { apply list_elem_of_In, in_concat. exists g.
    split; apply list_elem_of_In; [apply list_elem_of_lookup; eauto|exact Hpg]. }
  rewrite Hc in Hin. apply list_elem_of_In, filter_In in Hin as [Hin _].
  apply natsorted_elem, list_elem_of_In, Hin.
Qed.

End Bridge.

(** ** Natural order on the names of a grid *)

Section GridKeys.

Implicit Types (s t u v w r c d ext prefix cur : string) (a b x y : ascii).

#[local] Arguments String.append !_ _ / : simpl nomatch.

Lemma chunks_unfold s cur (innum : bool) :
  Natsort.chunks s cur innum
  = let close :=
      if innum then [Natsort.Num (default 0 (Str.digits (Str.rev cur) 0 false))]
      else match cur with
           | EmptyString => []
           | _ => [Natsort.Text (Str.rev cur)]
           end in
    match s with
    | EmptyString => close
    | String ch s' =>
        if Bool.eqb (Str.is_digit ch) innum
        then Natsort.chunks s' (String ch cur) innum
        else close ++ Natsort.chunks s' (String ch EmptyString) (Str.is_digit ch)
    end.
Proof. destruct s; reflexivity. Qed.

(** Whatever comes first in a name, what follows is read from a state
    that depends on the beginning only. *)
Lemma chunks_prefix prefix : forall cur (innum : bool),
  exists pre cur' (innum' : bool),
    forall s, Natsort.chunks (prefix +:+ s) cur innum
              = pre ++ Natsort.chunks s cur' innum'.
Proof.
  induction prefix as [|a prefix IH]; intros cur innum.
  - exists [], cur, innum. reflexivity.
  - destruct (Bool.eqb (Str.is_digit a) innum) eqn:Hd.
    + destruct (IH (String a cur) innum) as (pre & cur' & innum' & H).
      exists pre, cur', innum'. intros s.
      change (String a prefix +:+ s) with (String a (prefix +:+ s)).
      rewrite chunks_unfold. cbv zeta. rewrite Hd. apply H.
    + destruct (IH (String a "") (Str.is_digit a)) as (pre & cur' & innum' & H).
      eexists (_ ++ pre), cur', innum'. intros s.
      change (String a prefix +:+ s) with (String a (prefix +:+ s)).
      rewrite chunks_unfold. cbv zeta. rewrite Hd, H, app_assoc. reflexivity.
Qed.

(** After an underscore the state is a text chunk under way. *)
Lemma chunks_prefix_text prefix cur (innum : bool) :
  exists pre cur',
    cur' <> ""
    /\ forall s, Natsort.chunks (prefix +:+ String "_" s) cur innum
                 = pre ++ Natsort.chunks s cur' false.
Proof.
  destruct (chunks_prefix prefix cur innum) as (pre & cur1 & innum1 & H).
  destruct innum1.
  - eexists (pre ++ _), "_". split; [discriminate|]. intros s.
    rewrite H, chunks_unfold. cbv zeta. simpl Bool.eqb. cbv iota.
    rewrite app_assoc. reflexivity.
  - exists pre, (String "_" cur1). split; [discriminate|]. intros s.
    rewrite H, chunks_unfold. reflexivity.
Qed.

Lemma key_prefix_text prefix :
  exists pre cur',
    cur' <> ""
    /\ forall s, Natsort.key (prefix +:+ String "_" s)
                 = pre ++ Natsort.chunks s cur' false.
Proof.
  destruct prefix as [|a prefix].
  - exists [], "_". split; [discriminate|]. intros s. reflexivity.
  - destruct (Str.is_digit a) eqn:Ha.
    + destruct (chunks_prefix_text (String a prefix) "" true) as (pre & cur' & Hne & H).
      exists (Natsort.Text "" :: pre), cur'. split; [exact Hne|]. intros s.
      unfold Natsort.key.
      change (String a prefix +:+ String "_" s)
        with (String a (prefix +:+ String "_" s)) at 1.
      cbv iota. rewrite Ha.
      change (String a (prefix +:+ String "_" s))
        with (String a prefix +:+ String "_" s).
      rewrite H. reflexivity.
    + destruct (chunks_prefix_text (String a prefix) "" false) as (pre & cur' & Hne & H).
      exists pre, cur'. split; [exact Hne|]. intros s.
      unfold Natsort.key.
      change (String a prefix +:+ String "_" s)
        with (String a (prefix +:+ String "_" s)) at 1.
      cbv iota. rewrite Ha.
      change (String a (prefix +:+ String "_" s))
        with (String a prefix +:+ String "_" s).
      apply H.
Qed.

Lemma chunks_digits d : forall s cur,
  Str.all Str.is_digit d = true ->
  Natsort.chunks (d +:+ s) cur true = Natsort.chunks s (Str.rev_onto d cur) true.
Proof.
  induction d as [|a d IH]; intros s cur Hd; [reflexivity|].
  simpl in Hd. apply andb_true_iff in Hd as [Ha Hd].
  change (String a d +:+ s) with (String a (d +:+ s)).
  rewrite chunks_unfold. cbv zeta. rewrite Ha. simpl Bool.eqb. cbv iota.
  apply IH, Hd.
Qed.

Lemma chunks_text t : forall s cur,
  Str.all (fun ch => negb (Str.is_digit ch)) t = true ->
  Natsort.chunks (t +:+ s) cur false = Natsort.chunks s (Str.rev_onto t cur) false.
Proof.
  induction t as [|a t IH]; intros s cur Ht; [reflexivity|].
  simpl in Ht. apply andb_true_iff in Ht as [Ha Ht]. apply negb_true_iff in Ha.
  change (String a t +:+ s) with (String a (t +:+ s)).
  rewrite chunks_unfold. cbv zeta. rewrite Ha. simpl Bool.eqb. cbv iota.
  apply IH, Ht.
Qed.

Lemma rev_onto_app cur : forall acc, Str.rev_onto cur acc = Str.rev cur +:+ acc.
Proof.
  unfold Str.rev. induction cur as [|a cur IH]; intros acc; simpl; [reflexivity|].
  rewrite (IH (String a acc)), (IH (String a "")), str_app_assoc. reflexivity.
Qed.

Lemma rev_rev_onto s cur : Str.rev (Str.rev_onto s cur) = Str.rev cur +:+ s.
Proof.
  unfold Str.rev at 1. rewrite rev_onto_twice, str_app_nil_r. apply rev_onto_app.
Qed.

Lemma rev_onto_nonempty s : forall cur, cur <> "" -> Str.rev_onto s cur <> "".
Proof.
  induction s as [|a s IH]; intros cur Hc; simpl; [exact Hc|].
  apply IH. discriminate.
Qed.

Lemma alpha_not_digit s :
  Str.all Str.is_alpha s = true ->
  Str.all (fun ch => negb (Str.is_digit ch)) s = true.
Proof.
  apply str_all_impl. intros ch Hch.
  destruct (Str.is_digit ch) eqn:Hd; [|reflexivity].
  rewrite (digit_not_alpha ch Hd) in Hch. discriminate.
Qed.

(** The key of a tile name: what the beginning gives, then the row, an
    underscore, the column and the extension. *)
Lemma key_tile prefix ext :
  Str.all Str.is_alpha ext = true ->
  exists pre,
    forall r c,
      r <> "" -> Str.all Str.is_digit r = true ->
      c <> "" -> Str.all Str.is_digit c = true ->
      Natsort.key (prefix +:+ tile_suffix r c ext)
      = pre ++ [Natsort.Num (default 0 (Str.digits r 0 false));
                Natsort.Text "_";
                Natsort.Num (default 0 (Str.digits c 0 false));
                Natsort.Text ("." +:+ ext)].
Proof.
  intros Hext. destruct (key_prefix_text prefix) as (pre & cur & Hcur & Hkey).
  exists (pre ++ [Natsort.Text (Str.rev cur)]). intros r c Hr Hrd Hc Hcd.
  change (prefix +:+ tile_suffix r c ext)
    with (prefix +:+ String "_" (r +:+ String "_" (c +:+ String "." ext))).
  rewrite Hkey, <- app_assoc. f_equal.
  destruct r as [|r0 r1]; [congruence|]. destruct c as [|c0 c1]; [congruence|].
  pose proof Hrd as Hrd'. pose proof Hcd as Hcd'.
  simpl in Hrd', Hcd'.
  apply andb_true_iff in Hrd' as [Hr0 Hr1]. apply andb_true_iff in Hcd' as [Hc0 Hc1].
  (* the row *)
  change (String r0 r1 +:+ String "_" (String c0 c1 +:+ String "." ext))
    with (String r0 (r1 +:+ String "_" (String c0 (c1 +:+ String "." ext)))).
  rewrite chunks_unfold. cbv zeta. rewrite Hr0. simpl Bool.eqb. cbv iota.
  destruct cur as [|q0 cur]; [congruence|]. simpl app. f_equal.
  rewrite (chunks_digits r1 _ _ Hr1), chunks_unfold. cbv zeta.
  change (Str.is_digit "_") with false. simpl Bool.eqb. cbv iota.
  rewrite rev_rev_onto. simpl app.
  f_equal; [simpl; rewrite ?Hr0; reflexivity .. |].
  (* the column *)
  rewrite chunks_unfold. cbv zeta. rewrite Hc0. simpl Bool.eqb. cbv iota.
  simpl app. f_equal.
  rewrite (chunks_digits c1 _ _ Hc1), chunks_unfold. cbv zeta.
  change (Str.is_digit ".") with false. simpl Bool.eqb. cbv iota.
  rewrite rev_rev_onto. simpl app.
  f_equal; [simpl; rewrite ?Hc0; reflexivity .. |].
  (* the extension *)
  rewrite <- (str_app_nil_r ext) at 1.
  rewrite (chunks_text ext "" "." (alpha_not_digit ext Hext)), chunks_unfold.
  cbv zeta. cbv iota.
  pose proof (rev_onto_nonempty ext "." ltac:(discriminate)) as Hne.
  pose proof (rev_rev_onto ext ".") as Hrev.
  destruct (Str.rev_onto ext ".") as [|e0 e1]; [congruence|].
  rewrite Hrev. reflexivity.
Qed.

Lemma string_compare_refl s : String.compare s s = Eq.
Proof.
  pose proof (String.compare_antisym s s) as H.
  destruct (String.compare s s); [reflexivity|discriminate|discriminate].
Qed.

Lemma chunk_compare_refl (k : Natsort.chunk) : Natsort.chunk_compare k k = Eq.
Proof. destruct k; simpl; [apply string_compare_refl|apply Z.compare_refl]. Qed.

Lemma key_compare_app (pre k1 k2 : list Natsort.chunk) :
  Natsort.key_compare (pre ++ k1) (pre ++ k2) = Natsort.key_compare k1 k2.
Proof.
  induction pre as [|k pre IH]; [reflexivity|]. simpl.
  rewrite chunk_compare_refl. exact IH.
Qed.

(** Two tiles of one grid compare by row, then by column, as numbers. *)
Lemma leb_tiles (pre : list Natsort.chunk) ext (vr vc vr' vc' : Z) :
  let key1 := pre ++ [Natsort.Num vr; Natsort.Text "_"; Natsort.Num vc;
                      Natsort.Text ("." +:+ ext)] in
  let key2 := pre ++ [Natsort.Num vr'; Natsort.Text "_"; Natsort.Num vc';
                      Natsort.Text ("." +:+ ext)] in
  match Natsort.key_compare key1 key2 with
  | Gt => vr' <= vr /\ (vr' = vr -> vc' < vc)
  | _ => vr <= vr' /\ (vr = vr' -> vc <= vc')
  end.
Proof.
  cbv zeta. rewrite key_compare_app.
  cbn [Natsort.key_compare Natsort.chunk_compare].
  destruct (Z.compare_spec vr vr') as [->|Hlt|Hgt]; [|lia|lia].
  change (String.compare "_" "_") with Eq. cbv iota.
  destruct (Z.compare_spec vc vc') as [->|Hlt|Hgt]; [|lia|lia].
  rewrite string_compare_refl. lia.
Qed.

End GridKeys.

Section GridOrder.

Implicit Types (s t u v w r c d ext prefix : string) (p q : string).

#[local] Arguments String.append !_ _ / : simpl nomatch.

(** [int] of a run of digits is the number the digits read as. *)
Lemma int_value r :
  r <> "" -> Str.all Str.is_digit r = true ->
  Str.int r = Ok (default 0 (Str.digits r 0 false))
  /\ 0 <= default 0 (Str.digits r 0 false).
Proof.
  intros Hne Hr.
  destruct (digits_value r 0 false Hr) as (n & Hn & Hn0); [auto|lia|].
  rewrite Hn. simpl default. split; [|exact Hn0].
  unfold Str.int. rewrite (strip_digits r Hr).
  destruct r as [|a r]; [congruence|].
  simpl in Hr. apply andb_true_iff in Hr as [Ha _].
  assert (Hm : forall (A B C : option Z),
            match String a r with
            | String "-" _ => A
            | String "+" _ => B
            | _ => C
            end = C).
  { intros A B C. clear -Ha.
    destruct a as [[] [] [] [] [] [] [] []]; try reflexivity; discriminate. }
  specialize (Hm (option_map Z.opp (Str.digits r 0 false)) (Str.digits r 0 false)
                 (Str.digits (String a r) 0 false)).
  simpl in Hm, Hn |- *. rewrite Hm, Hn. reflexivity.
Qed.

(** Insertion keeps a list sorted where [leb] is total and transitive. *)
Lemma insert_sorted p (l : list string) :
  (forall q, q ∈ l -> Natsort.leb p q = false -> Natsort.leb q p = true) ->
  (forall q q', q ∈ l -> q' ∈ l -> Natsort.leb p q = true ->
     Natsort.leb q q' = true -> Natsort.leb p q' = true) ->
  StronglySorted (fun q q' => Natsort.leb q q' = true) l ->
  StronglySorted (fun q q' => Natsort.leb q q' = true) (Natsort.insert p l).
Proof.
  induction l as [|q l IH]; intros Htot Htrans Hs.
  - simpl. repeat constructor.
  - apply StronglySorted_inv in Hs as [Hs Hq]. rewrite Forall_forall in Hq.
    cbn [Natsort.insert]. destruct (Natsort.leb p q) eqn:Hpq.
    + constructor; [constructor; [exact Hs|apply Forall_forall; exact Hq]|].
      constructor; [exact Hpq|]. apply Forall_forall. intros q' Hq'.
      apply (Htrans q q'); [left|right; exact Hq'|exact Hpq|apply Hq, Hq'].
    + constructor.
      * apply IH; [| |exact Hs].
        -- intros q' Hq'. apply Htot. right. exact Hq'.
        -- intros q1 q2 H1 H2. apply Htrans; right; assumption.
      * apply Forall_forall. intros q' [->|Hq']%natsort_insert_elem.
        -- apply Htot; [left|exact Hpq].
        -- apply Hq, Hq'.
Qed.

Lemma natsorted_sorted (l : list string) :
  (forall p q, p ∈ l -> q ∈ l -> Natsort.leb p q = false -> Natsort.leb q p = true) ->
  (forall p q q', p ∈ l -> q ∈ l -> q' ∈ l -> Natsort.leb p q = true ->
     Natsort.leb q q' = true -> Natsort.leb p q' = true) ->
  StronglySorted (fun q q' => Natsort.leb q q' = true) (Natsort.natsorted l).
Proof.
  induction l as [|p l IH]; intros Htot Htrans; [constructor|].
  change (Natsort.natsorted (p :: l)) with (Natsort.insert p (Natsort.natsorted l)).
  apply insert_sorted.
  - intros q Hq. apply Htot; [left|right; apply (proj1 (natsorted_elem _ _) Hq)].
  - intros q q' Hq Hq'.
    apply Htrans; [left|right; apply (proj1 (natsorted_elem _ _) Hq)
                  |right; apply (proj1 (natsorted_elem _ _) Hq')].
  - apply IH.
    + intros p' q' Hp' Hq'. apply Htot; right; assumption.
    + intros p' q1 q2 Hp' H1 H2. apply Htrans; right; assumption.
Qed.

Lemma sorted_map {A} (R : A -> A -> Prop) (f : A -> Z) (l : list A) :
  (forall a a', a ∈ l -> a' ∈ l -> R a a' -> f a <= f a') ->
  StronglySorted R l -> StronglySorted Z.le (map f l).
Proof.
  intros Hf Hs. induction Hs as [|a l Hs IH Ha]; [constructor|].
  change (map f (a :: l)) with (f a :: map f l). constructor.
  - apply IH. intros a1 a2 H1 H2. apply Hf; right; assumption.
  - rewrite Forall_forall in Ha. apply Forall_forall.
    intros v (a' & -> & Ha')%list_elem_of_fmap.
    apply Hf; [left|right; exact Ha'|apply Ha, Ha'].
Qed.

Lemma sorted_lookup {A} (R : A -> A -> Prop) (l : list A) : forall i j a a',
  StronglySorted R l -> (i < j)%nat ->
  l !! i = Some a -> l !! j = Some a' -> R a a'.
Proof.
  induction l as [|a0 l IH]; intros i j a a' Hs Hij Hi Hj.
  - rewrite lookup_nil in Hi. discriminate.
  - apply StronglySorted_inv in Hs as [Hs Ha0]. rewrite Forall_forall in Ha0.
    destruct j as [|j]; [lia|]. simpl in Hj. destruct i as [|i]; simpl in Hi.
    + injection Hi as <-. apply Ha0, list_elem_of_lookup. eauto.
    + apply (IH i j); [exact Hs|lia|exact Hi|exact Hj].
Qed.

Lemma leb_refl p : Natsort.leb p p = true.
Proof.
  unfold Natsort.leb.
  assert (H : Natsort.key_compare (Natsort.key p) (Natsort.key p) = Eq).
  { induction (Natsort.key p) as [|k ks IH]; [reflexivity|]. simpl.
    rewrite chunk_compare_refl. exact IH. }
  rewrite H. reflexivity.
Qed.

(** Sorted rows without a gap climb one at a time. *)
Lemma sorted_climbs (ys : list Z) : forall y0,
  StronglySorted Z.le ys ->
  (forall y, y ∈ ys -> y0 <= y) ->
  (forall y z, y ∈ ys -> y0 < z < y -> z ∈ ys) ->
  climbs y0 ys.
Proof.
  induction ys as [|y1 ys IH]; intros y0 Hs Hlow Hgap; [exact I|].
  apply StronglySorted_inv in Hs as [Hs Hy1]. rewrite Forall_forall in Hy1.
  assert (H01 : y0 <= y1) by (apply Hlow; left).
  assert (Hstep : y1 = y0 \/ y1 = y0 + 1).
  { destruct (decide (y1 <= y0 + 1)) as [|Hbig]; [lia|]. exfalso.
    assert (Hin : y0 + 1 ∈ y1 :: ys) by (apply (Hgap y1); [left|lia]).
    apply elem_of_cons in Hin as [Hin|Hin]; [lia|].
    specialize (Hy1 _ Hin). simpl in Hy1. lia. }
  split; [exact Hstep|]. apply IH; [exact Hs| |].
  - intros y Hy. apply (Hy1 y Hy).
  - intros y z Hy Hz.
    assert (Hin : z ∈ y1 :: ys) by (apply (Hgap y); [right; exact Hy|lia]).
    apply elem_of_cons in Hin as [Hin|Hin]; [lia|exact Hin].
Qed.

Lemma mapM_with_row ext (rho : string -> Z) (l : list string) :
  (forall p, p ∈ l -> path_row p ext = Ok (rho p)) ->
  mapM (with_row ext) l = Ok (map (fun p => (p, rho p)) l).
Proof.
  induction l as [|p l IH]; intros H; [reflexivity|].
  assert (Hw : with_row ext p = Ok (p, rho p))
    by (unfold with_row; rewrite (H p) by left; reflexivity).
  cbn [mapM]. rewrite Hw. cbn [mbind result_bind]. rewrite IH; [reflexivity|].
  intros q Hq. apply H. right. exact Hq.
Qed.

Lemma groups_later_nonempty (images : list string) ext groups k g :
  group_images images ext = Ok groups -> groups !! S k = Some g -> g <> [].
Proof.
  intros H Hg. destruct (group_images_Ok_inv _ _ _ H) as [_ (st & -> & Hst)].
  destruct Hst as [_ _ _ Hne _]. unfold groups_of in Hg.
  destruct (closed st) as [|g0 later]; simpl in Hg.
  - rewrite lookup_nil in Hg. discriminate.
  - destruct Hne as [Hlater Hcne].
    apply lookup_app_Some in Hg as [Hg|[_ Hg]].
    + apply (Forall_lookup_1 _ _ _ _ Hlater Hg).
    + apply list_lookup_singleton_Some in Hg as [_ <-]. exact Hcne.
Qed.

(** The row [group_images] reads from the name of a cell. *)
Lemma grid_row prefix ext (cells : list (string * string)) :
  Str.all Str.is_alpha ext = true ->
  (forall r c, (r, c) ∈ cells ->
     r <> "" /\ Str.all Str.is_digit r = true
     /\ c <> "" /\ Str.all Str.is_digit c = true) ->
  forall r c, (r, c) ∈ cells ->
    path_row (prefix +:+ tile_suffix r c ext) ext = Str.int r.
Proof.
  intros Hext Hcells r c Hin. destruct (Hcells r c Hin) as (Hr & Hrd & Hc & Hcd).
  unfold path_row. apply row_of_name; try assumption.
  revert Hext. apply str_all_impl. intros ch Hch.
  apply alpha_is_not with (x := "_"%char); [reflexivity|exact Hch].
Qed.

(** The groups of a grid, with what the natural order knows of them. *)
Lemma grid_groups prefix ext (cells : list (string * string)) (images : list string) :
  Str.all Str.is_alpha ext = true ->
  (forall r c, (r, c) ∈ cells ->
     r <> "" /\ Str.all Str.is_digit r = true
     /\ c <> "" /\ Str.all Str.is_digit c = true) ->
  images ≡ₚ map (fun rc => prefix +:+ tile_suffix rc.1 rc.2 ext) cells ->
  (forall r c y z, (r, c) ∈ cells -> Str.int r = Ok y -> 0 <= z < y ->
     exists r' c', (r', c') ∈ cells /\ Str.int r' = Ok z) ->
  exists groups,
    group_images images ext = Ok groups
    /\ concat groups = Natsort.natsorted images
    /\ StronglySorted (fun q q' => Natsort.leb q q' = true) (Natsort.natsorted images)
    /\ (forall k g p, groups !! k = Some g -> p ∈ g ->
          exists r c, (r, c) ∈ cells /\ p = prefix +:+ tile_suffix r c ext
                      /\ Str.int r = Ok (Z.of_nat k))
    /\ (forall r c r' c' x x',
          (r, c) ∈ cells -> (r', c') ∈ cells ->
          Natsort.leb (prefix +:+ tile_suffix r c ext)
                      (prefix +:+ tile_suffix r' c' ext) = true ->
          Str.int r = Str.int r' -> Str.int c = Ok x -> Str.int c' = Ok x' ->
          x <= x')
    /\ (cells <> [] -> forall g, g ∈ groups -> g <> []).
Proof.
  intros Hext Hcells Hperm Hgap.
  destruct (key_tile prefix ext Hext) as (pre & Hkey).
  set (name := fun rc : string * string => prefix +:+ tile_suffix rc.1 rc.2 ext) in *.
  set (rho := fun p => match path_row p ext with Ok y => y | Raise _ => 0 end).
  assert (Himg : forall p, p ∈ images <-> exists r c, (r, c) ∈ cells /\ p = name (r, c)).
  { intros p. rewrite Hperm, list_elem_of_fmap. split.
    - intros ([r c] & -> & Hin). eauto.
    - intros (r & c & Hin & ->). exists (r, c). auto. }
  assert (Hrow : forall r c, (r, c) ∈ cells ->
            path_row (name (r, c)) ext = Str.int r
            /\ Str.int r = Ok (default 0 (Str.digits r 0 false))
            /\ 0 <= default 0 (Str.digits r 0 false)
            /\ rho (name (r, c)) = default 0 (Str.digits r 0 false)).
  { intros r c Hin. destruct (Hcells r c Hin) as (Hr & Hrd & Hc & Hcd).
    destruct (int_value r Hr Hrd) as [Hint Hpos].
    assert (Hp : path_row (name (r, c)) ext = Str.int r).
    { unfold path_row, name. cbn [fst snd]. apply row_of_name; try assumption.
      revert Hext. apply str_all_impl. intros ch Hch.
      apply alpha_is_not with (x := "_"%char); [reflexivity|exact Hch]. }
    split; [exact Hp|]. split; [exact Hint|]. split; [exact Hpos|].
    unfold rho. rewrite Hp, Hint. reflexivity. }
  assert (Hends : forall p, p ∈ images -> Str.endswith p ext = true).
  { intros p (r & c & _ & ->)%Himg. unfold name. cbn [fst snd].
    replace (prefix +:+ tile_suffix r c ext)
      with ((prefix +:+ String "_" (r +:+ String "_" (c +:+ "."))) +:+ ext).
    - apply endswith_app.
    - rewrite <- (str_app_nil_r (tile_suffix r c ext)), tile_suffix_app.
      rewrite str_app_nil_r.
      repeat (progress (rewrite ?str_app_assoc; simpl String.append)).
      reflexivity. }
  set (val := fun d => default 0 (Str.digits d 0 false)).
  assert (Hleb : forall r c r' c', (r, c) ∈ cells -> (r', c') ∈ cells ->
            if Natsort.leb (name (r, c)) (name (r', c'))
            then val r <= val r' /\ (val r = val r' -> val c <= val c')
            else val r' <= val r /\ (val r' = val r -> val c' < val c)).
  { intros r c r' c' Hin Hin'.
    destruct (Hcells r c Hin) as (Hr & Hrd & Hc & Hcd).
    destruct (Hcells r' c' Hin') as (Hr' & Hrd' & Hc' & Hcd').
    unfold Natsort.leb, name. cbn [fst snd].
    rewrite (Hkey r c Hr Hrd Hc Hcd), (Hkey r' c' Hr' Hrd' Hc' Hcd').
    pose proof (leb_tiles pre ext (val r) (val c) (val r') (val c')) as Hcmp.
    cbv zeta in Hcmp. fold (val r) (val c) (val r') (val c').
    destruct (Natsort.key_compare _ _); exact Hcmp. }
  set (sorted := Natsort.natsorted images).
  assert (Hordered : StronglySorted (fun q q' => Natsort.leb q q' = true) sorted).
  { apply natsorted_sorted.
    - intros p q (r & c & Hin & ->)%Himg (r' & c' & Hin' & ->)%Himg Hpq.
      pose proof (Hleb r c r' c' Hin Hin') as H1. rewrite Hpq in H1.
      pose proof (Hleb r' c' r c Hin' Hin) as H2.
      destruct (Natsort.leb (name (r', c')) (name (r, c))); [reflexivity|lia].
    - intros p q q' (r & c & Hin & ->)%Himg (r1 & c1 & Hin1 & ->)%Himg
             (r2 & c2 & Hin2 & ->)%Himg H1 H2.
      pose proof (Hleb r c r1 c1 Hin Hin1) as G1. rewrite H1 in G1.
      pose proof (Hleb r1 c1 r2 c2 Hin1 Hin2) as G2. rewrite H2 in G2.
      pose proof (Hleb r c r2 c2 Hin Hin2) as G3.
      destruct (Natsort.leb (name (r, c)) (name (r2, c2))); [reflexivity|lia]. }
  assert (Hin_sorted0 : forall p, p ∈ sorted -> p ∈ images)
    by (intros p Hp; apply (proj1 (natsorted_elem _ _) Hp)).
  assert (Hsorted : StronglySorted Z.le (map rho sorted)).
  { apply (sorted_map _ rho sorted) in Hordered; [exact Hordered|].
    intros p q (r & c & Hin & ->)%Hin_sorted0%Himg
           (r' & c' & Hin' & ->)%Hin_sorted0%Himg Hpq.
    pose proof (Hleb r c r' c' Hin Hin') as H1. rewrite Hpq in H1.
    destruct (Hrow r c Hin) as (_ & _ & _ & ->).
    destruct (Hrow r' c' Hin') as (_ & _ & _ & ->). apply H1. }
  assert (Hin_sorted : forall p, p ∈ sorted <-> p ∈ images)
    by (intros p; apply natsorted_elem).
  assert (Hfilter : List.filter (fun image => Str.endswith image ext) sorted = sorted).
  { apply filter_all. intros p Hp%Hin_sorted. apply Hends, Hp. }
  assert (Htiles : mapM (with_row ext) sorted = Ok (map (fun p => (p, rho p)) sorted)).
  { apply mapM_with_row. intros p (r & c & Hin & ->)%Hin_sorted%Himg.
    destruct (Hrow r c Hin) as (Hp & Hint & _ & Hrho). rewrite Hp, Hint, Hrho.
    reflexivity. }
  assert (Hgroups : group_images images ext
                    = Ok (partition_rows (map (fun p => (p, rho p)) sorted))).
  { rewrite group_images_partition. fold sorted. rewrite Hfilter, Htiles. reflexivity. }
  assert (Hclimbs : climbs 0 (map snd (map (fun p => (p, rho p)) sorted))).
  { rewrite map_map. simpl. apply sorted_climbs; [exact Hsorted| |].
    - intros y (p & -> & (r & c & Hin & ->)%Hin_sorted%Himg)%list_elem_of_fmap.
      destruct (Hrow r c Hin) as (_ & _ & Hpos & ->). exact Hpos.
    - intros y z (p & -> & (r & c & Hin & ->)%Hin_sorted%Himg)%list_elem_of_fmap Hz.
      destruct (Hrow r c Hin) as (_ & Hint & _ & Hrho). rewrite Hrho in Hz.
      destruct (Hgap r c _ z Hin Hint ltac:(lia)) as (r' & c' & Hin' & Hint').
      destruct (Hrow r' c' Hin') as (_ & Hint'' & _ & Hrho').
      apply list_elem_of_fmap. exists (name (r', c')). split.
      + rewrite Hrho'. congruence.
      + apply Hin_sorted, Himg. eauto. }
  assert (Hidx : forall k g p,
            partition_rows (map (fun p => (p, rho p)) sorted) !! k = Some g ->
            p ∈ g -> path_row p ext = Ok (Z.of_nat k)).
  { unfold partition_rows.
    apply (track_rows_index (fun p => path_row p ext) _ (RowGroups 0 [] []));
      [reflexivity| | |exact Hclimbs].
    - intros k g p Hk Hp. destruct k as [|k]; simpl in Hk.
      + injection Hk as <-. inversion Hp.
      + rewrite lookup_nil in Hk. discriminate.
    - apply Forall_fmap, Forall_forall.
      intros p (r & c & Hin & ->)%Hin_sorted%Himg. simpl.
      destruct (Hrow r c Hin) as (Hp & Hint & _ & Hrho). rewrite Hp, Hint, Hrho.
      reflexivity. }
  destruct (group_images_Ok_inv _ _ _ Hgroups) as [Hconcat _].
  fold sorted in Hconcat. rewrite Hfilter in Hconcat.
  assert (Hmember : forall k g p,
            partition_rows (map (fun p => (p, rho p)) sorted) !! k = Some g ->
            p ∈ g -> p ∈ images).
  { intros k g p Hk Hp. apply Hin_sorted. rewrite <- Hconcat.
    apply list_elem_of_In, in_concat. exists g.
    split; apply list_elem_of_In; [apply list_elem_of_lookup; eauto|exact Hp]. }
  eexists. split; [exact Hgroups|]. split; [exact Hconcat|].
  split; [exact Hordered|]. split; [|split].
  - intros k g p Hk Hp.
    destruct (proj1 (Himg p) (Hmember k g p Hk Hp)) as (r & c & Hin & ->).
    exists r, c. split; [exact Hin|]. split; [reflexivity|].
    rewrite <- (Hidx k g _ Hk Hp). symmetry. apply (Hrow r c Hin).
  - intros r c r' c' x x' Hin Hin' Hle Hsame Hx Hx'.
    destruct (Hcells r c Hin) as (Hr & Hrd & Hc & Hcd).
    destruct (Hcells r' c' Hin') as (Hr' & Hrd' & Hc' & Hcd').
    destruct (int_value r Hr Hrd) as [Hir _].
    destruct (int_value r' Hr' Hrd') as [Hir' _].
    destruct (int_value c Hc Hcd) as [Hic _].
    destruct (int_value c' Hc' Hcd') as [Hic' _].
    pose proof (Hleb r c r' c' Hin Hin') as Hcmp.
    change (name (r, c)) with (prefix +:+ tile_suffix r c ext) in Hcmp.
    change (name (r', c')) with (prefix +:+ tile_suffix r' c' ext) in Hcmp.
    rewrite Hle in Hcmp.
    assert (Hv : val r = val r') by (unfold val; congruence).
    assert (x = val c) as -> by (unfold val; congruence).
    assert (x' = val c') as -> by (unfold val; congruence).
    apply Hcmp, Hv.
  - intros Hne g [k Hk]%list_elem_of_lookup.
    destruct k as [|k]; [|apply (groups_later_nonempty _ _ _ _ _ Hgroups Hk)].
    (* a tile of row 0 *)
    assert (Hzero : exists r c, (r, c) ∈ cells /\ Str.int r = Ok 0).
    { destruct cells as [|[r c] rest]; [congruence|].
      assert (Hin : (r, c) ∈ (r, c) :: rest) by left.
      destruct (Hrow r c Hin) as (_ & Hint & Hpos & _).
      destruct (decide (default 0 (Str.digits r 0 false) = 0)) as [Hz|Hz].
      - exists r, c. split; [exact Hin|]. rewrite Hint, Hz. reflexivity.
      - apply (Hgap r c _ 0 Hin Hint). lia. }
    destruct Hzero as (r & c & Hin & Hint).
    assert (Hp : name (r, c) ∈ concat (partition_rows (map (fun p => (p, rho p)) sorted))).
    { rewrite Hconcat. apply Hin_sorted, Himg. eauto. }
    apply list_elem_of_In, in_concat in Hp as (g' & Hg' & Hp).
    apply list_elem_of_In, list_elem_of_lookup in Hg' as [k' Hk'].
    apply list_elem_of_In in Hp.
    pose proof (Hidx k' g' _ Hk' Hp) as Hrow'.
    rewrite (proj1 (Hrow r c Hin)), Hint in Hrow'.
    assert (k' = O) as -> by (injection Hrow' as Hrow'; lia).
    rewrite Hk in Hk'. injection Hk' as ->. intros ->. inversion Hp.
Qed.

(** X20: a grid given in any order.  The paths are the names
    [<prefix>_<r>_<c>.<ext>] of a set of cells, all with the same beginning
    and extension, [r] and [c] runs of digits; below every row that occurs,
    every row down to 0 occurs.  Then [group_images] returns, group [k]
    holds tiles of row [k] and nothing else, no group is empty, and no tile
    is lost: the natural order puts the rows in numeric order, 10 after 9,
    whatever the order of the paths. *)
Theorem group_images_grid prefix ext (cells : list (string * string))
    (images : list string) :
  Str.all Str.is_alpha ext = true ->
  (forall r c, (r, c) ∈ cells ->
     r <> "" /\ Str.all Str.is_digit r = true
     /\ c <> "" /\ Str.all Str.is_digit c = true) ->
  images ≡ₚ map (fun rc => prefix +:+ tile_suffix rc.1 rc.2 ext) cells ->
  (forall r c y z, (r, c) ∈ cells -> Str.int r = Ok y -> 0 <= z < y ->
     exists r' c', (r', c') ∈ cells /\ Str.int r' = Ok z) ->
  exists groups,
    group_images images ext = Ok groups
    /\ (forall k g p, groups !! k = Some g -> p ∈ g ->
          exists r c, (r, c) ∈ cells /\ p = prefix +:+ tile_suffix r c ext
                      /\ Str.int r = Ok (Z.of_nat k))
    /\ (forall k g i j r c r' c',
          groups !! k = Some g -> (i <= j)%nat ->
          g !! i = Some (prefix +:+ tile_suffix r c ext) ->
          g !! j = Some (prefix +:+ tile_suffix r' c' ext) ->
          (r, c) ∈ cells -> (r', c') ∈ cells ->
          exists x x', Str.int c = Ok x /\ Str.int c' = Ok x' /\ x <= x')
    /\ (cells <> [] -> forall g, g ∈ groups -> g <> [])
    /\ concat groups ≡ₚ images.
Proof.
  intros Hext Hcells Hperm Hgap.
  destruct (grid_groups prefix ext cells images Hext Hcells Hperm Hgap)
    as (groups & Hgroups & Hconcat & Hordered & Hrows & Hcols & Hfull).
  exists groups. split; [exact Hgroups|]. split; [exact Hrows|].
  split; [|split; [exact Hfull|]].
  - intros k g i j r c r' c' Hk Hij Hi Hj Hin Hin'.
    destruct (Hcells r c Hin) as (Hr & Hrd & Hc & Hcd).
    destruct (Hcells r' c' Hin') as (Hr' & Hrd' & Hc' & Hcd').
    destruct (int_value c Hc Hcd) as [Hx _].
    destruct (int_value c' Hc' Hcd') as [Hx' _].
    eexists _, _. split; [exact Hx|]. split; [exact Hx'|].
    apply (Hcols r c r' c' _ _ Hin Hin'); [| |exact Hx|exact Hx'].
    + (* the first is not after the second in the sorted list *)
      destruct (decide (i = j)) as [->|Hne].
      * rewrite Hi in Hj. injection Hj as <-. apply leb_refl.
      * set (before := length (concat (take k groups))).
        apply (sorted_lookup _ (Natsort.natsorted images) (before + i) (before + j)
                 _ _ Hordered); [lia| |].
        -- rewrite <- Hconcat. unfold before.
           rewrite (lookup_concat_at _ k g i Hk); [exact Hi|].
           apply lookup_lt_Some in Hi. exact Hi.
        -- rewrite <- Hconcat. unfold before.
           rewrite (lookup_concat_at _ k g j Hk); [exact Hj|].
           apply lookup_lt_Some in Hj. exact Hj.
    + (* both tiles are of row [k] *)
      destruct (Hrows k g _ Hk (proj2 (list_elem_of_lookup _ _) (ex_intro _ i Hi)))
        as (r1 & c1 & Hin1 & Heq1 & Hint1).
      destruct (Hrows k g _ Hk (proj2 (list_elem_of_lookup _ _) (ex_intro _ j Hj)))
        as (r2 & c2 & Hin2 & Heq2 & Hint2).
      rewrite <- (grid_row prefix ext cells Hext Hcells r c Hin),
              <- (grid_row prefix ext cells Hext Hcells r' c' Hin').
      rewrite Heq1, Heq2.
      rewrite (grid_row prefix ext cells Hext Hcells r1 c1 Hin1),
              (grid_row prefix ext cells Hext Hcells r2 c2 Hin2).
      congruence.
  - rewrite Hconcat. apply natsorted_perm.
Qed.

End GridOrder.

(** ** From the names to the pixels *)

Section Pipeline.

Context {pixel : Type} (black : @Image pixel -> pixel).
Implicit Types (image t out part full : @Image pixel).
Implicit Types (fs : @filesystem pixel).

#[local] Arguments String.append !_ _ / : simpl nomatch.

Lemma Image_open_filename fs (path : string) t :
  Image_open fs path = Ok t -> filename t = path.
Proof.
  unfold Image_open. destruct (fs path) as [[fmt a]|]; [|discriminate].
  intros [= <-]. reflexivity.
Qed.

Lemma sum_same {A} (f : A -> Z) (v : Z) (l : list A) :
  Forall (fun el => f el = v) l ->
  foldr Z.add 0 (map f l) = Z.of_nat (length l) * v.
Proof.
  induction 1 as [|el l Hel _ IH]; [reflexivity|].
  cbn [map foldr length]. rewrite Hel, IH. lia.
Qed.

(** X21: the whole way, for tiles of one size.  The paths are the names
    [<dir><base>_<r>_<c>.<ext>] of a set of cells, given in any order, with
    no row missing below a row that occurs; every file opens as a tile [W]
    wide and [H] high; and every row has [C] tiles.  Then [group_images]
    returns, [merge] returns on its groups an image [C * W] wide and as
    high as there are rows times [H], and pixel [(x, y)] of the tile that
    is number [j] of row [k] in natural order is pixel
    [(j * W + x, k * H + y)] of that image. *)
Theorem pipeline_uniform_grid fs dir base ext (cells : list (string * string))
    (images : list string) (W H : Z) (C : nat) :
  Str.all Str.is_alpha ext = true ->
  (forall r c, (r, c) ∈ cells ->
     r <> "" /\ Str.all Str.is_digit r = true
     /\ c <> "" /\ Str.all Str.is_digit c = true) ->
  images ≡ₚ map (fun rc => (dir +:+ base) +:+ tile_suffix rc.1 rc.2 ext) cells ->
  (forall r c y z, (r, c) ∈ cells -> Str.int r = Ok y -> 0 <= z < y ->
     exists r' c', (r', c') ∈ cells /\ Str.int r' = Ok z) ->
  cells <> [] ->
  Str.all (fun ch => negb (Ascii.eqb ch "/")) base = true ->
  dir = "" \/ (exists d, dir = d +:+ "/") ->
  (forall path, path ∈ images ->
     exists t, Image_open fs path = Ok t /\ wf_image t
               /\ width t = W /\ height t = H
               /\ Str.all (fun ch => negb (Ascii.eqb ch "_")) (format t) = true) ->
  exists groups,
    group_images images ext = Ok groups
    /\ (Forall (fun g => length g = C) groups ->
        exists full,
          merge black fs groups = Ok full
          /\ width full = Z.of_nat C * W
          /\ height full = Z.of_nat (length groups) * H
          /\ forall k g j path t x y,
               groups !! k = Some g -> g !! j = Some path ->
               Image_open fs path = Ok t ->
               0 <= x < W -> 0 <= y < H ->
               getpixel full (Z.of_nat j * W + x) (Z.of_nat k * H + y)
               = getpixel t x y).
Proof.
  intros Hext Hcells Hperm Hgap Hcne Hbase Hdir Hfiles.
  destruct (grid_groups (dir +:+ base) ext cells images Hext Hcells Hperm Hgap)
    as (groups & Hgroups & _ & _ & Hrows & _ & Hfull).
  specialize (Hfull Hcne).
  exists groups. split; [exact Hgroups|]. intros Hlen.
  assert (Hmember : forall k g path, groups !! k = Some g -> path ∈ g -> path ∈ images).
  { intros k g path Hk Hp. destruct (Hrows k g path Hk Hp) as (r & c & Hin & -> & _).
    rewrite Hperm. apply list_elem_of_fmap. exists (r, c). auto. }
  set (good := fun (k : nat) (t : @Image pixel) =>
                 wf_image t /\ width t = W /\ height t = H
                 /\ image_row t = Ok (Z.of_nat k)).
  assert (Htile : forall k g path, groups !! k = Some g -> path ∈ g ->
            exists t, Image_open fs path = Ok t /\ good k t).
  { intros k g path Hk Hp.
    destruct (Hfiles path (Hmember k g path Hk Hp)) as (t & Ht & Hwf & Hw & Hh & Hfmt).
    exists t. split; [exact Ht|]. split; [exact Hwf|]. split; [exact Hw|].
    split; [exact Hh|].
    destruct (Hrows k g path Hk Hp) as (r & c & Hin & -> & Hint).
    destruct (Hcells r c Hin) as (Hr & Hrd & Hc & Hcd).
    unfold image_row. rewrite (Image_open_filename _ _ _ Ht), str_app_assoc.
    rewrite basename_of_name; [| |exact Hdir].
    - rewrite <- Hint. apply row_of_name; assumption.
    - rewrite str_all_app, Hbase. apply tile_suffix_no_slash; assumption. }
  destruct (mapM_lookup_Ok (mapM (Image_open fs)) groups
              (fun k g ts => length ts = length g /\ Forall (good k) ts))
    as (opened & Hopen & Hleno & Hopened).
  { intros k g Hk.
    destruct (mapM_lookup_Ok (Image_open fs) g (fun _ _ t => good k t))
      as (ts & Hts & Hlts & Hgood).
    { intros j path Hj. apply (Htile k g path Hk).
      apply list_elem_of_lookup. eauto. }
    exists ts. split; [exact Hts|]. split; [exact Hlts|].
    apply Forall_lookup. intros j t Hj.
    destruct (lookup_lt_is_Some_2 g j) as [path Hpath].
    { rewrite <- Hlts. eapply lookup_lt_Some, Hj. }
    apply (Hgood j path t Hpath Hj). }
  fold (open_all fs groups) in Hopen.
  assert (Hgroup_of : forall k ts, opened !! k = Some ts ->
            length ts = C /\ ts <> [] /\ Forall (good k) ts).
  { intros k ts Hts. destruct (lookup_lt_is_Some_2 groups k) as [g Hg].
    { rewrite <- Hleno. eapply lookup_lt_Some, Hts. }
    destruct (Hopened k g ts Hg Hts) as [Hl Hall].
    pose proof (Hfull g (proj2 (list_elem_of_lookup _ _) (ex_intro _ k Hg))) as Hgne.
    split; [rewrite Hl; apply (Forall_lookup_1 _ _ _ _ Hlen Hg)|].
    split; [|exact Hall]. destruct ts; [|discriminate].
    destruct g; [congruence|discriminate]. }
  assert (Hgne : groups <> []).
  { destruct (group_images_Ok_inv _ _ _ Hgroups) as [_ (st & -> & _)].
    unfold groups_of. destruct (closed st); discriminate. }
  assert (HW : 0 <= W /\ 0 <= H).
  { destruct groups as [|g0 groups']; [congruence|].
    destruct (lookup_lt_is_Some_2 opened O) as [ts Hts]; [rewrite Hleno; simpl; lia|].
    destruct (Hgroup_of O ts Hts) as (_ & Hne & Hall).
    destruct ts as [|t ts]; [congruence|].
    apply Forall_cons in Hall as [(Hwf & <- & <- & _) _].
    destruct Hwf as (? & ? & _). lia. }
  assert (Hal : aligned opened).
  { intros k t (ts & Hts & Ht)%tagged_elem.
    destruct (Hgroup_of k ts Hts) as (_ & _ & Hall). rewrite Forall_forall in Hall.
    apply (Hall t Ht). }
  assert (Hne : Forall (fun ts => ts <> []) opened).
  { apply Forall_lookup. intros k ts Hts. apply (Hgroup_of k ts Hts). }
  assert (Hmaxh : Forall (fun ts => max_of (map height ts) = H) opened).
  { apply Forall_lookup. intros k ts Hts. destruct (Hgroup_of k ts Hts) as (_ & Hn & Hall).
    apply max_of_same; [destruct ts; [congruence|discriminate]|lia|].
    apply Forall_fmap. eapply Forall_impl; [exact Hall|].
    intros t (_ & _ & Ht & _). exact Ht. }
  assert (Hmaxw : Forall (fun ts => max_of (map width ts) = W) opened).
  { apply Forall_lookup. intros k ts Hts. destruct (Hgroup_of k ts Hts) as (_ & Hn & Hall).
    apply max_of_same; [destruct ts; [congruence|discriminate]|lia|].
    apply Forall_fmap. eapply Forall_impl; [exact Hall|].
    intros t (_ & Ht & _). exact Ht. }
  destruct (merge_cells black fs groups opened (Z.of_nat C * W) Hopen Hal Hgne Hne)
    as (full & Hmerge & Hwidth & Hheight & Hcell).
  { apply Forall_lookup. intros k ts Hts. destruct (Hgroup_of k ts Hts) as (Hl & _).
    rewrite Hl, (Forall_lookup_1 _ _ _ _ Hmaxw Hts). reflexivity. }
  exists full. split; [exact Hmerge|]. split; [exact Hwidth|]. split.
  { rewrite Hheight, (sum_same _ H opened Hmaxh), Hleno. reflexivity. }
  intros k g j path t x y Hk Hj Ht Hx Hy.
  destruct (mapM_Ok_lookup _ _ _ _ _ Hopen Hk) as (ts & Hts & Hog).
  destruct (mapM_Ok_lookup _ _ _ _ _ Hog Hj) as (t' & Ht' & Hopen').
  assert (t' = t) as -> by congruence.
  destruct (Hgroup_of k ts Hts) as (_ & _ & Hall).
  destruct (Forall_lookup_1 _ _ _ _ Hall Ht') as (Hwf & Hw & Hh & _).
  pose proof (Hcell k ts j t Hts Ht' x y) as Hpix.
  rewrite (Forall_lookup_1 _ _ _ _ Hmaxw Hts),
          (Forall_lookup_1 _ _ _ _ Hmaxh Hts) in Hpix.
  rewrite (sum_same _ H (take k opened) (Forall_take _ _ _ Hmaxh)) in Hpix.
  rewrite length_take_le in Hpix by (apply lookup_lt_Some in Hts; lia).
  rewrite Hw, Hh, !Z.sub_diag in Hpix.
  change (0 `div` 2) with 0 in Hpix. rewrite !Z.sub_0_r in Hpix.
  rewrite Hpix by lia.
  destruct (getpixel_wf t x y Hwf) as [p ->]; [lia|lia|reflexivity].
Qed.

End Pipeline.

(** ** The further theorems at work *)

(** Three paths, one of them with another extension. *)
Lemma group_images_keeps_tiles_witness :
  concat [["a_0_0.png"; "a_0_1.png"]]
  ≡ₚ List.filter (fun image => Str.endswith image "png")
                 ["a_0_1.png"; "b_0_0.jpg"; "a_0_0.png"].
Proof.
  exact (proj2 (proj2 (group_images_keeps_tiles
                         ["a_0_1.png"; "b_0_0.jpg"; "a_0_0.png"] "png"
                         [["a_0_0.png"; "a_0_1.png"]]
                         ltac:(vm_compute; reflexivity)))).
Defined.

(** The six tiles: two groups, rows 0 and 1. *)
Lemma group_images_groups_by_row_witness :
  (forall g p,
     [["im_0_0.png"; "im_0_1.png"; "im_0_2.png"];
      ["im_1_0.png"; "im_1_1.png"; "im_1_2.png"]] !! O = Some g ->
     p ∈ g -> path_row p "png" = Ok 0)
  /\ (forall k g g' p p',
        [["im_0_0.png"; "im_0_1.png"; "im_0_2.png"];
         ["im_1_0.png"; "im_1_1.png"; "im_1_2.png"]] !! k = Some g ->
        [["im_0_0.png"; "im_0_1.png"; "im_0_2.png"];
         ["im_1_0.png"; "im_1_1.png"; "im_1_2.png"]] !! S k = Some g' ->
        p ∈ g -> p' ∈ g' -> path_row p "png" <> path_row p' "png").
Proof.
  destruct (group_images_groups_by_row six_tiles "png" _ ltac:(vm_compute; reflexivity))
    as (_ & _ & Hfirst & _ & Hnext).
  split; [exact Hfirst|exact Hnext].
Defined.

(** A picture without coordinates among the tiles. *)
Lemma group_images_fails_on_names_witness :
  exists p, p ∈ ["im_0_0.png"; "cover.png"] /\ Str.endswith p "png" = true
            /\ path_row p "png" = Raise IndexError.
Proof.
  exact (proj2 (proj2 (group_images_fails_on_names ["im_0_0.png"; "cover.png"] "png")
                  IndexError ltac:(vm_compute; reflexivity))).
Defined.

(** Row 12 of a scan. *)
Lemma tile_row_of_name_witness :
  exists n, 0 <= n /\ Str.int "12" = Ok n
    /\ (forall image_ext,
          Str.all (fun ch => negb (Ascii.eqb ch "_")) image_ext = true ->
          path_row "/data/scan_12_3.png" image_ext = Ok n)
    /\ (forall (fs : @filesystem Z) fmt arr,
          fs "/data/scan_12_3.png" = Some (fmt, arr) ->
          Str.all (fun ch => negb (Ascii.eqb ch "_")) fmt = true ->
          Image_open fs "/data/scan_12_3.png" ≫= image_row = Ok n).
Proof.
  apply (tile_row_of_name (pixel := Z) "/data/" "scan" "12" "3" "png");
    [discriminate | reflexivity | reflexivity | reflexivity | reflexivity |].
  right. exists "/data". reflexivity.
Defined.

(** The stray tile set: the tile of the third group is 7 high and counts
    in cell 0 of the height table. *)
Lemma reconcile_bounds_witness :
  length [7; 3; 0] = length stray_groups /\ length [20; 20; 10] = length stray_groups
  /\ Forall (fun v => 0 <= v) [7; 3; 0] /\ Forall (fun v => 0 <= v) [20; 20; 10]
  /\ forall i group path,
       stray_groups !! i = Some group -> path ∈ group ->
       exists t coord_y h w,
         Image_open stray_fs path = Ok t
         /\ image_row t = Ok coord_y
         /\ getitem [7; 3; 0] coord_y = Ok h /\ height t <= h
         /\ [20; 20; 10] !! i = Some w /\ width t <= w.
Proof.
  apply (reconcile_bounds stray_fs stray_groups [7; 3; 0] [20; 20; 10]).
  vm_compute. reflexivity.
Defined.

(** The ragged tile set fails in the vertical concatenation, after a first
    pass that returned; the tile of its second row finds its targets. *)
Lemma merge_failures_witness :
  (ValueError by_vstack <> ValueError by_new
   /\ exists max_heights max_widths,
        reconcile ragged_fs ragged_groups = Ok (max_heights, max_widths))
  /\ exists t coord_y target_height target_width,
       Image_open ragged_fs "t_1_0.png" = Ok t
       /\ image_row t = Ok coord_y
       /\ getitem [2; 2] coord_y = Ok target_height
       /\ getitem [2; 2] coord_y = Ok target_width
       /\ 0 <= target_height /\ 0 <= target_width
       /\ pad_image dark t [2; 2] [2; 2]
          = expand dark t (padding (width t) (height t) target_width target_height)
       /\ pad_image dark t [2; 2] [2; 2] <> Raise IndexError
       /\ pad_image dark t [2; 2] [2; 2] <> Raise (ValueError by_new).
Proof.
  split.
  - destruct (proj1 (merge_failures dark ragged_fs ragged_groups)
                (ValueError by_vstack) ltac:(vm_compute; reflexivity))
      as (Hkind & _ & Hafter).
    split; [exact Hkind|]. apply Hafter. right. reflexivity.
  - apply (proj2 (merge_failures dark ragged_fs ragged_groups) [2; 2] [2; 2]
             ["t_1_0.png"] "t_1_0.png").
    + vm_compute. reflexivity.
    + right. left.
    + left.
Defined.

(** The even tile set merges. *)
Lemma merge_returns_witness :
  even_groups <> [] /\ ([] ∉ even_groups)
  /\ (forall group path, group ∈ even_groups -> path ∈ group ->
        exists t coord_y,
          Image_open even_fs path = Ok t /\ image_row t = Ok coord_y
          /\ - Z.of_nat (length even_groups) <= coord_y < Z.of_nat (length even_groups))
  /\ wf_image (MkImage "" "" 4 4
                 [[1; 1; 2; 2]; [1; 1; 2; 2]; [3; 3; 4; 4]; [3; 3; 4; 4]]).
Proof.
  apply (merge_returns dark even_fs even_groups). vm_compute. reflexivity.
Defined.

(** The uneven tile set: rows of 2 + 3 and 1 + 3 columns, both 6 wide once
    padded, each 2 high. *)
Lemma merge_aligned_size_witness :
  exists full,
    merge dark uneven_fs uneven_groups = Ok full
    /\ width full = 6
    /\ height full
       = foldr Z.add 0 (map (fun ts => max_of (map height ts)) uneven_images)
    /\ wf_image full.
Proof.
  apply (merge_aligned_size dark uneven_fs uneven_groups uneven_images 6).
  - vm_compute. reflexivity.
  - apply aligned_Forall. repeat constructor.
  - discriminate.
  - repeat constructor; discriminate.
  - repeat constructor.
Defined.

(** The wide tile, 10 by 2, with targets 5 by 1: three columns are cut on
    the left, two on the right, one line at the top. *)
Lemma pad_image_smaller_target_witness :
  exists out,
    pad_image dark wide_tile [1] [5] = Ok out
    /\ width out = 5 /\ height out = 1
    /\ pixels out = pixels (crop dark wide_tile (- -3) (- -1) 5 1)
    /\ (1 <= height wide_tile -> 5 <= width wide_tile ->
        0 <= - -3 /\ - -3 + 5 <= width wide_tile
        /\ 0 <= - -1 /\ - -1 + 1 <= height wide_tile
        /\ forall x y, 0 <= x < 5 -> 0 <= y < 1 ->
             getpixel out x y = getpixel wide_tile (x - -3) (y - -1)).
Proof.
  apply (proj2 (pad_image_smaller_target dark wide_tile [1] [5] 0 1 5
                  ltac:(well_formed) eq_refl eq_refl eq_refl)); lia.
Defined.

(** A tile among the images of a directory. *)
Lemma image_file_extension_witness :
  exists ext, In ext ["jpg"; "jpeg"; "tif"; "bmp"; "png"; "gif"]
    /\ forall dir,
         getitem (Str.split "." (dir +:+ "im_0_0.png")) (-1) = Ok ext
         /\ Str.endswith (dir +:+ "im_0_0.png") ext = true.
Proof.
  apply (proj2 (image_file_extension "im_0_0.png")). reflexivity.
Defined.

(** The first tile of a scan. *)
Lemma merged_name_plain_witness :
  merged_name ["/data/scans/scanA_10_2.jpg"; "/data/scans/scanA_0_1.jpg"]
  = Ok "scanA_merged.jpg".
Proof.
  apply (merged_name_plain "/data/scans/" "scanA" "10" "2" "jpg");
    try reflexivity; try discriminate.
  right. exists "/data/scans". reflexivity.
Defined.

(** A cover picture listed first. *)
Lemma merged_name_fails_witness :
  merged_name ["cover.png"; "im_0_0.png"] = Raise IndexError.
Proof.
  apply (proj2 (proj2 merged_name_fails) "cover.png" ["im_0_0.png"]). reflexivity.
Defined.

(** The uneven tile set: the second tile of the first row, 3 by 1, sits in
    a cell 3 wide and 2 high that starts 3 columns from the left. *)
Lemma merge_places_tiles_witness :
  exists full,
    merge dark uneven_fs uneven_groups = Ok full
    /\ forall i ts j t,
         uneven_images !! i = Some ts -> ts !! j = Some t ->
         let th := max_of (map height ts) in
         let tw := max_of (map width ts) in
         let top := foldr Z.add 0 (map (fun ts => max_of (map height ts))
                                       (take i uneven_images)) in
         let pad_left := (tw - width t) `div` 2 in
         let pad_top := (th - height t) `div` 2 in
         (forall x y, 0 <= x < tw -> 0 <= y < th ->
            getpixel full (Z.of_nat j * tw + x) (top + y)
            = Some (default (dark t) (getpixel t (x - pad_left) (y - pad_top))))
         /\ (forall x y, 0 <= x < width t -> 0 <= y < height t ->
              getpixel full (Z.of_nat j * tw + pad_left + x) (top + pad_top + y)
              = getpixel t x y)
         /\ (forall x y, 0 <= x < tw -> 0 <= y < th ->
              x < pad_left \/ pad_left + width t <= x \/
              y < pad_top \/ pad_top + height t <= y ->
              getpixel full (Z.of_nat j * tw + x) (top + y) = Some (dark t)).
Proof.
  apply (merge_places_tiles dark uneven_fs uneven_groups uneven_images 6).
  - vm_compute. reflexivity.
  - apply aligned_Forall. repeat constructor.
  - discriminate.
  - repeat constructor; discriminate.
  - repeat constructor; simpl; lia.
  - repeat constructor.
Defined.

(** A text file named like a tile, and a tile with a dash for the dot. *)
Lemma tile_file_names_witness :
  found tile_file_pattern "notes_1_2.txt" = true
  /\ found tile_file_pattern ("tile" +:+ "_" +:+ "0" +:+ "_" +:+ "0" +:+ String "-" "png")
     = true.
Proof.
  split.
  - apply (proj1 (proj2 tile_file_names) "notes" "1" "2" "txt");
      reflexivity || discriminate.
  - apply (proj1 tile_file_names "tile" "0" "0" "-"%char "png" "");
      reflexivity || discriminate.
Defined.

(** A path that is no directory, and a directory of two tile sets whose
    output directory can be made. *)
Lemma parse_args_outcomes_witness :
  parse_args scans_dirs makes_all "/nowhere" "/out" = Fails OSError
  /\ parse_args scans_dirs makes_all "/scans" "/out"
     = Returns (["/scans/a"; "/scans/b"], "/out").
Proof.
  split.
  - apply (proj1 (parse_args_outcomes scans_dirs makes_all "/nowhere" "/out")).
    left. reflexivity.
  - destruct (proj1 (proj2 (parse_args_outcomes scans_dirs makes_all "/scans" "/out"))
                ["a"; "b"; "index.html"] eq_refl) as [_ Hbelow].
    destruct Hbelow as [_ Hreadable].
    + intros name Hin.
      repeat (apply elem_of_cons in Hin as [->|Hin]; [reflexivity|]). inversion Hin.
    + destruct Hreadable as [_ Hsome].
      * intros name Hin.
        repeat (apply elem_of_cons in Hin as [->|Hin]; [discriminate|]). inversion Hin.
      * apply Hsome. discriminate.
Defined.

(** A directory of notes. *)
Lemma main_no_image_file_witness :
  parse_args notes_dirs makes_all "/notes" "/out" = Returns (["/notes"], "/out")
  /\ merge_dir dark saves_all even_fs notes_dirs "/out" "/notes" = Raise IndexError
  /\ main dark makes_all saves_all even_fs notes_dirs "/notes" "/out"
     = ([], Fails IndexError).
Proof.
  apply (main_no_image_file dark makes_all saves_all even_fs notes_dirs "/notes" "/out"
           ["notes_1_2.txt"; "readme"]).
  - reflexivity.
  - exists "notes_1_2.txt". split; [left|reflexivity].
  - intros name [->|[->|Hin]%elem_of_cons]%elem_of_cons;
      [reflexivity | reflexivity | inversion Hin].
Defined.

(** The even tile set in its directory. *)
Lemma merge_dir_pipeline_witness :
  merge_dir dark saves_all even_fs even_dirs "/out" ""
  = (grouped_images ← group_images ["t_1_1.png"; "t_0_1.png"; "t_0_0.png"; "t_1_0.png"]
                                   "png";
     full_image ← merge dark even_fs grouped_images;
     _ ← saves_all (path_join "/out" ("t" +:+ "_merged." +:+ "png")) full_image;
     Ok (path_join "/out" ("t" +:+ "_merged." +:+ "png"), full_image)).
Proof.
  apply (merge_dir_pipeline dark saves_all even_fs even_dirs "/out" ""
           ["t_1_1.png"; "t_0_1.png"; "readme.txt"; "t_0_0.png"; "t_1_0.png"]
           "t" "1" "1" "png" ["t_0_1.png"; "t_0_0.png"; "t_1_0.png"]);
    reflexivity || discriminate.
Defined.

(** Tiles asked for with the wrong extension. *)
Lemma merge_of_no_tiles_witness :
  group_images ["im_0_0.png"; "im_0_1.png"] "jpg" = Ok [[]].
Proof.
  apply (proj1 (merge_of_no_tiles dark ["im_0_0.png"; "im_0_1.png"] "jpg"
                  ltac:(intros path [->|[->|Hin]%elem_of_cons]%elem_of_cons;
                        [reflexivity | reflexivity | inversion Hin]))).
Defined.

(** The six tiles come sorted as rows 0, 0, 0, 1, 1, 1. *)
Lemma group_images_aligned_witness :
  (forall k g p,
     [["im_0_0.png"; "im_0_1.png"; "im_0_2.png"];
      ["im_1_0.png"; "im_1_1.png"; "im_1_2.png"]] !! k = Some g ->
     p ∈ g -> path_row p "png" = Ok (Z.of_nat k))
  /\ (forall (fs : @filesystem Z) opened,
        (forall p t, p ∈ six_tiles -> Image_open fs p = Ok t ->
           image_row t = path_row p "png") ->
        open_all fs [["im_0_0.png"; "im_0_1.png"; "im_0_2.png"];
                     ["im_1_0.png"; "im_1_1.png"; "im_1_2.png"]] = Ok opened ->
        aligned opened).
Proof.
  apply (group_images_aligned (pixel := Z) six_tiles "png").
  - vm_compute. reflexivity.
  - intros tiles Ht. vm_compute in Ht. injection Ht as <-.
    simpl. repeat split; auto.
Defined.

Ltac each_cell Hin :=
  repeat (apply elem_of_cons in Hin as [Hin|Hin]; [injection Hin as -> ->|]);
  [.. | inversion Hin].

(** The six tiles, in the order they are given. *)
Lemma group_images_grid_witness :
  exists groups,
    group_images six_tiles "png" = Ok groups
    /\ (forall k g p, groups !! k = Some g -> p ∈ g ->
          exists r c, (r, c) ∈ six_cells /\ p = "im" +:+ tile_suffix r c "png"
                      /\ Str.int r = Ok (Z.of_nat k))
    /\ (forall k g i j r c r' c',
          groups !! k = Some g -> (i <= j)%nat ->
          g !! i = Some ("im" +:+ tile_suffix r c "png") ->
          g !! j = Some ("im" +:+ tile_suffix r' c' "png") ->
          (r, c) ∈ six_cells -> (r', c') ∈ six_cells ->
          exists x x', Str.int c = Ok x /\ Str.int c' = Ok x' /\ x <= x')
    /\ (six_cells <> [] -> forall g, g ∈ groups -> g <> [])
    /\ concat groups ≡ₚ six_tiles.
Proof.
  apply (group_images_grid "im" "png" six_cells six_tiles).
  - reflexivity.
  - intros r c Hin. each_cell Hin; repeat split; discriminate || reflexivity.
  - reflexivity.
  - intros r c y z Hin Hint Hz.
    each_cell Hin; vm_compute in Hint; injection Hint as <-; try lia;
      assert (z = 0) as -> by lia; exists "0", "0";
      (split; [right; right; right; left|reflexivity]).
Defined.

(** The even tile set, in the order it is given. *)
Lemma pipeline_uniform_grid_witness :
  exists groups,
    group_images ["t_1_1.png"; "t_0_1.png"; "t_0_0.png"; "t_1_0.png"] "png" = Ok groups
    /\ (Forall (fun g => length g = 2%nat) groups ->
        exists full,
          merge dark even_fs groups = Ok full
          /\ width full = Z.of_nat 2 * 2
          /\ height full = Z.of_nat (length groups) * 2
          /\ forall k g j path t x y,
               groups !! k = Some g -> g !! j = Some path ->
               Image_open even_fs path = Ok t ->
               0 <= x < 2 -> 0 <= y < 2 ->
               getpixel full (Z.of_nat j * 2 + x) (Z.of_nat k * 2 + y)
               = getpixel t x y).
Proof.
  apply (pipeline_uniform_grid dark even_fs "" "t" "png" even_cells
           ["t_1_1.png"; "t_0_1.png"; "t_0_0.png"; "t_1_0.png"] 2 2 2).
  - reflexivity.
  - intros r c Hin. each_cell Hin; repeat split; discriminate || reflexivity.
  - reflexivity.
  - intros r c y z Hin Hint Hz.
    each_cell Hin; vm_compute in Hint; injection Hint as <-; try lia;
      assert (z = 0) as -> by lia; exists "0", "0";
      (split; [right; right; left|reflexivity]).
  - discriminate.
  - reflexivity.
  - left. reflexivity.
  - intros path Hin.
    repeat (apply elem_of_cons in Hin as [->|Hin]); [.. | inversion Hin];
      (eexists; split; [vm_compute; reflexivity|]);
      (split; [well_formed|]); repeat split.
Defined.
